(** * Pose-detection post-processing: decoder, IoU, greedy NMS, stride alignment

    A shallow embedding of [src/utils/inference_pipeline.js]: the decoding
    loop of [inference_pipeline], [calculateIOU], [applyNMS] and [divStride],
    with the properties the specification states about them; then the sizes
    and ratios of [preProcess_dynamic] and [inference_pipeline], and
    [draw_bounding_boxes] of [src/utils/draw_bounding_boxes.js] as the list
    of calls it makes on the canvas, with further properties of the code.

    Number model.  A JavaScript Number that holds a tensor value, a
    coordinate, a score or a threshold is an exact rational ([Q]): the
    development is about the arithmetic the code writes down, not about
    binary64 rounding, overflow or NaN.  The two places where the code can
    leave the rationals are kept visible as [None]: a read past the end of a
    typed array ([undefined]) and a division by zero ([Infinity]/[NaN]).
    Image sizes and the stride are integers ([Z]); array indices and the
    anchor count are naturals.

    What is proved here about a computed number therefore holds for the
    running code up to rounding.  [calculateIOU] is embedded a second time,
    in [Binary64], on the kernel's binary64 numbers: evaluating it shows
    where rounding changes an exact equality. *)

From Stdlib Require Import QArith Qminmax ZArith Lia Lra Psatz.
From Stdlib Require Floats.
From stdpp Require Import base option list sorting strings.
From Equations Require Import Equations.

Local Open Scope Z_scope.

(* ===================================================================== *)
(** * Part I: the program                                                 *)
(* ===================================================================== *)

(** ** Stride alignment *)

(** [const divStride = (stride, width, height) => ...].

    [width % stride] is JavaScript's remainder (sign of the dividend):
    [Z.rem].  [stride / 2] is a real division, so
    [width % stride >= stride / 2] is [2 * (width % stride) >= stride].
    [Math.floor(width / stride)] is the floor of the real quotient: [Z.div].
    A zero stride makes the code return NaN; it is not represented here
    (the only caller passes 32). *)
Definition divStride (stride width height : Z) : Z * Z :=
  let width' :=
    if 2 * Z.rem width stride >=? stride
    then (width / stride + 1) * stride
    else (width / stride) * stride in
  let height' :=
    if 2 * Z.rem height stride >=? stride
    then (height / stride + 1) * stride
    else (height / stride) * stride in
  (width', height').

(** ** Numbers and array reads *)

(** [a / b] on Numbers.  A zero divisor gives [Infinity] or [NaN] in
    JavaScript; neither is a rational, so the quotient is [None] there. *)
Definition js_div (a b : Q) : option Q :=
  if Qeq_bool b 0 then None else Some (a / b)%Q.

(** [a <= b] where [a] may be the result of a division by zero and [b] is
    a rational: the comparison is false for such an [a] (the only division
    of this program has a positive dividend, so its quotient by zero is
    [+Infinity]). *)
Definition js_le (a : option Q) (b : Q) : bool :=
  match a with
  | Some v => Qle_bool v b
  | None => false
  end.

(** [typedArray.subarray(begin, end)] and [typedArray.subarray(begin)]:
    both ends are clamped to the array. *)
Definition subarray (a : list Q) (begin_ end_ : nat) : list Q :=
  take (end_ - begin_) (drop begin_ a).
Definition subarray_from (a : list Q) (begin_ : nat) : list Q :=
  drop begin_ a.

(** ** Detections *)

(** A box is the array [[x, y, w, h]]. *)
Definition Box : Type := Q * Q * Q * Q.

(** [{ x, y, score }] of one keypoint. *)
Record Keypoint : Type := mkKeypoint {
  kp_x : Q;
  kp_y : Q;
  kp_score : Q
}.

(** [{ bbox: [x, y, w, h], score, keypoints }]. *)
Record Detection : Type := mkDetection {
  bbox : Box;
  score : Q;
  keypoints : list Keypoint
}.

(** The fields of [config] that the pipeline reads. *)
Record config : Type := mkConfig {
  iou_threshold : Q;
  score_threshold : Q
}.

(** ** Intersection over union *)

(** [function calculateIOU(box1, box2)]. *)
Definition calculateIOU (box1 box2 : Box) : option Q :=
  let '(x1, y1, w1, h1) := box1 in
  let '(x2, y2, w2, h2) := box2 in
  let box1_x2 := (x1 + w1)%Q in
  let box1_y2 := (y1 + h1)%Q in
  let box2_x2 := (x2 + w2)%Q in
  let box2_y2 := (y2 + h2)%Q in
  let intersect_x1 := Qmax x1 x2 in
  let intersect_y1 := Qmax y1 y2 in
  let intersect_x2 := Qmin box1_x2 box2_x2 in
  let intersect_y2 := Qmin box1_y2 box2_y2 in
  if Qle_bool intersect_x2 intersect_x1 || Qle_bool intersect_y2 intersect_y1
  then Some 0%Q
  else
    let intersection :=
      ((intersect_x2 - intersect_x1) * (intersect_y2 - intersect_y1))%Q in
    let box1_area := (w1 * h1)%Q in
    let box2_area := (w2 * h2)%Q in
    js_div intersection (box1_area + box2_area - intersection)%Q.

(** ** Intersection over union, on binary64 numbers *)

Module Binary64.
Import Floats.PrimFloat.
Local Open Scope float_scope.

(** [Math.max(a, b)]: NaN when an argument is NaN, and [+0] is larger
    than [-0]. *)
Definition Math_max (a b : float) : float :=
  if is_nan a || is_nan b then nan
  else if a <? b then b
  else if b <? a then a
  else if is_zero a && get_sign a then b else a.

(** [Math.min(a, b)]: NaN when an argument is NaN, and [-0] is smaller
    than [+0]. *)
Definition Math_min (a b : float) : float :=
  if is_nan a || is_nan b then nan
  else if a <? b then a
  else if b <? a then b
  else if is_zero a && get_sign a then a else b.

Definition Box : Type := float * float * float * float.

(** [function calculateIOU(box1, box2)], every operation the binary64 one. *)
Definition calculateIOU (box1 box2 : Box) : float :=
  let '(x1, y1, w1, h1) := box1 in
  let '(x2, y2, w2, h2) := box2 in
  let box1_x2 := x1 + w1 in
  let box1_y2 := y1 + h1 in
  let box2_x2 := x2 + w2 in
  let box2_y2 := y2 + h2 in
  let intersect_x1 := Math_max x1 x2 in
  let intersect_y1 := Math_max y1 y2 in
  let intersect_x2 := Math_min box1_x2 box2_x2 in
  let intersect_y2 := Math_min box1_y2 box2_y2 in
  if (intersect_x2 <=? intersect_x1) || (intersect_y2 <=? intersect_y1)
  then 0
  else
    let intersection :=
      (intersect_x2 - intersect_x1) * (intersect_y2 - intersect_y1) in
    let box1_area := w1 * h1 in
    let box2_area := w2 * h2 in
    intersection / (box1_area + box2_area - intersection).

End Binary64.

(** ** The decoder: the post-processing loop of [inference_pipeline] *)

Definition NUM_BBOX_ATTRS : nat := 5.
Definition NUM_KEYPOINTS : nat := 17.
Definition KEYPOINT_DIMS : nat := 3.

Section decoder.
Local Open Scope nat_scope.

(** [output0.data], [output0.dims[2]], the thresholds and the two ratios. *)
Variable predictions : list Q.
Variable num_predictions : nat.
Variable cfg : config.
Variables xRatio yRatio : Q.

Definition bbox_data : list Q :=
  subarray predictions 0 (num_predictions * NUM_BBOX_ATTRS).
Definition keypoints_data : list Q :=
  subarray_from predictions (num_predictions * NUM_BBOX_ATTRS).

(** The body of [for (let kp = 0; kp < NUM_KEYPOINTS; kp++)] for anchor
    [i]: the value stored in [keypoints[kp]]. *)
Definition decode_keypoint (i kp : nat) : option Keypoint :=
  let base_idx := kp * KEYPOINT_DIMS * num_predictions + i in
  kx ← keypoints_data !! base_idx;
  ky ← keypoints_data !! (base_idx + num_predictions);
  ks ← keypoints_data !! (base_idx + num_predictions * 2);
  Some (mkKeypoint (kx * xRatio)%Q (ky * yRatio)%Q ks).

(** The body of [for (let i = 0; i < num_predictions; i++)]: [results]
    after the iteration for anchor [i].  A read outside an array makes the
    step [None]: the code reads [undefined] there and goes on, which
    [Unchecked] below follows; this definition is the loop on buffers that
    hold what it reads. *)
Definition decode_step (results : list Detection) (i : nat)
  : option (list Detection) :=
  score ← bbox_data !! (i + num_predictions * 4);
  if Qle_bool score (score_threshold cfg) then Some results
  else
    cx ← bbox_data !! i;
    w ← bbox_data !! (i + num_predictions * 2);
    cy ← bbox_data !! (i + num_predictions);
    h ← bbox_data !! (i + num_predictions * 3);
    let x := ((cx - 0.5 * w) * xRatio)%Q in
    let y := ((cy - 0.5 * h) * yRatio)%Q in
    let w' := (w * xRatio)%Q in
    let h' := (h * yRatio)%Q in
    keypoints ← mapM (decode_keypoint i) (seq 0 NUM_KEYPOINTS);
    Some (results ++ [mkDetection (x, y, w', h') score keypoints]).

(** A [for] loop over the indices in [l], threading [results]. *)
Fixpoint decode_loop (l : list nat) (results : list Detection)
  : option (list Detection) :=
  match l with
  | [] => Some results
  | i :: l' => results' ← decode_step results i; decode_loop l' results'
  end.

(** [const results = []; for (...) {...}]. *)
Definition decode : option (list Detection) :=
  decode_loop (seq 0 num_predictions) [].
End decoder.

(** ** The decoder, with reads past the end of the buffer *)

(** The same loop, following what JavaScript does for a read past the end
    of a typed array: the value is [undefined], arithmetic on it gives NaN,
    and [undefined <= threshold] is false.  A field is [None] when it is
    [undefined] (a score) or NaN (a coordinate). *)
Module Unchecked.

Record Keypoint : Type := mkKeypoint {
  kp_x : option Q;
  kp_y : option Q;
  kp_score : option Q
}.

Record Detection : Type := mkDetection {
  bbox : option Q * option Q * option Q * option Q;
  score : option Q;
  keypoints : list Keypoint
}.

(** [a - b] and [a * b] where an operand may be [undefined] or NaN. *)
Definition js_sub (a b : option Q) : option Q :=
  a ← a; b ← b; Some (a - b)%Q.
Definition js_mul (a b : option Q) : option Q :=
  a ← a; b ← b; Some (a * b)%Q.

(** [a <= b] where [a] may be [undefined]. *)
Definition js_le (a : option Q) (b : Q) : bool :=
  match a with
  | Some v => Qle_bool v b
  | None => false
  end.

Section decoder.
Local Open Scope nat_scope.

Variable predictions : list Q.
Variable num_predictions : nat.
Variable cfg : config.
Variables xRatio yRatio : Q.

Abbreviation bbox_data := (bbox_data predictions num_predictions).
Abbreviation keypoints_data := (keypoints_data predictions num_predictions).

Definition decode_keypoint (i kp : nat) : Keypoint :=
  let base_idx := kp * KEYPOINT_DIMS * num_predictions + i in
  mkKeypoint
    (js_mul (keypoints_data !! base_idx) (Some xRatio))
    (js_mul (keypoints_data !! (base_idx + num_predictions)) (Some yRatio))
    (keypoints_data !! (base_idx + num_predictions * 2)).

Definition decode_step (results : list Detection) (i : nat) : list Detection :=
  let score := bbox_data !! (i + num_predictions * 4) in
  if js_le score (score_threshold cfg) then results
  else
    let x :=
      js_mul (js_sub (bbox_data !! i)
                     (js_mul (Some 0.5%Q) (bbox_data !! (i + num_predictions * 2))))
             (Some xRatio) in
    let y :=
      js_mul (js_sub (bbox_data !! (i + num_predictions))
                     (js_mul (Some 0.5%Q) (bbox_data !! (i + num_predictions * 3))))
             (Some yRatio) in
    let w := js_mul (bbox_data !! (i + num_predictions * 2)) (Some xRatio) in
    let h := js_mul (bbox_data !! (i + num_predictions * 3)) (Some yRatio) in
    let keypoints := decode_keypoint i <$> seq 0 NUM_KEYPOINTS in
    results ++ [mkDetection (x, y, w, h) score keypoints].

Fixpoint decode_loop (l : list nat) (results : list Detection)
  : list Detection :=
  match l with
  | [] => results
  | i :: l' => decode_loop l' (decode_step results i)
  end.

Definition decode : list Detection :=
  decode_loop (seq 0 num_predictions) [].

End decoder.
End Unchecked.

(** ** Non-maximum suppression *)

(** A value together with the equation that says what it is; the [while]
    loop below needs it to know that [indexes] got shorter. *)
Definition inspect {A : Type} (a : A) : { b : A | a = b } := exist _ a eq_refl.

(** [indexes.sort(compare)].  The language makes the sort stable, and for a
    consistent comparator the result is the sorted permutation in which
    elements that compare equal keep their order: what insertion from the
    right computes.  [compare a b <= 0] leaves [a] in front of [b]. *)
Fixpoint sort_insert (compare : nat -> nat -> Q) (a : nat) (l : list nat)
  : list nat :=
  match l with
  | [] => [a]
  | b :: l' =>
      if Qle_bool (compare a b) 0 then a :: b :: l'
      else b :: sort_insert compare a l'
  end.

Definition js_sort (compare : nat -> nat -> Q) (l : list nat) : list nat :=
  foldr (sort_insert compare) [] l.

Section nms.
Local Open Scope nat_scope.

Variable boxes : list Detection.
Variable scores : list Q.
Variable iou_threshold : Q.

(** [scores[a]] for an index below [scores.length] (every index that is
    sorted is one). *)
Definition score_at (a : nat) : Q := default 0%Q (scores !! a).

(** [(a, b) => scores[b] - scores[a]]. *)
Definition by_score_desc (a b : nat) : Q := (score_at b - score_at a)%Q.

(** The test of the inner loop for one [idx]:
    [calculateIOU(boxes[current].bbox, boxes[idx].bbox) <= iou_threshold].
    [boxes[k]] is [undefined] past the end and [.bbox] then throws:
    [None]. *)
Definition keeps (current idx : nat) : option bool :=
  box1 ← boxes !! current;
  box2 ← boxes !! idx;
  Some (js_le (calculateIOU (bbox box1) (bbox box2)) iou_threshold).

(** [indexes.length = 0; for (const idx of rest) { ... indexes.push(idx) }]:
    the new [indexes]. *)
Fixpoint retain (current : nat) (rest : list nat) : option (list nat) :=
  match rest with
  | [] => Some []
  | idx :: rest' =>
      keep ← keeps current idx;
      indexes ← retain current rest';
      Some (if keep : bool then idx :: indexes else indexes)
  end.

Lemma retain_length current rest indexes :
  retain current rest = Some indexes -> length indexes <= length rest.
Proof.
  revert indexes. induction rest as [|idx rest IH]; intros indexes; simpl.
  - intros [= <-]. simpl. lia.
  - destruct (keeps current idx) as [[]|]; simpl; try discriminate;
      destruct (retain current rest) as [l|]; simpl; try discriminate;
      intros [= <-]; specialize (IH l eq_refl); simpl; lia.
Qed.

(** [while (indexes.length > 0) { ... }] with [picked] as it stands. *)
Equations? nms_while (indexes picked : list nat) : option (list nat)
  by wf (length indexes) lt :=
  nms_while [] picked := Some picked;
  nms_while (current :: rest) picked with inspect (retain current rest) := {
    | exist _ (Some indexes') Hrest => nms_while indexes' (picked ++ [current]);
    | exist _ None _ => None }.
Proof. apply retain_length in Hrest. simpl. lia. Qed.

End nms.

(** [function applyNMS(boxes, scores, iou_threshold = 0.35)]: the third
    argument may be missing ([None]), and is 0.35 then.  The result is
    [None] when the call throws. *)
Definition applyNMS (boxes : list Detection) (scores : list Q)
    (iou_threshold : option Q) : option (list nat) :=
  let iou_threshold := default 0.35%Q iou_threshold in
  let indexes := seq 0 (length scores) in
  let indexes := js_sort (by_score_desc scores) indexes in
  nms_while boxes iou_threshold indexes [].

(** The end of [inference_pipeline]:
    [applyNMS(results, results.map((r) => r.score), config.iou_threshold)]
    is the specification's [suppress], and
    [selected_indices.map((i) => results[i])] gathers the detections (an
    index past the end would give [undefined]: [None]). *)
Definition suppress (results : list Detection) (iou_threshold : Q)
  : option (list nat) :=
  applyNMS results (score <$> results) (Some iou_threshold).

Definition select (results : list Detection) (selected_indices : list nat)
  : option (list Detection) :=
  mapM (fun i => results !! i) selected_indices.

Definition postprocess (predictions : list Q) (num_predictions : nat)
    (cfg : config) (xRatio yRatio : Q) : option (list Detection) :=
  results ← decode predictions num_predictions cfg xRatio yRatio;
  selected_indices ← suppress results (iou_threshold cfg);
  select results selected_indices.

(** ** The sizes and the ratios at the start of [inference_pipeline] *)

(** [preProcess_dynamic(mat)], as far as sizes go: from [mat.cols] and
    [mat.rows] to [div_width] and [div_height] (the blob of these sizes is
    OpenCV's work). *)
Definition preProcess_dynamic (cols rows : Z) : Z * Z :=
  divStride 32 cols rows.

(** [const xRatio = src_mat.cols / div_width] and
    [const yRatio = src_mat.rows / div_height].  [None]: a ratio is not a
    number, because a processed size is zero. *)
Definition pipeline_ratios (cols rows : Z) : option (Q * Q) :=
  let '(div_width, div_height) := preProcess_dynamic cols rows in
  xRatio ← js_div (inject_Z cols) (inject_Z div_width);
  yRatio ← js_div (inject_Z rows) (inject_Z div_height);
  Some (xRatio, yRatio).

(** [inference_pipeline] from the size of the source image and the output
    of the model ([output0.data], [output0.dims[2]]) to
    [filtered_results].  [None]: a ratio is not a number or a read misses
    the buffer; the code goes on with [Infinity], NaN or [undefined] there,
    which this definition does not follow. *)
Definition inference_pipeline (cols rows : Z) (output0_data : list Q)
    (num_predictions : nat) (cfg : config) : option (list Detection) :=
  ratios ← pipeline_ratios cols rows;
  postprocess output0_data num_predictions cfg ratios.1 ratios.2.

(** ** Drawing: [draw_bounding_boxes] *)

(** What the code does to the 2d context of the overlay canvas: the
    properties it assigns and the drawing methods it calls, in order
    ([measureText] draws nothing: it is a function below). *)
Module Canvas.
Inductive call : Type :=
| set_lineWidth (value : Q)
| set_strokeStyle (value : string)
| set_fillStyle (value : string)
| set_font (value : string)
| clearRect (x y w h : Q)
| strokeRect (x y w h : Q)
| fillRect (x y w h : Q)
| fillText (text : string) (x y : Q)
| beginPath
| moveTo (x y : Q)
| lineTo (x y : Q)
| stroke
| arc (x y radius startAngle endAngle : Q)
| fill.
End Canvas.

(** [const SKELETON = [...]]. *)
Definition SKELETON : list (nat * nat) :=
  [ (15, 13); (13, 11); (16, 14); (14, 12);
    (11, 12);
    (5, 11); (6, 12);
    (5, 6);
    (5, 7); (6, 8); (7, 9); (8, 10);
    (1, 2); (0, 1); (0, 2); (1, 3); (2, 4);
    (3, 5); (4, 6) ]%nat.

(** [Math.PI]: the double 3.141592653589793, which is this fraction. *)
Definition Math_PI : Q := 884279719003555 # 281474976710656.

(** [a > b] and [a < b] on numbers. *)
Definition js_gt (a b : Q) : bool := negb (Qle_bool a b).
Definition js_lt (a b : Q) : bool := negb (Qle_bool b a).

(** [parseInt(string, 10)]: leading white space, an optional sign, then the
    longest run of decimal digits; [None] is NaN (no digit). *)
Definition is_white_space (c : Ascii.ascii) : bool :=
  let n := Ascii.nat_of_ascii c in
  (Nat.leb 9 n && Nat.leb n 13) || Nat.eqb n 32.
Definition is_digit (c : Ascii.ascii) : bool :=
  let n := Ascii.nat_of_ascii c in Nat.leb 48 n && Nat.leb n 57.

Fixpoint trim_start (s : string) : string :=
  match s with
  | String c s' => if is_white_space c then trim_start s' else s
  | EmptyString => s
  end.

Fixpoint digits_value (s : string) (value : option Z) : option Z :=
  match s with
  | String c s' =>
      if is_digit c
      then digits_value s'
             (Some (10 * default 0%Z value + (Z.of_nat (Ascii.nat_of_ascii c) - 48))%Z)
      else value
  | EmptyString => value
  end.

Definition parseInt10 (s : string) : option Z :=
  match trim_start s with
  | String c s' =>
      if Nat.eqb (Ascii.nat_of_ascii c) 45 then Z.opp <$> digits_value s' None
      else if Nat.eqb (Ascii.nat_of_ascii c) 43 then digits_value s' None
      else digits_value (String c s') None
  | EmptyString => None
  end.

(** [list.forEach(f)] for an [f] that draws and may throw: the calls made,
    or [None] when a call of [f] throws. *)
Fixpoint for_each {A : Type} (f : A -> option (list Canvas.call)) (l : list A)
  : option (list Canvas.call) :=
  match l with
  | [] => Some []
  | a :: l' =>
      calls ← f a;
      calls' ← for_each f l';
      Some (calls ++ calls')
  end.

Section drawing.

(** Library functions whose values this development does not compute:
    [Math.sqrt], [ctx.measureText(text).width] for the font in force, and
    [number.toFixed(digits)]. *)
Variable Math_sqrt : Q -> Q.
Variable measureText_width : string -> string -> Q.
Variable toFixed : Q -> nat -> string.

(** The body of [SKELETON.forEach(([i, j]) => {...})].  [keypoints[i]] may
    be [undefined]; reading [.score] of it throws.  [&&] evaluates
    [kp2.score] only when [kp1.score > 0.5]. *)
Definition draw_connection (keypoints : list Keypoint) (edge : nat * nat)
  : option (list Canvas.call) :=
  let '(i, j) := edge in
  let kp1 := keypoints !! i in
  let kp2 := keypoints !! j in
  kp1 ← kp1;
  if js_gt (kp_score kp1) 0.5 then
    kp2 ← kp2;
    if js_gt (kp_score kp2) 0.5 then
      Some [Canvas.beginPath;
            Canvas.moveTo (kp_x kp1) (kp_y kp1);
            Canvas.lineTo (kp_x kp2) (kp_y kp2);
            Canvas.stroke]
    else Some []
  else Some [].

(** The body of [keypoints.forEach((keypoint) => {...})]. *)
Definition draw_keypoint (keypoint : Keypoint) : list Canvas.call :=
  let x := kp_x keypoint in
  let y := kp_y keypoint in
  let score := kp_score keypoint in
  if js_lt score 0.5 then []
  else [Canvas.beginPath;
        Canvas.arc x y 3 0 (2 * Math_PI);
        Canvas.set_fillStyle "red";
        Canvas.fill].

(** The body of [predictions.forEach((predict) => {...})].  [ctx.font]
    reads back the font just assigned.  [None]: a keypoint is missing and
    the code throws (or the font has no leading digits and the text height
    is NaN, which the font of this code excludes). *)
Definition draw_prediction (lineWidth : Q) (predict : Detection)
  : option (list Canvas.call) :=
  let '(x1, y1, width, height) := bbox predict in
  let font := "16px Arial" in
  let text := "score " +:+ toFixed (score predict) 2 in
  let textWidth := measureText_width font text in
  textHeight ← inject_Z <$> parseInt10 font;
  let textY := (y1 - 5)%Q in
  let rectY := (y1 - textHeight - 4)%Q in
  let '(textY, rectY) :=
    if js_lt rectY 0 then ((y1 + textHeight + 5)%Q, (y1 + 1)%Q)
    else (textY, rectY) in
  let keypoints := keypoints predict in
  connections ← for_each (draw_connection keypoints) SKELETON;
  Some ([Canvas.set_lineWidth lineWidth;
         Canvas.set_strokeStyle "green";
         Canvas.strokeRect x1 y1 width height;
         Canvas.set_fillStyle "green";
         Canvas.set_font font;
         Canvas.fillRect (x1 - 1) rectY (textWidth + 4) (textHeight + 4);
         Canvas.set_fillStyle "white";
         Canvas.fillText text x1 textY;
         Canvas.set_strokeStyle "rgb(255, 165, 0)";
         Canvas.set_lineWidth 2]
        ++ connections
        ++ concat (draw_keypoint <$> keypoints)).

(** [export async function draw_bounding_boxes(predictions, overlay_el)],
    with [overlay_el.width] and [overlay_el.height]. *)
Definition draw_bounding_boxes (predictions : list Detection)
    (overlay_width overlay_height : Q) : option (list Canvas.call) :=
  let diagonalLength :=
    Math_sqrt (overlay_width ^ 2 + overlay_height ^ 2)%Q in
  let lineWidth := (diagonalLength / 250)%Q in
  calls ← for_each (draw_prediction lineWidth) predictions;
  Some (Canvas.clearRect 0 0 overlay_width overlay_height :: calls).

End drawing.

(** ** Vocabulary of the properties *)

(** The early return of [calculateIOU]: the intersection rectangle has a
    non-positive width or height. *)
Definition no_overlap (box1 box2 : Box) : Prop :=
  let '(x1, y1, w1, h1) := box1 in
  let '(x2, y2, w2, h2) := box2 in
  (Qmin (x1 + w1) (x2 + w2) <= Qmax x1 x2 \/
   Qmin (y1 + h1) (y2 + h2) <= Qmax y1 y2)%Q.

(** The tensor has shape [[1, C, N]], row-major: the value of channel [c]
    for anchor [i] (zero stands for a value the buffer does not hold). *)
Definition channel (predictions : list Q) (num_predictions : nat) (c i : nat)
  : Q :=
  default 0%Q (predictions !! (c * num_predictions + i)%nat).

(** The number of channels, [5 + 3 * K]. *)
Definition NUM_CHANNELS : nat := NUM_BBOX_ATTRS + KEYPOINT_DIMS * NUM_KEYPOINTS.

Section expected.
Variable predictions : list Q.
Variable num_predictions : nat.
Variable cfg : config.
Variables xRatio yRatio : Q.

(** Keypoint [kp] of anchor [i], from channels [5 + 3 * kp ..]. *)
Definition keypoint_of (i kp : nat) : Keypoint :=
  mkKeypoint
    (channel predictions num_predictions (5 + 3 * kp) i * xRatio)%Q
    (channel predictions num_predictions (5 + 3 * kp + 1) i * yRatio)%Q
    (channel predictions num_predictions (5 + 3 * kp + 2) i).

(** The detection of anchor [i]. *)
Definition detection_of (i : nat) : Detection :=
  mkDetection
    (((channel predictions num_predictions 0 i
       - 0.5 * channel predictions num_predictions 2 i) * xRatio)%Q,
     ((channel predictions num_predictions 1 i
       - 0.5 * channel predictions num_predictions 3 i) * yRatio)%Q,
     (channel predictions num_predictions 2 i * xRatio)%Q,
     (channel predictions num_predictions 3 i * yRatio)%Q)
    (channel predictions num_predictions 4 i)
    (keypoint_of i <$> seq 0 NUM_KEYPOINTS).

(** Anchor [i] is not skipped: the test [score <= config.score_threshold]
    is false for it. *)
Definition kept (i : nat) : Prop :=
  Qle_bool (channel predictions num_predictions 4 i) (score_threshold cfg)
  = false.

#[export] Instance kept_dec (i : nat) : Decision (kept i).
Proof. unfold kept. apply _. Defined.
End expected.

(** [calculateIOU(detections[current].bbox, detections[idx].bbox)] is a
    number that is at most [iou_threshold]. *)
Definition iou_within (detections : list Detection) (iou_threshold : Q)
    (current idx : nat) : Prop :=
  exists box1 box2 iou,
    detections !! current = Some box1 /\
    detections !! idx = Some box2 /\
    calculateIOU (bbox box1) (bbox box2) = Some iou /\
    (iou <= iou_threshold)%Q.

#[export] Instance iou_within_dec detections iou_threshold current idx :
  Decision (iou_within detections iou_threshold current idx).
Proof.
  unfold iou_within.
  destruct (detections !! current) as [box1 |] eqn:E1;
    [| right; intros (? & ? & ? & [=] & _)].
  destruct (detections !! idx) as [box2 |] eqn:E2;
    [| right; intros (? & ? & ? & _ & [=] & _)].
  destruct (calculateIOU (bbox box1) (bbox box2)) as [iou |] eqn:E3;
    [| right; intros (? & ? & ? & [= <-] & [= <-] & H & _); congruence].
  destruct (Qlt_le_dec iou_threshold iou) as [Hlt | Hle].
  - right. intros (? & ? & ? & [= <-] & [= <-] & H & Hle).
    rewrite E3 in H. injection H as <-. exact (Qlt_not_le _ _ Hlt Hle).
  - left. eauto 10.
Defined.

(** The score of detection [i] (zero when there is none). *)
Definition score_of (detections : list Detection) (i : nat) : Q :=
  default 0%Q (score <$> detections !! i).

(** The suppression rounds as the specification words them, from the
    remaining indices to the kept ones: the index moved to the kept list
    has the highest score among the remaining ones, and exactly the
    remaining indices whose IoU with it is at most the threshold stay. *)
Inductive greedy_rounds (detections : list Detection) (iou_threshold : Q)
  : list nat -> list nat -> Prop :=
| greedy_done : greedy_rounds detections iou_threshold [] []
| greedy_pick current rest kept_indices :
    Forall (fun idx =>
              (score_of detections idx <= score_of detections current)%Q) rest ->
    greedy_rounds detections iou_threshold
      (filter (iou_within detections iou_threshold current) rest) kept_indices ->
    greedy_rounds detections iou_threshold (current :: rest)
      (current :: kept_indices).

(** The rounds of the [while] loop of [applyNMS], whatever the order of
    [indexes]: the first index is picked, the ones that pass the test stay. *)
Inductive nms_rounds (detections : list Detection) (iou_threshold : Q)
  : list nat -> list nat -> Prop :=
| rounds_done : nms_rounds detections iou_threshold [] []
| rounds_pick current rest picked :
    nms_rounds detections iou_threshold
      (filter (iou_within detections iou_threshold current) rest) picked ->
    nms_rounds detections iou_threshold (current :: rest) (current :: picked).

(** [a] may stand in front of [b] for the comparator [compare]. *)
Definition in_order (compare : nat -> nat -> Q) (a b : nat) : Prop :=
  (compare a b <= 0)%Q.

(** The indices as [applyNMS] sorts them when it is called on [detections]
    and their scores. *)
Definition sorted_indexes (detections : list Detection) : list nat :=
  js_sort (by_score_desc (score <$> detections))
    (seq 0 (length (score <$> detections))).

(** The value of [calculateIOU] from the width [dx] and height [dy] of the
    intersection rectangle and the two areas. *)
Definition iou_of_extent (dx dy area1 area2 : Q) : option Q :=
  if Qle_bool dx 0 || Qle_bool dy 0 then Some 0%Q
  else js_div (dx * dy)%Q (area1 + area2 - dx * dy)%Q.

(** [box] moved by [(tx, ty)], and [box] with its horizontal coordinates
    multiplied by [kx] and its vertical ones by [ky]. *)
Definition translate_box (tx ty : Q) (box : Box) : Box :=
  let '(x, y, w, h) := box in ((x + tx)%Q, (y + ty)%Q, w, h).
Definition scale_box (kx ky : Q) (box : Box) : Box :=
  let '(x, y, w, h) := box in ((kx * x)%Q, (ky * y)%Q, (kx * w)%Q, (ky * h)%Q).

(** Index [a] is ranked before index [b]: its score is at least as high,
    and on equal scores it is the lower index. *)
Definition ranked_before (detections : list Detection) (a b : nat) : Prop :=
  (score_of detections b <= score_of detections a)%Q /\
  ((score_of detections a <= score_of detections b)%Q -> (a < b)%nat).

(** The width and the height of a detection's box are not negative. *)
Definition nonneg_size (d : Detection) : Prop :=
  let '(x, y, w, h) := bbox d in (0 <= w)%Q /\ (0 <= h)%Q.

(** The line segments and the dots of a list of calls: a segment for a
    [lineTo] that follows a [moveTo], a dot for the centre of an [arc]. *)
Fixpoint segments (calls : list Canvas.call) : list (Q * Q * Q * Q) :=
  match calls with
  | Canvas.moveTo x1 y1 :: ((Canvas.lineTo x2 y2 :: calls') as rest) =>
      (x1, y1, x2, y2) :: segments calls'
  | _ :: rest => segments rest
  | [] => []
  end.

Definition dot_of (c : Canvas.call) : option (Q * Q) :=
  match c with
  | Canvas.arc x y _ _ _ => Some (x, y)
  | _ => None
  end.
Definition dots (calls : list Canvas.call) : list (Q * Q) := omap dot_of calls.

(** The rectangles filled, the rectangles outlined and the texts written. *)
Definition filled_rect_of (c : Canvas.call) : option (Q * Q * Q * Q) :=
  match c with
  | Canvas.fillRect x y w h => Some (x, y, w, h)
  | _ => None
  end.
Definition stroked_rect_of (c : Canvas.call) : option Box :=
  match c with
  | Canvas.strokeRect x y w h => Some (x, y, w, h)
  | _ => None
  end.
Definition text_of (c : Canvas.call) : option (string * Q * Q) :=
  match c with
  | Canvas.fillText text x y => Some (text, x, y)
  | _ => None
  end.

(** A detection whose fields are all numbers, among those of [Unchecked]. *)
Definition of_keypoint (k : Keypoint) : Unchecked.Keypoint :=
  Unchecked.mkKeypoint (Some (kp_x k)) (Some (kp_y k)) (Some (kp_score k)).
Definition of_detection (d : Detection) : Unchecked.Detection :=
  let '(x, y, w, h) := bbox d in
  Unchecked.mkDetection (Some x, Some y, Some w, Some h) (Some (score d))
    (of_keypoint <$> keypoints d).

(** What a prediction contributes to the drawing: the segment of an edge
    of the skeleton, and the dot of a keypoint. *)
Definition segment_of (keypoints : list Keypoint) (edge : nat * nat)
  : option (Q * Q * Q * Q) :=
  kp1 ← keypoints !! edge.1;
  kp2 ← keypoints !! edge.2;
  if js_gt (kp_score kp1) 0.5 && js_gt (kp_score kp2) 0.5
  then Some (kp_x kp1, kp_y kp1, kp_x kp2, kp_y kp2) else None.

Definition dot_at (keypoint : Keypoint) : option (Q * Q) :=
  if js_lt (kp_score keypoint) 0.5 then None
  else Some (kp_x keypoint, kp_y keypoint).

(* ===================================================================== *)
(** * Part II: properties                                                 *)
(* ===================================================================== *)

Section list_facts.
Context {A : Type}.

Lemma Forall_sublist (P : A -> Prop) (l1 l2 : list A) :
  l1 `sublist_of` l2 -> Forall P l2 -> Forall P l1.
Proof.
  intros Hsub Hall. rewrite Forall_forall in *. intros x Hx.
  apply Hall. eapply elem_of_sublist; eassumption.
Qed.

Lemma StronglySorted_sublist (R : A -> A -> Prop) (l1 l2 : list A) :
  l1 `sublist_of` l2 -> StronglySorted R l2 -> StronglySorted R l1.
Proof.
  induction 1 as [| x l1 l2 Hsub IH | x l1 l2 Hsub IH]; intros Hs.
  - constructor.
  - apply StronglySorted_inv in Hs as [Hs Hall]. constructor; [auto |].
    apply Forall_forall. intros y Hy. rewrite Forall_forall in Hall.
    apply Hall. eapply elem_of_sublist; eassumption.
  - apply StronglySorted_inv in Hs as [Hs _]. auto.
Qed.

Lemma StronglySorted_impl (R R' : A -> A -> Prop) (l : list A) :
  (forall a b, R a b -> R' a b) -> StronglySorted R l -> StronglySorted R' l.
Proof.
  intros HR. induction 1 as [| x l Hs IH Hall]; constructor; [exact IH |].
  eapply Forall_impl; [exact Hall | apply HR].
Qed.

Lemma StronglySorted_lookup (R : A -> A -> Prop) (l : list A) i j a b :
  StronglySorted R l -> (i < j)%nat -> l !! i = Some a -> l !! j = Some b ->
  R a b.
Proof.
  intros Hs. revert i j. induction Hs as [| x l Hs IH Hall]; intros i j Hij Hi Hj.
  - rewrite lookup_nil in Hi. discriminate.
  - destruct j as [| j]; [lia |]. simpl in Hj.
    destruct i as [| i]; simpl in Hi.
    + injection Hi as ->. rewrite Forall_forall in Hall. apply Hall.
      eapply list_elem_of_lookup_2; eassumption.
    + apply (IH i j); [lia | assumption | assumption].
Qed.

End list_facts.

Lemma StronglySorted_seq_rel (R : nat -> nat -> Prop) (j n : nat) :
  (forall a b, (j <= a)%nat -> (a < b)%nat -> (b < j + n)%nat -> R a b) ->
  StronglySorted R (seq j n).
Proof.
  revert j. induction n as [| n IH]; intros j HR; simpl; constructor.
  - apply IH. intros a b ? ? ?. apply HR; lia.
  - apply Forall_forall. intros k Hk. apply elem_of_seq in Hk. apply HR; lia.
Qed.

Lemma StronglySorted_seq (j n : nat) : StronglySorted lt (seq j n).
Proof.
  revert j. induction n as [| n IH]; intros j; simpl; constructor; [apply IH |].
  apply Forall_forall. intros k Hk. apply elem_of_seq in Hk. lia.
Qed.

Section stride_facts.

(** One dimension of [divStride], as the two components compute it. *)
Lemma divStride_fst stride width height :
  fst (divStride stride width height) =
  if 2 * Z.rem width stride >=? stride
  then (width / stride + 1) * stride else (width / stride) * stride.
Proof. reflexivity. Qed.

Lemma divStride_snd stride width height :
  snd (divStride stride width height) =
  if 2 * Z.rem height stride >=? stride
  then (height / stride + 1) * stride else (height / stride) * stride.
Proof. reflexivity. Qed.

(** The rule for one dimension, on a non-negative input. *)
Lemma round_rule stride v :
  0 < stride -> 0 <= v ->
  (if 2 * Z.rem v stride >=? stride
   then (v / stride + 1) * stride else (v / stride) * stride) =
  (if decide (stride <= 2 * (v mod stride))
   then v - v mod stride + stride else v - v mod stride).
Proof.
  intros Hs Hv.
  rewrite Z.rem_mod_nonneg by lia.
  pose proof (Z.div_mod v stride ltac:(lia)) as Hdm.
  destruct (Z.geb_spec (2 * (v mod stride)) stride); case_decide; lia.
Qed.

(** What one dimension is, in terms of quotient and remainder. *)
Lemma round_multiple stride v :
  0 < stride -> 0 <= v ->
  exists k, 0 <= k /\
    (if 2 * Z.rem v stride >=? stride
     then (v / stride + 1) * stride else (v / stride) * stride) = k * stride.
Proof.
  intros Hs Hv.
  pose proof (Z.div_pos v stride Hv Hs).
  destruct (2 * Z.rem v stride >=? stride);
    [exists (v / stride + 1) | exists (v / stride)]; split; (reflexivity || lia).
Qed.

Lemma round_ge_stride_iff stride v :
  0 < stride -> 0 <= v ->
  (stride <=
   (if 2 * Z.rem v stride >=? stride
    then (v / stride + 1) * stride else (v / stride) * stride))
  <-> stride <= 2 * v.
Proof.
  intros Hs Hv.
  rewrite Z.rem_mod_nonneg by lia.
  pose proof (Z.div_mod v stride ltac:(lia)) as Hdm.
  pose proof (Z.mod_pos_bound v stride Hs) as Hm.
  pose proof (Z.div_pos v stride Hv Hs) as Hq.
  generalize dependent (v / stride). generalize dependent (v mod stride).
  intros r Hr q Hdm Hq. subst v.
  destruct (Z.geb_spec (2 * r) stride);
    destruct (Z.eq_dec q 0) as [-> | Hq0]; split; intros; nia.
Qed.

Lemma round_zero_iff stride v :
  0 < stride -> 0 <= v ->
  (if 2 * Z.rem v stride >=? stride
   then (v / stride + 1) * stride else (v / stride) * stride) = 0
  <-> 2 * v < stride.
Proof.
  intros Hs Hv.
  rewrite Z.rem_mod_nonneg by lia.
  pose proof (Z.div_mod v stride ltac:(lia)) as Hdm.
  pose proof (Z.mod_pos_bound v stride Hs) as Hm.
  pose proof (Z.div_pos v stride Hv Hs) as Hq.
  generalize dependent (v / stride). generalize dependent (v mod stride).
  intros r Hr q Hdm Hq. subst v.
  destruct (Z.geb_spec (2 * r) stride);
    destruct (Z.eq_dec q 0) as [-> | Hq0]; split; intros; nia.
Qed.

Lemma round_nearest stride v :
  0 < stride -> 0 <= v ->
  2 * Z.abs
    ((if 2 * Z.rem v stride >=? stride
      then (v / stride + 1) * stride else (v / stride) * stride) - v)
  <= stride.
Proof.
  intros Hs Hv.
  rewrite Z.rem_mod_nonneg by lia.
  pose proof (Z.div_mod v stride ltac:(lia)) as Hdm.
  pose proof (Z.mod_pos_bound v stride Hs) as Hm.
  destruct (Z.geb_spec (2 * (v mod stride)) stride); lia.
Qed.

(** C4, as the specification states it, fails: nothing clamps the result
    at [stride].  A dimension below half the stride is rounded down to
    zero: [divStride(32, 10, 10)] is [[0, 0]], so "every returned dimension
    of a positive input is a positive multiple of the stride, at least the
    stride" is false. *)
Lemma divStride_positive_counterexample :
  divStride 32 10 10 = (0, 0) /\
  ~ (forall stride width height,
        0 < stride -> 0 < width -> 0 < height ->
        let (width', height') := divStride stride width height in
        (0 < width' /\ (stride | width') /\ stride <= width') /\
        (0 < height' /\ (stride | height') /\ stride <= height')).
Proof.
  split; [reflexivity |].
  intros H. specialize (H 32 10 10 ltac:(lia) ltac:(lia) ltac:(lia)).
  cbv in H. destruct H as [[H _] _]. discriminate H.
Qed.

(** C4, amended: for a positive stride and positive width and height, each
    returned dimension is a non-negative multiple of the stride; it is at
    least the stride exactly when the input dimension is at least half the
    stride, and it is zero exactly when the input dimension is below half
    the stride. *)
Theorem divStride_multiple_of_stride stride width height :
  0 < stride -> 0 < width -> 0 < height ->
  let (width', height') := divStride stride width height in
  ((exists k, 0 <= k /\ width' = k * stride) /\
   (stride <= width' <-> stride <= 2 * width) /\
   (width' = 0 <-> 2 * width < stride)) /\
  ((exists k, 0 <= k /\ height' = k * stride) /\
   (stride <= height' <-> stride <= 2 * height) /\
   (height' = 0 <-> 2 * height < stride)).
Proof.
  intros Hs Hw Hh. unfold divStride.
  repeat split;
    first [ apply round_multiple; lia
          | apply round_ge_stride_iff; lia
          | apply round_zero_iff; lia ].
Qed.

Lemma divStride_multiple_of_stride_witness :
  let (width', height') := divStride 32 70 10 in
  ((exists k, 0 <= k /\ width' = k * 32) /\
   (32 <= width' <-> 32 <= 2 * 70) /\
   (width' = 0 <-> 2 * 70 < 32)) /\
  ((exists k, 0 <= k /\ height' = k * 32) /\
   (32 <= height' <-> 32 <= 2 * 10) /\
   (height' = 0 <-> 2 * 10 < 32)).
Proof.
  apply (divStride_multiple_of_stride 32 70 10); lia.
Defined.

(** C9: each dimension is rounded to a multiple of the stride, up exactly
    when the remainder modulo the stride is at least half the stride and
    down otherwise (so the result is a nearest multiple); and
    [divStride(32, 70, 100)] is [[64, 96]], [divStride(32, 80, 100)] is
    [[96, 96]]. *)
Theorem divStride_rounding_rule stride width height :
  0 < stride -> 0 <= width -> 0 <= height ->
  (fst (divStride stride width height) =
     (if decide (stride <= 2 * (width mod stride))
      then width - width mod stride + stride else width - width mod stride) /\
   snd (divStride stride width height) =
     (if decide (stride <= 2 * (height mod stride))
      then height - height mod stride + stride
      else height - height mod stride)) /\
  (2 * Z.abs (fst (divStride stride width height) - width) <= stride /\
   2 * Z.abs (snd (divStride stride width height) - height) <= stride) /\
  divStride 32 70 100 = (64, 96) /\
  divStride 32 80 100 = (96, 96).
Proof.
  intros Hs Hw Hh. rewrite divStride_fst, divStride_snd.
  repeat split;
    first [ apply round_rule; lia | apply round_nearest; lia ].
Qed.

Lemma divStride_rounding_rule_witness :
  (fst (divStride 32 80 100) =
     (if decide (32 <= 2 * (80 mod 32))
      then 80 - 80 mod 32 + 32 else 80 - 80 mod 32) /\
   snd (divStride 32 80 100) =
     (if decide (32 <= 2 * (100 mod 32))
      then 100 - 100 mod 32 + 32 else 100 - 100 mod 32)) /\
  (2 * Z.abs (fst (divStride 32 80 100) - 80) <= 32 /\
   2 * Z.abs (snd (divStride 32 80 100) - 100) <= 32) /\
  divStride 32 70 100 = (64, 96) /\
  divStride 32 80 100 = (96, 96).
Proof.
  apply (divStride_rounding_rule 32 80 100); lia.
Defined.

End stride_facts.

Section iou_facts.
Local Open Scope Q_scope.

Lemma Qle_bool_false (a b : Q) : Qle_bool a b = false <-> b < a.
Proof.
  split; intros H.
  - apply Qnot_le_lt. intros Hle. apply Qle_bool_iff in Hle. congruence.
  - destruct (Qle_bool a b) eqn:E; [| reflexivity].
    apply Qle_bool_iff in E. exfalso. apply (Qlt_not_le _ _ H E).
Qed.

Lemma js_div_Some (a b : Q) : ~ b == 0 -> js_div a b = Some (a / b).
Proof.
  intros Hb. unfold js_div.
  destruct (Qeq_bool b 0) eqn:E; [| reflexivity].
  apply Qeq_bool_iff in E. contradiction.
Qed.

Lemma js_div_None (a b : Q) : b == 0 -> js_div a b = None.
Proof.
  intros Hb. unfold js_div. apply Qeq_bool_iff in Hb. rewrite Hb. reflexivity.
Qed.

Lemma js_div_proper (a a' b b' : Q) :
  a == a' -> b == b' -> option_Forall2 Qeq (js_div a b) (js_div a' b').
Proof.
  intros Ha Hb. unfold js_div.
  assert (Qeq_bool b 0 = Qeq_bool b' 0) as ->.
  { destruct (Qeq_bool b' 0) eqn:E.
    - apply Qeq_bool_iff. apply Qeq_bool_iff in E. rewrite Hb. exact E.
    - destruct (Qeq_bool b 0) eqn:E'; [| reflexivity].
      apply Qeq_bool_iff in E'. rewrite Hb in E'.
      apply Qeq_bool_iff in E'. congruence. }
  destruct (Qeq_bool b' 0); constructor. rewrite Ha, Hb. reflexivity.
Qed.

Lemma calculateIOU_no_overlap box1 box2 :
  no_overlap box1 box2 -> calculateIOU box1 box2 = Some 0.
Proof.
  destruct box1 as [[[x1 y1] w1] h1], box2 as [[[x2 y2] w2] h2].
  unfold no_overlap, calculateIOU. intros [H | H]; apply Qle_bool_iff in H.
  - rewrite H. reflexivity.
  - rewrite H, orb_true_r. reflexivity.
Qed.

Lemma calculateIOU_overlap box1 box2 :
  ~ no_overlap box1 box2 ->
  let '(x1, y1, w1, h1) := box1 in
  let '(x2, y2, w2, h2) := box2 in
  let intersection :=
    (Qmin (x1 + w1) (x2 + w2) - Qmax x1 x2) *
    (Qmin (y1 + h1) (y2 + h2) - Qmax y1 y2) in
  calculateIOU box1 box2 =
  js_div intersection (w1 * h1 + w2 * h2 - intersection).
Proof.
  destruct box1 as [[[x1 y1] w1] h1], box2 as [[[x2 y2] w2] h2].
  unfold no_overlap, calculateIOU. intros H.
  destruct (Qle_bool (Qmin (x1 + w1) (x2 + w2)) (Qmax x1 x2)) eqn:E1.
  { exfalso. apply H. left. apply Qle_bool_iff. exact E1. }
  destruct (Qle_bool (Qmin (y1 + h1) (y2 + h2)) (Qmax y1 y2)) eqn:E2.
  { exfalso. apply H. right. apply Qle_bool_iff. exact E2. }
  reflexivity.
Qed.

(** With non-negative sizes, an intersection of positive width and height
    leaves a positive union: the divisor is never zero. *)
Lemma union_positive (x1 y1 w1 h1 x2 y2 w2 h2 : Q) :
  0 <= w1 -> 0 <= h1 -> 0 <= w2 -> 0 <= h2 ->
  Qmax x1 x2 < Qmin (x1 + w1) (x2 + w2) ->
  Qmax y1 y2 < Qmin (y1 + h1) (y2 + h2) ->
  let intersection :=
    (Qmin (x1 + w1) (x2 + w2) - Qmax x1 x2) *
    (Qmin (y1 + h1) (y2 + h2) - Qmax y1 y2) in
  0 < intersection /\ 0 < w1 * h1 + w2 * h2 - intersection.
Proof.
  intros Hw1 Hh1 Hw2 Hh2 Hx Hy. cbv zeta.
  pose proof (Q.le_max_l x1 x2). pose proof (Q.le_max_r x1 x2).
  pose proof (Q.le_max_l y1 y2). pose proof (Q.le_max_r y1 y2).
  pose proof (Q.le_min_l (x1 + w1) (x2 + w2)).
  pose proof (Q.le_min_r (x1 + w1) (x2 + w2)).
  pose proof (Q.le_min_l (y1 + h1) (y2 + h2)).
  pose proof (Q.le_min_r (y1 + h1) (y2 + h2)).
  set (dx := Qmin (x1 + w1) (x2 + w2) - Qmax x1 x2) in *.
  set (dy := Qmin (y1 + h1) (y2 + h2) - Qmax y1 y2) in *.
  assert (0 < dx) by (unfold dx; lra).
  assert (0 < dy) by (unfold dy; lra).
  assert (dx <= w1) by (unfold dx; lra).
  assert (dy <= h1) by (unfold dy; lra).
  assert (dx <= w2) by (unfold dx; lra).
  assert (dy <= h2) by (unfold dy; lra).
  clearbody dx dy.
  split; nra.
Qed.

Lemma zero_size_no_overlap (x1 y1 w1 h1 x2 y2 w2 h2 : Q) :
  0 <= w1 -> 0 <= h1 -> 0 <= w2 -> 0 <= h2 ->
  w1 * h1 == 0 \/ w2 * h2 == 0 ->
  no_overlap (x1, y1, w1, h1) (x2, y2, w2, h2).
Proof.
  intros Hw1 Hh1 Hw2 Hh2 Hz. unfold no_overlap.
  pose proof (Q.le_max_l x1 x2). pose proof (Q.le_max_r x1 x2).
  pose proof (Q.le_max_l y1 y2). pose proof (Q.le_max_r y1 y2).
  pose proof (Q.le_min_l (x1 + w1) (x2 + w2)).
  pose proof (Q.le_min_r (x1 + w1) (x2 + w2)).
  pose proof (Q.le_min_l (y1 + h1) (y2 + h2)).
  pose proof (Q.le_min_r (y1 + h1) (y2 + h2)).
  destruct Hz as [Hz | Hz]; apply Qmult_integral in Hz; destruct Hz as [Hz | Hz];
    [left | right | left | right]; lra.
Qed.

(** C5, amended: in exact arithmetic, on boxes with non-negative width and
    height, [calculateIOU] never divides by zero (it returns a number); it
    returns 0 whenever the intersection rectangle, from the max of the
    left/top edges and the min of the right/bottom edges, has a non-positive
    width or height; a box of zero area has IoU 0 against every box; and so
    the IoU is 0 when the union of the two boxes is zero.  (The code has no
    check of the divisor: in binary64 the areas can underflow and the
    divisor can round to zero.) *)
Theorem calculateIOU_never_divides_by_zero (x1 y1 w1 h1 x2 y2 w2 h2 : Q) :
  0 <= w1 -> 0 <= h1 -> 0 <= w2 -> 0 <= h2 ->
  let box1 : Box := (x1, y1, w1, h1) in
  let box2 : Box := (x2, y2, w2, h2) in
  is_Some (calculateIOU box1 box2) /\
  (Qmin (x1 + w1) (x2 + w2) - Qmax x1 x2 <= 0 \/
   Qmin (y1 + h1) (y2 + h2) - Qmax y1 y2 <= 0 ->
   calculateIOU box1 box2 = Some 0) /\
  (w1 * h1 == 0 \/ w2 * h2 == 0 -> calculateIOU box1 box2 = Some 0) /\
  (w1 * h1 + w2 * h2 == 0 -> calculateIOU box1 box2 = Some 0).
Proof.
  intros Hw1 Hh1 Hw2 Hh2 box1 box2. split; [| split; [| split]].
  - destruct (Qlt_le_dec (Qmax x1 x2) (Qmin (x1 + w1) (x2 + w2))) as [Hx | Hx];
      [destruct (Qlt_le_dec (Qmax y1 y2) (Qmin (y1 + h1) (y2 + h2))) as [Hy | Hy] |].
    + pose proof (calculateIOU_overlap box1 box2) as Hov. cbv beta iota zeta in Hov.
      unfold box1, box2 in *. rewrite Hov.
      * destruct (union_positive x1 y1 w1 h1 x2 y2 w2 h2) as [_ Hu]; try assumption.
        cbv zeta in Hu. rewrite js_div_Some; [eexists; reflexivity |].
        intros Hz. rewrite Hz in Hu. apply (Qlt_irrefl 0 Hu).
      * unfold no_overlap. intros [Hn | Hn]; lra.
    + rewrite calculateIOU_no_overlap; [eexists; reflexivity |]. right. exact Hy.
    + rewrite calculateIOU_no_overlap; [eexists; reflexivity |]. left. exact Hx.
  - intros Hn. apply calculateIOU_no_overlap. destruct Hn; [left | right]; lra.
  - intros Hz. apply calculateIOU_no_overlap.
    apply zero_size_no_overlap; assumption.
  - intros Hz. apply calculateIOU_no_overlap.
    apply zero_size_no_overlap; try assumption.
    left. assert (0 <= w1 * h1) by nra. assert (0 <= w2 * h2) by nra. lra.
Qed.

Lemma calculateIOU_never_divides_by_zero_witness :
  is_Some (calculateIOU (10, 10, 50, 50) (15, 15, 50, 50)) /\
  calculateIOU (10, 10, 50, 50) (60, 10, 50, 50) = Some 0 /\
  calculateIOU (3, 3, 0, 5) (0, 0, 10, 10) = Some 0.
Proof.
  split; [| split].
  - apply (calculateIOU_never_divides_by_zero 10 10 50 50 15 15 50 50);
      vm_compute; discriminate.
  - destruct (calculateIOU_never_divides_by_zero 10 10 50 50 60 10 50 50)
      as (_ & H & _); try (vm_compute; discriminate).
    apply H. left. vm_compute. discriminate.
  - destruct (calculateIOU_never_divides_by_zero 3 3 0 5 0 0 10 10)
      as (_ & _ & H & _); try (vm_compute; discriminate).
    apply H. left. reflexivity.
Defined.

Lemma calculateIOU_symmetric box1 box2 :
  option_Forall2 Qeq (calculateIOU box1 box2) (calculateIOU box2 box1).
Proof.
  destruct box1 as [[[x1 y1] w1] h1], box2 as [[[x2 y2] w2] h2].
  unfold calculateIOU.
  assert (Hx : Qle_bool (Qmin (x1 + w1) (x2 + w2)) (Qmax x1 x2) =
               Qle_bool (Qmin (x2 + w2) (x1 + w1)) (Qmax x2 x1))
    by (apply Qleb_comp; [apply Q.min_comm | apply Q.max_comm]).
  assert (Hy : Qle_bool (Qmin (y1 + h1) (y2 + h2)) (Qmax y1 y2) =
               Qle_bool (Qmin (y2 + h2) (y1 + h1)) (Qmax y2 y1))
    by (apply Qleb_comp; [apply Q.min_comm | apply Q.max_comm]).
  rewrite Hx, Hy.
  destruct (_ || _); [constructor; reflexivity |].
  apply js_div_proper.
  - rewrite (Q.min_comm (x2 + w2)), (Q.max_comm x2), (Q.min_comm (y2 + h2)),
      (Q.max_comm y2). reflexivity.
  - rewrite (Q.min_comm (x2 + w2)), (Q.max_comm x2), (Q.min_comm (y2 + h2)),
      (Q.max_comm y2). ring.
Qed.

Lemma calculateIOU_self (x y w h : Q) :
  0 < w -> 0 < h ->
  exists iou, calculateIOU (x, y, w, h) (x, y, w, h) = Some iou /\ iou == 1.
Proof.
  intros Hw Hh.
  pose proof (calculateIOU_overlap (x, y, w, h) (x, y, w, h)) as Hov.
  cbv beta iota zeta in Hov. rewrite Hov; clear Hov.
  - assert (Hi : (Qmin (x + w) (x + w) - Qmax x x) *
                 (Qmin (y + h) (y + h) - Qmax y y) == w * h).
    { rewrite !Q.min_id, !Q.max_id. ring. }
    assert (Hp : 0 < w * h) by nra.
    rewrite js_div_Some by (rewrite Hi; lra).
    eexists; split; [reflexivity |].
    rewrite Hi. field. lra.
  - unfold no_overlap. rewrite !Q.min_id, !Q.max_id. intros [H | H]; lra.
Qed.

End iou_facts.

Section binary64_facts.
Import Floats.PrimFloat Floats.SpecFloat Floats.FloatOps Floats.FloatAxioms.
Local Open Scope float_scope.

Lemma float_add_comm (x y : float) : x + y = y + x.
Proof.
  apply Prim2SF_inj. rewrite !add_spec. unfold SF64add.
  destruct (Prim2SF x) as [sx | sx | | sx mx ex],
           (Prim2SF y) as [sy | sy | | sy my ey];
    try reflexivity; try (destruct sx, sy; reflexivity).
  unfold SFadd. rewrite Z.min_comm, Z.add_comm. reflexivity.
Qed.

Lemma float_ltb_asym (a b : float) : (a <? b) = true -> (b <? a) = false.
Proof.
  rewrite !ltb_spec. unfold SFltb, SFcompare.
  destruct (Prim2SF a) as [sa | sa | | sa ma ea],
           (Prim2SF b) as [sb | sb | | sb mb eb];
    try discriminate; try reflexivity;
    try (destruct sa; discriminate || reflexivity);
    try (destruct sb; discriminate || reflexivity).
  - destruct sa, sb; discriminate || reflexivity.
  - assert (Pos.compare_cont Eq mb ma = CompOpp (Pos.compare_cont Eq ma mb)) as ->
      by (symmetry; apply (Pos.compare_cont_antisym ma mb Eq)).
    rewrite (Z.compare_antisym ea eb).
    destruct sa, sb; try discriminate; try reflexivity;
      destruct (ea ?= eb)%Z; simpl; try discriminate; try reflexivity;
      destruct (Pos.compare_cont Eq ma mb); simpl; discriminate || reflexivity.
Qed.

Lemma finite_not_below (sa sb : bool) (ma mb : positive) (ea eb : Z) :
  SFltb (S754_finite sa ma ea) (S754_finite sb mb eb) = false ->
  SFltb (S754_finite sb mb eb) (S754_finite sa ma ea) = false ->
  sa = sb /\ ma = mb /\ ea = eb.
Proof.
  unfold SFltb, SFcompare.
  assert (Pos.compare_cont Eq mb ma = CompOpp (Pos.compare_cont Eq ma mb)) as ->
    by (symmetry; apply (Pos.compare_cont_antisym ma mb Eq)).
  rewrite (Z.compare_antisym ea eb).
  destruct sa, sb; try discriminate;
    destruct (Z.compare_spec ea eb) as [-> | |]; simpl; try discriminate;
    destruct (Pos.compare_cont Eq ma mb) eqn:Ec; simpl; try discriminate;
    apply Pos.compare_eq in Ec; subst; auto.
Qed.

(** Two numbers neither of which is below the other are the same double,
    or both are zeros. *)
Lemma float_not_below (a b : float) :
  is_nan a = false -> is_nan b = false ->
  (a <? b) = false -> (b <? a) = false ->
  a = b \/ exists sa sb, Prim2SF a = S754_zero sa /\ Prim2SF b = S754_zero sb.
Proof.
  unfold is_nan. rewrite !eqb_spec, !ltb_spec.
  intros Ha Hb Hab Hba.
  destruct (Prim2SF a) as [sa | sa | | sa ma ea] eqn:Ea,
           (Prim2SF b) as [sb | sb | | sb mb eb] eqn:Eb;
    try discriminate;
    try (right; eauto; fail);
    try (destruct sa; discriminate); try (destruct sb; discriminate).
  - left. destruct sa, sb; try discriminate; apply Prim2SF_inj; congruence.
  - left. destruct (finite_not_below _ _ _ _ _ _ Hab Hba) as (-> & -> & ->).
    apply Prim2SF_inj. congruence.
Qed.

Lemma float_zero_sign (a : float) (s : bool) :
  Prim2SF a = S754_zero s -> is_zero a = true /\ get_sign a = s.
Proof.
  intros Ha. unfold get_sign, is_zero.
  rewrite eqb_spec, Ha. change (Prim2SF zero) with (S754_zero false).
  split; [reflexivity |]. cbn [SFeqb SFcompare].
  rewrite ltb_spec, div_spec, Ha.
  destruct s; vm_compute; reflexivity.
Qed.

Lemma Math_max_comm (a b : float) :
  Binary64.Math_max a b = Binary64.Math_max b a.
Proof.
  unfold Binary64.Math_max. rewrite (orb_comm (is_nan b)).
  destruct (is_nan a) eqn:Na, (is_nan b) eqn:Nb; simpl; try reflexivity.
  destruct (a <? b) eqn:Hab, (b <? a) eqn:Hba; try reflexivity.
  - apply float_ltb_asym in Hab. congruence.
  - destruct (float_not_below a b Na Nb Hab Hba) as [<- | (sa & sb & Ea & Eb)].
    + destruct (_ && _); reflexivity.
    + destruct (float_zero_sign a sa Ea) as [-> ->].
      destruct (float_zero_sign b sb Eb) as [-> ->].
      destruct sa, sb; simpl; try reflexivity; apply Prim2SF_inj; congruence.
Qed.

Lemma Math_min_comm (a b : float) :
  Binary64.Math_min a b = Binary64.Math_min b a.
Proof.
  unfold Binary64.Math_min. rewrite (orb_comm (is_nan b)).
  destruct (is_nan a) eqn:Na, (is_nan b) eqn:Nb; simpl; try reflexivity.
  destruct (a <? b) eqn:Hab, (b <? a) eqn:Hba; try reflexivity.
  - apply float_ltb_asym in Hab. congruence.
  - destruct (float_not_below a b Na Nb Hab Hba) as [<- | (sa & sb & Ea & Eb)].
    + destruct (_ && _); reflexivity.
    + destruct (float_zero_sign a sa Ea) as [-> ->].
      destruct (float_zero_sign b sb Eb) as [-> ->].
      destruct sa, sb; simpl; try reflexivity; apply Prim2SF_inj; congruence.
Qed.

(** Rounding does not break the symmetry: both calls compute the same
    double (the same NaN when there is one). *)
Lemma calculateIOU_binary64_symmetric (box1 box2 : Binary64.Box) :
  Binary64.calculateIOU box1 box2 = Binary64.calculateIOU box2 box1.
Proof.
  destruct box1 as [[[x1 y1] w1] h1], box2 as [[[x2 y2] w2] h2].
  unfold Binary64.calculateIOU.
  rewrite (Math_max_comm x2 x1), (Math_max_comm y2 y1).
  rewrite (Math_min_comm (x2 + w2) (x1 + w1)), (Math_min_comm (y2 + h2) (y1 + h1)).
  rewrite (float_add_comm (w2 * h2) (w1 * h1)).
  reflexivity.
Qed.

(** C8, as the specification states it, fails on the running code: the
    IoU of a non-degenerate box with itself need not be 1.0.  For the box
    [[0.1, 0.1, 0.2, 0.2]] (the doubles nearest these decimals) the right
    edge [0.1 + 0.2] is 0.30000000000000004, the intersection's width
    [0.30000000000000004 - 0.1] is 0.20000000000000004 and not 0.2, and the
    quotient is 1.0000000000000004. *)
Lemma calculateIOU_self_rounding_counterexample :
  let x := 0x1.999999999999ap-4 in
  let w := 0x1.999999999999ap-3 in
  (0 <? w) = true /\
  x + w - x = 0x1.999999999999bp-3 /\
  Binary64.calculateIOU (x, x, w, w) (x, x, w, w) = 0x1.0000000000002p+0 /\
  (Binary64.calculateIOU (x, x, w, w) (x, x, w, w) =? 1) = false.
Proof. cbv zeta. repeat split; vm_compute; reflexivity. Qed.

(** C5, as the specification states it, fails on the running code: there
    is no check of the divisor, and in binary64 the divisor can be zero for
    boxes of positive width and height.  For the box
    [[0, 0, 2^-600, 2^-600]] with itself both areas and the intersection
    underflow to 0, the early return is not taken and the quotient [0 / 0]
    is NaN.  For the box [[1 + 2^-52, 0, 2^-53, 1]] with itself the right
    edge rounds up, the intersection [2^-52] is the sum of the two areas,
    and the quotient [2^-52 / 0] is Infinity. *)
Lemma calculateIOU_zero_divisor_counterexample :
  let w := 0x1p-600 in
  let x := 0x1.0000000000001p+0 in
  let v := 0x1p-53 in
  ((0 <? w) = true /\
   w * w + w * w - (0 + w - 0) * (0 + w - 0) = 0 /\
   is_nan (Binary64.calculateIOU (0, 0, w, w) (0, 0, w, w)) = true) /\
  ((0 <? v) = true /\
   v * 1 + v * 1 - (x + v - x) * (0 + 1 - 0) = 0 /\
   Binary64.calculateIOU (x, 0, v, 1) (x, 0, v, 1) = infinity).
Proof. cbv zeta. repeat split; vm_compute; reflexivity. Qed.

End binary64_facts.

Section iou_symmetry.
Local Open Scope Q_scope.

(** C8, amended: [calculateIOU(a, b)] and [calculateIOU(b, a)] are the
    same number for every pair of boxes, in exact arithmetic and as
    computed in binary64; and in exact arithmetic [calculateIOU(a, a)] is 1
    for every box of positive width and height (so the binary64 value is
    1.0 up to rounding). *)
Theorem calculateIOU_symmetry_reflexivity :
  (forall box1 box2 : Box,
      option_Forall2 Qeq (calculateIOU box1 box2) (calculateIOU box2 box1)) /\
  (forall box1 box2 : Binary64.Box,
      Binary64.calculateIOU box1 box2 = Binary64.calculateIOU box2 box1) /\
  (forall x y w h : Q,
      0 < w -> 0 < h ->
      exists iou, calculateIOU (x, y, w, h) (x, y, w, h) = Some iou /\ iou == 1).
Proof.
  split; [exact calculateIOU_symmetric |].
  split; [exact calculateIOU_binary64_symmetric | exact calculateIOU_self].
Qed.

Lemma calculateIOU_symmetry_reflexivity_witness :
  option_Forall2 Qeq (calculateIOU (10, 10, 50, 50) (15, 15, 50, 50))
                     (calculateIOU (15, 15, 50, 50) (10, 10, 50, 50)) /\
  exists iou, calculateIOU (10, 10, 50, 50) (10, 10, 50, 50) = Some iou /\ iou == 1.
Proof.
  split.
  - apply (proj1 calculateIOU_symmetry_reflexivity).
  - apply (proj2 (proj2 calculateIOU_symmetry_reflexivity) 10 10 50 50); reflexivity.
Defined.

End iou_symmetry.

Section decoder_facts.
Local Open Scope nat_scope.

Variable predictions : list Q.
Variable num_predictions : nat.
Variable cfg : config.
Variables xRatio yRatio : Q.

(** The caller's obligation: the buffer holds all [C * N] values. *)
Hypothesis shape : NUM_CHANNELS * num_predictions <= length predictions.

Abbreviation N := num_predictions.
Abbreviation chan := (channel predictions num_predictions).

Lemma lookup_channel c i :
  c < NUM_CHANNELS -> i < N -> predictions !! (c * N + i) = Some (chan c i).
Proof.
  intros Hc Hi. unfold channel.
  destruct (predictions !! (c * N + i)) eqn:E; [reflexivity |].
  apply lookup_ge_None in E. exfalso.
  assert (c * N + i < NUM_CHANNELS * N) by nia. lia.
Qed.

Lemma bbox_data_lookup c i :
  c < NUM_BBOX_ATTRS -> i < N ->
  bbox_data predictions N !! (c * N + i) = Some (chan c i).
Proof.
  intros Hc Hi. unfold bbox_data, subarray.
  rewrite drop_0, Nat.sub_0_r, lookup_take_lt.
  - apply lookup_channel; [unfold NUM_CHANNELS; lia | exact Hi].
  - unfold NUM_BBOX_ATTRS in *. nia.
Qed.

Lemma keypoints_data_lookup c i :
  c < KEYPOINT_DIMS * NUM_KEYPOINTS -> i < N ->
  keypoints_data predictions N !! (c * N + i) =
  Some (chan (NUM_BBOX_ATTRS + c) i).
Proof.
  intros Hc Hi. unfold keypoints_data, subarray_from.
  rewrite lookup_drop.
  replace (N * NUM_BBOX_ATTRS + (c * N + i)) with ((NUM_BBOX_ATTRS + c) * N + i)
    by lia.
  apply lookup_channel; [unfold NUM_CHANNELS; lia | exact Hi].
Qed.

Lemma decode_keypoint_eq i kp :
  i < N -> kp < NUM_KEYPOINTS ->
  decode_keypoint predictions N xRatio yRatio i kp =
  Some (keypoint_of predictions N xRatio yRatio i kp).
Proof.
  intros Hi Hkp. unfold decode_keypoint, keypoint_of.
  unfold KEYPOINT_DIMS, NUM_KEYPOINTS in *.
  replace (kp * 3 * N + i) with ((3 * kp) * N + i) by lia.
  replace (3 * kp * N + i + N) with ((3 * kp + 1) * N + i) by lia.
  replace (3 * kp * N + i + N * 2) with ((3 * kp + 2) * N + i) by lia.
  rewrite !keypoints_data_lookup
    by (unfold KEYPOINT_DIMS, NUM_KEYPOINTS; lia || assumption).
  unfold NUM_BBOX_ATTRS. simpl.
  replace (5 + (3 * kp + 1)) with (5 + 3 * kp + 1) by lia.
  replace (5 + (3 * kp + 2)) with (5 + 3 * kp + 2) by lia.
  reflexivity.
Qed.

Lemma mapM_pointwise {A B} (f : A -> option B) (g : A -> B) (l : list A) :
  Forall (fun a => f a = Some (g a)) l -> mapM f l = Some (g <$> l).
Proof.
  intros H. apply mapM_Some. induction H; simpl; constructor; assumption.
Qed.

Lemma decode_keypoints_eq i :
  i < N ->
  mapM (decode_keypoint predictions N xRatio yRatio i) (seq 0 NUM_KEYPOINTS) =
  Some (keypoint_of predictions N xRatio yRatio i <$> seq 0 NUM_KEYPOINTS).
Proof.
  intros Hi. apply mapM_pointwise, Forall_forall. intros kp Hkp.
  apply elem_of_seq in Hkp. apply decode_keypoint_eq; lia.
Qed.

Lemma decode_step_eq results i :
  i < N ->
  decode_step predictions N cfg xRatio yRatio results i =
  Some (if decide (kept predictions N cfg i)
        then results ++ [detection_of predictions N xRatio yRatio i]
        else results).
Proof.
  intros Hi. unfold decode_step.
  replace (i + N * 4) with (4 * N + i) by lia.
  rewrite bbox_data_lookup by (unfold NUM_BBOX_ATTRS; lia || assumption).
  cbn [mbind option_bind].
  case_decide as Hk; unfold kept in Hk;
    [rewrite Hk | apply not_false_is_true in Hk; rewrite Hk; reflexivity].
  replace i with (0 * N + i) at 1 by lia.
  replace (i + N * 2) with (2 * N + i) by lia.
  replace (i + N) with (1 * N + i) by lia.
  replace (i + N * 3) with (3 * N + i) by lia.
  rewrite !bbox_data_lookup by (unfold NUM_BBOX_ATTRS; lia || assumption).
  cbn [mbind option_bind]. rewrite decode_keypoints_eq by assumption. reflexivity.
Qed.

Lemma decode_loop_eq l results :
  Forall (fun i => i < N) l ->
  decode_loop predictions N cfg xRatio yRatio l results =
  Some (results ++ (detection_of predictions N xRatio yRatio <$>
                    filter (kept predictions N cfg) l)).
Proof.
  intros Hl. revert results.
  induction Hl as [| i l Hi Hl IH]; intros results; simpl.
  - rewrite app_nil_r. reflexivity.
  - rewrite decode_step_eq by assumption. simpl. rewrite IH.
    rewrite filter_cons. case_decide; [| reflexivity].
    rewrite fmap_cons, <- app_assoc. reflexivity.
Qed.

Lemma decode_eq :
  decode predictions N cfg xRatio yRatio =
  Some (detection_of predictions N xRatio yRatio <$>
        filter (kept predictions N cfg) (seq 0 N)).
Proof.
  unfold decode. rewrite decode_loop_eq; [reflexivity |].
  apply Forall_forall. intros i Hi. apply elem_of_seq in Hi. lia.
Qed.

End decoder_facts.

(** C1: when the buffer holds the [C * N] values of the tensor, the decoder
    returns a list of detections that come from a strictly ascending list of
    anchors (so at most one detection per anchor, in anchor order): an
    anchor whose score, the value of channel 4 at offset [i + N * 4], is at
    most the threshold is not in it, an anchor whose score exceeds the
    threshold is; every detection has the score of its anchor, which exceeds
    the threshold, and exactly [K = 17] keypoints. *)
Theorem decode_score_filter (predictions : list Q) (num_predictions : nat)
    (cfg : config) (xRatio yRatio : Q) :
  (NUM_CHANNELS * num_predictions <= length predictions)%nat ->
  exists (results : list Detection) (anchors : list nat),
    decode predictions num_predictions cfg xRatio yRatio = Some results /\
    Forall2 (fun i d =>
               predictions !! (i + num_predictions * 4)%nat = Some (score d))
            anchors results /\
    StronglySorted lt anchors /\
    Forall (fun i => (i < num_predictions)%nat) anchors /\
    (forall i s, (i < num_predictions)%nat ->
       predictions !! (i + num_predictions * 4)%nat = Some s ->
       (s <= score_threshold cfg)%Q -> i ∉ anchors) /\
    (forall i s, (i < num_predictions)%nat ->
       predictions !! (i + num_predictions * 4)%nat = Some s ->
       (score_threshold cfg < s)%Q -> i ∈ anchors) /\
    Forall (fun d => (score_threshold cfg < score d)%Q) results /\
    Forall (fun d => length (keypoints d) = 17%nat) results.
Proof.
  intros shape.
  exists (detection_of predictions num_predictions xRatio yRatio <$>
            filter (kept predictions num_predictions cfg) (seq 0 num_predictions)).
  exists (filter (kept predictions num_predictions cfg) (seq 0 num_predictions)).
  assert (Hread : forall i, (i < num_predictions)%nat ->
            predictions !! (i + num_predictions * 4)%nat =
            Some (channel predictions num_predictions 4 i)).
  { intros i Hi. replace (i + num_predictions * 4)%nat
      with (4 * num_predictions + i)%nat by lia.
    apply lookup_channel; [assumption | unfold NUM_CHANNELS; simpl; lia | assumption]. }
  split; [apply decode_eq; assumption |].
  split.
  { apply Forall2_fmap_r, Forall_Forall2_diag, Forall_forall.
    intros i Hi. apply list_elem_of_filter in Hi as [_ Hi].
    apply elem_of_seq in Hi. simpl. apply Hread. lia. }
  split.
  { eapply StronglySorted_sublist; [apply sublist_filter | apply StronglySorted_seq]. }
  split.
  { apply Forall_forall. intros i Hi. apply list_elem_of_filter in Hi as [_ Hi].
    apply elem_of_seq in Hi. lia. }
  split.
  { intros i s Hi Hs Hle Hin. apply list_elem_of_filter in Hin as [Hk _].
    rewrite Hread in Hs by assumption. injection Hs as <-.
    unfold kept in Hk. apply Qle_bool_iff in Hle. congruence. }
  split.
  { intros i s Hi Hs Hlt. apply list_elem_of_filter. split.
    - rewrite Hread in Hs by assumption. injection Hs as <-.
      unfold kept. apply Qle_bool_false. exact Hlt.
    - apply elem_of_seq. lia. }
  split.
  { apply Forall_fmap, Forall_forall. intros i Hi.
    apply list_elem_of_filter in Hi as [Hk _]. simpl.
    apply Qle_bool_false. exact Hk. }
  { apply Forall_fmap, Forall_forall. intros i Hi.
    unfold detection_of, compose. cbn [keypoints].
    rewrite length_fmap, length_seq. reflexivity. }
Qed.

Lemma decode_score_filter_witness :
  exists (results : list Detection) (anchors : list nat),
    decode ([10; 20; 4; 6; 0.9] ++ replicate 51 1)%Q 1 (mkConfig 0.5 0.5) 2 1.5
      = Some results /\
    Forall2 (fun i d =>
               ([10; 20; 4; 6; 0.9] ++ replicate 51 1)%Q !! (i + 1 * 4)%nat
               = Some (score d))
            anchors results /\
    StronglySorted lt anchors /\
    Forall (fun i => (i < 1)%nat) anchors /\
    (forall i s, (i < 1)%nat ->
       ([10; 20; 4; 6; 0.9] ++ replicate 51 1)%Q !! (i + 1 * 4)%nat = Some s ->
       (s <= score_threshold (mkConfig 0.5 0.5))%Q -> i ∉ anchors) /\
    (forall i s, (i < 1)%nat ->
       ([10; 20; 4; 6; 0.9] ++ replicate 51 1)%Q !! (i + 1 * 4)%nat = Some s ->
       (score_threshold (mkConfig 0.5 0.5) < s)%Q -> i ∈ anchors) /\
    Forall (fun d => (score_threshold (mkConfig 0.5 0.5) < score d)%Q) results /\
    Forall (fun d => length (keypoints d) = 17%nat) results.
Proof.
  apply (decode_score_filter ([10; 20; 4; 6; 0.9] ++ replicate 51 1)%Q 1
           (mkConfig 0.5 0.5) 2 1.5).
  vm_compute. lia.
Defined.

(** C2: for every kept anchor [i] (the anchors below [N] whose score
    exceeds the threshold), with [cx], [cy], [w], [h] the values of channels
    0 to 3, the emitted box is
    [((cx - 0.5 * w) * xRatio, (cy - 0.5 * h) * yRatio, w * xRatio, h * yRatio)],
    and keypoint [kp] has the values of channels [5 + 3 * kp],
    [5 + 3 * kp + 1] and [5 + 3 * kp + 2] of that anchor: the first scaled
    by [xRatio], the second by [yRatio], the third as it is.  Channel [c] of
    anchor [i] is the buffer's value at offset [c * N + i]. *)
Theorem decode_coordinate_scaling (predictions : list Q) (num_predictions : nat)
    (cfg : config) (xRatio yRatio : Q) :
  (NUM_CHANNELS * num_predictions <= length predictions)%nat ->
  exists (results : list Detection) (anchors : list nat),
    decode predictions num_predictions cfg xRatio yRatio = Some results /\
    (forall i, i ∈ anchors <->
       (i < num_predictions)%nat /\
       (score_threshold cfg < channel predictions num_predictions 4 i)%Q) /\
    Forall2
      (fun i d =>
         (forall c, (c < NUM_CHANNELS)%nat ->
            predictions !! (c * num_predictions + i)%nat =
            Some (channel predictions num_predictions c i)) /\
         (let cx := channel predictions num_predictions 0 i in
          let cy := channel predictions num_predictions 1 i in
          let w := channel predictions num_predictions 2 i in
          let h := channel predictions num_predictions 3 i in
          bbox d =
          ((cx - 0.5 * w) * xRatio, (cy - 0.5 * h) * yRatio,
           w * xRatio, h * yRatio)%Q) /\
         (forall kp, (kp < 17)%nat ->
            keypoints d !! kp =
            Some (mkKeypoint
                    (channel predictions num_predictions (5 + 3 * kp) i
                     * xRatio)%Q
                    (channel predictions num_predictions (5 + 3 * kp + 1) i
                     * yRatio)%Q
                    (channel predictions num_predictions (5 + 3 * kp + 2) i))))
      anchors results.
Proof.
  intros shape.
  exists (detection_of predictions num_predictions xRatio yRatio <$>
            filter (kept predictions num_predictions cfg) (seq 0 num_predictions)).
  exists (filter (kept predictions num_predictions cfg) (seq 0 num_predictions)).
  split; [apply decode_eq; assumption |].
  split.
  { intros i. rewrite list_elem_of_filter, elem_of_seq. unfold kept.
    rewrite Qle_bool_false. split; intros [? ?]; split; (assumption || lia). }
  apply Forall2_fmap_r, Forall_Forall2_diag, Forall_forall.
  intros i Hi. apply list_elem_of_filter in Hi as [_ Hi].
  apply elem_of_seq in Hi. unfold compose. split; [| split].
  - intros c Hc. apply lookup_channel; [assumption | assumption | lia].
  - reflexivity.
  - intros kp Hkp. unfold detection_of. cbn [keypoints].
    rewrite list_lookup_fmap, lookup_seq_lt by (unfold NUM_KEYPOINTS; lia).
    reflexivity.
Qed.

Lemma decode_coordinate_scaling_witness :
  exists (results : list Detection) (anchors : list nat),
    decode ([10; 20; 4; 6; 0.9] ++ replicate 51 1)%Q 1 (mkConfig 0.5 0.5) 2 1.5
      = Some results /\
    (forall i, i ∈ anchors <->
       (i < 1)%nat /\
       (score_threshold (mkConfig 0.5 0.5) <
        channel ([10; 20; 4; 6; 0.9] ++ replicate 51 1)%Q 1 4 i)%Q) /\
    Forall2
      (fun i d =>
         (forall c, (c < NUM_CHANNELS)%nat ->
            ([10; 20; 4; 6; 0.9] ++ replicate 51 1)%Q !! (c * 1 + i)%nat =
            Some (channel ([10; 20; 4; 6; 0.9] ++ replicate 51 1)%Q 1 c i)) /\
         (let cx := channel ([10; 20; 4; 6; 0.9] ++ replicate 51 1)%Q 1 0 i in
          let cy := channel ([10; 20; 4; 6; 0.9] ++ replicate 51 1)%Q 1 1 i in
          let w := channel ([10; 20; 4; 6; 0.9] ++ replicate 51 1)%Q 1 2 i in
          let h := channel ([10; 20; 4; 6; 0.9] ++ replicate 51 1)%Q 1 3 i in
          bbox d =
          ((cx - 0.5 * w) * 2, (cy - 0.5 * h) * 1.5, w * 2, h * 1.5)%Q) /\
         (forall kp, (kp < 17)%nat ->
            keypoints d !! kp =
            Some (mkKeypoint
                    (channel ([10; 20; 4; 6; 0.9] ++ replicate 51 1)%Q 1
                       (5 + 3 * kp) i * 2)%Q
                    (channel ([10; 20; 4; 6; 0.9] ++ replicate 51 1)%Q 1
                       (5 + 3 * kp + 1) i * 1.5)%Q
                    (channel ([10; 20; 4; 6; 0.9] ++ replicate 51 1)%Q 1
                       (5 + 3 * kp + 2) i))))
      anchors results.
Proof.
  apply (decode_coordinate_scaling ([10; 20; 4; 6; 0.9] ++ replicate 51 1)%Q 1
           (mkConfig 0.5 0.5) 2 1.5).
  vm_compute. lia.
Defined.

(** The coordinate-scaling scenario of the specification: one anchor with
    centre (10, 20) and size (4, 6), ratios 2 and 1.5. *)
Example decode_single_anchor :
  bbox <$> (decode ([10; 20; 4; 6; 0.9] ++ replicate 51 1)%Q 1
              (mkConfig 0.5 0.5) 2 1.5 ≫= head)
  = Some ((10 - 0.5 * 4) * 2, (20 - 0.5 * 6) * 1.5, 4 * 2, 6 * 1.5)%Q.
Proof. reflexivity. Qed.

(* ===================================================================== *)
(** ** The sort                                                           *)
(* ===================================================================== *)

Section sort_facts.
Variable compare : nat -> nat -> Q.

Abbreviation ordered := (in_order compare).

Hypothesis compare_total : forall a b, ~ ordered a b -> ordered b a.
Hypothesis compare_trans :
  forall a b c, ordered a b -> ordered b c -> ordered a c.

Lemma sort_insert_perm a l : sort_insert compare a l ≡ₚ a :: l.
Proof.
  induction l as [| b l IH]; simpl; [reflexivity |].
  destruct (Qle_bool (compare a b) 0); [reflexivity |].
  rewrite IH. apply Permutation_swap.
Qed.

Lemma js_sort_perm l : js_sort compare l ≡ₚ l.
Proof.
  induction l as [| a l IH]; simpl; [reflexivity |].
  rewrite sort_insert_perm, IH. reflexivity.
Qed.

Lemma sort_insert_sorted a l :
  StronglySorted ordered l -> StronglySorted ordered (sort_insert compare a l).
Proof.
  induction 1 as [| b l Hs IH Hall]; simpl.
  - constructor; constructor.
  - destruct (Qle_bool (compare a b) 0) eqn:E.
    + apply Qle_bool_iff in E. constructor; [constructor; assumption |].
      constructor; [exact E |].
      eapply Forall_impl; [exact Hall |]. intros c Hc.
      eapply compare_trans; eassumption.
    + assert (Hba : ordered b a).
      { apply compare_total. unfold in_order. intros Hle.
        apply Qle_bool_iff in Hle. congruence. }
      constructor; [exact IH |].
      rewrite sort_insert_perm. constructor; assumption.
Qed.

Lemma js_sort_sorted l : StronglySorted ordered (js_sort compare l).
Proof.
  induction l as [| a l IH]; simpl; [constructor |].
  apply sort_insert_sorted, IH.
Qed.

(** A list that is in order already is left as it is (the sort is stable,
    and nothing has to move). *)
Lemma js_sort_sorted_id l : StronglySorted ordered l -> js_sort compare l = l.
Proof.
  induction 1 as [| a l Hs IH Hall]; simpl; [reflexivity |].
  rewrite IH. destruct l as [| b l]; simpl; [reflexivity |].
  apply Forall_cons in Hall as [Hab _]. apply Qle_bool_iff in Hab.
  rewrite Hab. reflexivity.
Qed.

End sort_facts.

(* ===================================================================== *)
(** ** The suppression loop                                               *)
(* ===================================================================== *)

Section nms_facts.
Local Open Scope nat_scope.

Variable detections : list Detection.
Variable iou_threshold : Q.

Abbreviation in_range := (fun idx : nat => idx < length detections).
Abbreviation within := (iou_within detections iou_threshold).

Lemma keeps_eq current idx :
  current < length detections -> idx < length detections ->
  keeps detections iou_threshold current idx =
  Some (bool_decide (within current idx)).
Proof.
  intros Hc Hi. unfold keeps.
  destruct (lookup_lt_is_Some_2 _ _ Hc) as [box1 E1].
  destruct (lookup_lt_is_Some_2 _ _ Hi) as [box2 E2].
  rewrite E1, E2. cbn [mbind option_bind]. f_equal.
  destruct (calculateIOU (bbox box1) (bbox box2)) as [iou |] eqn:E3; simpl.
  - destruct (Qle_bool iou iou_threshold) eqn:E.
    + symmetry. apply bool_decide_eq_true. apply Qle_bool_iff in E.
      exists box1, box2, iou. auto.
    + symmetry. apply bool_decide_eq_false.
      intros (b1 & b2 & v & H1 & H2 & H3 & Hle).
      rewrite E1 in H1. rewrite E2 in H2. injection H1 as <-. injection H2 as <-.
      rewrite E3 in H3. injection H3 as <-.
      apply Qle_bool_iff in Hle. congruence.
  - symmetry. apply bool_decide_eq_false.
    intros (b1 & b2 & v & H1 & H2 & H3 & _).
    rewrite E1 in H1. rewrite E2 in H2. injection H1 as <-. injection H2 as <-.
    congruence.
Qed.

Lemma retain_eq current rest :
  current < length detections -> Forall in_range rest ->
  retain detections iou_threshold current rest =
  Some (filter (within current) rest).
Proof.
  intros Hc. induction 1 as [| idx rest Hi Hrest IH]; simpl; [reflexivity |].
  rewrite keeps_eq, IH by assumption. cbn [mbind option_bind].
  rewrite filter_cons. destruct (decide (within current idx)) as [Hw | Hw].
  - rewrite bool_decide_eq_true_2 by assumption. reflexivity.
  - rewrite bool_decide_eq_false_2 by assumption. reflexivity.
Qed.

Lemma nms_while_cons current rest picked :
  Forall in_range (current :: rest) ->
  nms_while detections iou_threshold (current :: rest) picked =
  nms_while detections iou_threshold (filter (within current) rest)
    (picked ++ [current]).
Proof.
  intros Hall. apply Forall_cons in Hall as [Hc Hrest].
  pose proof (retain_eq current rest Hc Hrest) as Hr.
  simp nms_while.
  destruct (inspect (retain detections iou_threshold current rest))
    as [[indexes' |] Heq]; simp nms_while.
  - congruence.
  - congruence.
Qed.

Lemma nms_while_rounds indexes :
  Forall in_range indexes ->
  exists tail,
    nms_rounds detections iou_threshold indexes tail /\
    forall picked,
      nms_while detections iou_threshold indexes picked = Some (picked ++ tail).
Proof.
  remember (length indexes) as n eqn:Hn. revert indexes Hn.
  induction n as [n IH] using lt_wf_ind. intros indexes Hn Hall.
  destruct indexes as [| current rest].
  - exists []. split; [constructor |]. intros picked.
    simp nms_while. rewrite app_nil_r. reflexivity.
  - destruct (IH (length (filter (within current) rest))) with
      (indexes := filter (within current) rest) as (tail & Hrounds & Hwhile).
    + subst n. simpl. pose proof (length_filter (within current) rest). lia.
    + reflexivity.
    + apply Forall_cons in Hall as [_ Hrest].
      eapply Forall_sublist; [apply sublist_filter | exact Hrest].
    + exists (current :: tail). split; [constructor; exact Hrounds |].
      intros picked. rewrite nms_while_cons by assumption.
      rewrite Hwhile, <- app_assoc. reflexivity.
Qed.

Lemma nms_rounds_sublist indexes picked :
  nms_rounds detections iou_threshold indexes picked ->
  picked `sublist_of` indexes.
Proof.
  induction 1 as [| current rest picked _ IH]; [constructor |].
  apply sublist_skip. etransitivity; [exact IH | apply sublist_filter].
Qed.

Lemma nms_rounds_pairwise indexes picked :
  nms_rounds detections iou_threshold indexes picked ->
  StronglySorted within picked.
Proof.
  induction 1 as [| current rest picked Hr IH]; constructor; [exact IH |].
  apply nms_rounds_sublist in Hr.
  eapply Forall_sublist; [exact Hr |].
  apply Forall_forall. intros idx Hidx.
  apply list_elem_of_filter in Hidx as [Hw _]. exact Hw.
Qed.

Lemma nms_rounds_functional indexes picked picked' :
  nms_rounds detections iou_threshold indexes picked ->
  nms_rounds detections iou_threshold indexes picked' ->
  picked = picked'.
Proof.
  intros H. revert picked'.
  induction H as [| current rest picked _ IH]; intros picked' H';
    inversion H'; subst; [reflexivity |].
  f_equal. apply IH. assumption.
Qed.

Abbreviation score_desc :=
  (fun a b : nat => (score_of detections b <= score_of detections a)%Q).

(** On indices sorted by descending score, the loop's rounds are the
    specification's: the picked index has the highest remaining score. *)
Lemma nms_rounds_greedy indexes picked :
  StronglySorted score_desc indexes ->
  nms_rounds detections iou_threshold indexes picked ->
  greedy_rounds detections iou_threshold indexes picked.
Proof.
  intros Hs H. induction H as [| current rest picked _ IH]; [constructor |].
  apply StronglySorted_inv in Hs as [Hs Hall].
  constructor; [exact Hall |]. apply IH.
  eapply StronglySorted_sublist; [apply sublist_filter | exact Hs].
Qed.

Lemma greedy_rounds_functional indexes picked picked' :
  greedy_rounds detections iou_threshold indexes picked ->
  greedy_rounds detections iou_threshold indexes picked' ->
  picked = picked'.
Proof.
  intros H. revert picked'.
  induction H as [| current rest picked _ _ IH]; intros picked' H';
    inversion H'; subst; [reflexivity |].
  f_equal. apply IH. assumption.
Qed.

(** When every later index passes the test against every earlier one,
    nothing is dropped. *)
Lemma nms_while_all indexes picked :
  Forall in_range indexes -> StronglySorted within indexes ->
  nms_while detections iou_threshold indexes picked = Some (picked ++ indexes).
Proof.
  intros Hall Hs. revert picked Hall.
  induction Hs as [| current rest Hs IH Hw]; intros picked Hall.
  - simp nms_while. rewrite app_nil_r. reflexivity.
  - rewrite nms_while_cons by assumption.
    assert (filter (within current) rest = rest) as ->.
    { clear -Hw. induction Hw as [| idx rest Hidx Hw IH]; [reflexivity |].
      rewrite filter_cons_True by assumption. f_equal. exact IH. }
    apply Forall_cons in Hall as [_ Hall].
    rewrite IH by assumption. rewrite <- app_assoc. reflexivity.
Qed.

Abbreviation indexes0 := (sorted_indexes detections).

Lemma score_at_fmap a : score_at (score <$> detections) a = score_of detections a.
Proof. unfold score_at, score_of. rewrite list_lookup_fmap. reflexivity. Qed.

Lemma in_order_score_desc a b :
  in_order (by_score_desc (score <$> detections)) a b <-> score_desc a b.
Proof.
  unfold in_order, by_score_desc. rewrite !score_at_fmap. split; intros H; lra.
Qed.

Lemma sorted_indexes_perm : indexes0 ≡ₚ seq 0 (length detections).
Proof.
  unfold sorted_indexes. rewrite js_sort_perm, length_fmap. reflexivity.
Qed.

Lemma sorted_indexes_sorted : StronglySorted score_desc indexes0.
Proof.
  apply (StronglySorted_impl (in_order (by_score_desc (score <$> detections)))).
  { intros a b Hab. apply in_order_score_desc. exact Hab. }
  apply js_sort_sorted.
  - intros a b Hab. rewrite in_order_score_desc in *.
    apply Qnot_le_lt in Hab. lra.
  - intros a b c. rewrite !in_order_score_desc. intros; lra.
Qed.

Lemma sorted_indexes_in_range : Forall in_range indexes0.
Proof.
  apply Forall_forall. intros i Hi. rewrite sorted_indexes_perm in Hi.
  apply elem_of_seq in Hi. lia.
Qed.

Lemma suppress_rounds :
  exists picked,
    nms_rounds detections iou_threshold indexes0 picked /\
    suppress detections iou_threshold = Some picked.
Proof.
  destruct (nms_while_rounds indexes0 sorted_indexes_in_range)
    as (picked & Hrounds & Hwhile).
  exists picked. split; [exact Hrounds |].
  unfold suppress, applyNMS. apply (Hwhile []).
Qed.

End nms_facts.

(** C3: [suppress] sorts the full index list by descending score (a
    permutation of [0 .. length - 1], stable sort not needed for this), and
    its result is what the specification's rounds produce from it: each
    round moves the highest-scoring remaining index to the kept list and
    keeps for the next round exactly the remaining indices whose IoU with
    it is at most the threshold, until none remain.  The result lists the
    kept indices in selection order (descending score), and each of them is
    an index of the input. *)
Theorem suppress_greedy_nms (detections : list Detection) (iou_threshold : Q) :
  exists indexes picked : list nat,
    indexes ≡ₚ seq 0 (length detections) /\
    StronglySorted
      (fun a b => (score_of detections b <= score_of detections a)%Q) indexes /\
    greedy_rounds detections iou_threshold indexes picked /\
    (forall picked',
        greedy_rounds detections iou_threshold indexes picked' ->
        picked' = picked) /\
    suppress detections iou_threshold = Some picked /\
    StronglySorted
      (fun a b => (score_of detections b <= score_of detections a)%Q) picked /\
    picked ⊆ seq 0 (length detections).
Proof.
  destruct (suppress_rounds detections iou_threshold) as (picked & Hr & Hs).
  pose proof (sorted_indexes_sorted detections) as Hsorted.
  pose proof (nms_rounds_greedy _ _ _ _ Hsorted Hr) as Hg.
  exists (sorted_indexes detections), picked.
  split; [apply sorted_indexes_perm |].
  split; [exact Hsorted |].
  split; [exact Hg |].
  split; [intros picked' Hg'; eapply greedy_rounds_functional; eassumption |].
  split; [exact Hs |].
  apply nms_rounds_sublist in Hr.
  split; [eapply StronglySorted_sublist; eassumption |].
  intros i Hi. rewrite <- (sorted_indexes_perm detections).
  eapply elem_of_sublist; eassumption.
Qed.

(** The end-to-end scenario of the specification. *)
Example suppress_two_overlapping :
  let detections :=
    [mkDetection (10, 10, 50, 50)%Q 0.9%Q []; mkDetection (15, 15, 50, 50)%Q 0.8%Q []] in
  suppress detections 0.5%Q = Some [0%nat] /\
  suppress detections 0.7%Q = Some [0%nat; 1%nat].
Proof. split; reflexivity. Qed.

(** Edge cases of the specification: no detection, one detection, and
    identical boxes. *)
Example suppress_edge_cases :
  suppress [] 0.5%Q = Some [] /\
  suppress [mkDetection (1, 2, 3, 4)%Q 0.3%Q []] 0%Q = Some [0%nat] /\
  suppress [mkDetection (1, 2, 3, 4)%Q 0.3%Q []; mkDetection (1, 2, 3, 4)%Q 0.7%Q [];
            mkDetection (1, 2, 3, 4)%Q 0.5%Q []] 0.9%Q = Some [1%nat].
Proof. repeat split; reflexivity. Qed.

(** C10: the list that [suppress] returns has no duplicates, holds only
    indices below the length of the input, and for every returned index [j]
    picked after a returned index [i] the IoU of the two boxes (computed in
    either order) is at most the threshold. *)
Theorem suppress_output_invariant (detections : list Detection)
    (iou_threshold : Q) :
  exists picked : list nat,
    suppress detections iou_threshold = Some picked /\
    NoDup picked /\
    Forall (fun i => (i < length detections)%nat) picked /\
    forall (p q i j : nat),
      (p < q)%nat -> picked !! p = Some i -> picked !! q = Some j ->
      exists box_i box_j iou iou',
        detections !! i = Some box_i /\
        detections !! j = Some box_j /\
        calculateIOU (bbox box_i) (bbox box_j) = Some iou /\
        (iou <= iou_threshold)%Q /\
        calculateIOU (bbox box_j) (bbox box_i) = Some iou' /\
        (iou' <= iou_threshold)%Q.
Proof.
  destruct (suppress_rounds detections iou_threshold) as (picked & Hr & Hs).
  exists picked. split; [exact Hs |].
  pose proof (nms_rounds_sublist _ _ _ _ Hr) as Hsub.
  split.
  { eapply sublist_NoDup; [| exact Hsub].
    rewrite sorted_indexes_perm. apply NoDup_seq. }
  split.
  { eapply Forall_sublist; [exact Hsub | apply sorted_indexes_in_range]. }
  intros p q i j Hpq Hp Hq.
  pose proof (nms_rounds_pairwise _ _ _ _ Hr) as Hpair.
  destruct (StronglySorted_lookup _ _ _ _ _ _ Hpair Hpq Hp Hq)
    as (box_i & box_j & iou & Hi & Hj & Hiou & Hle).
  pose proof (calculateIOU_symmetric (bbox box_i) (bbox box_j)) as Hsym.
  rewrite Hiou in Hsym. inversion Hsym as [? iou' Heq Hx Hy |]; subst.
  exists box_i, box_j, iou, iou'. repeat split; try assumption.
  - symmetry. assumption.
  - rewrite <- Heq. exact Hle.
Qed.

(* ===================================================================== *)
(** ** A second pass over the selected detections                         *)
(* ===================================================================== *)

Section second_pass.
Local Open Scope nat_scope.

Variable detections : list Detection.
Variable iou_threshold : Q.
Variables (picked : list nat) (selected : list Detection).

Hypothesis selected_of_picked : select detections picked = Some selected.

Lemma select_length : length selected = length picked.
Proof.
  symmetry. eapply length_mapM. exact selected_of_picked.
Qed.

Lemma select_lookup a i :
  picked !! a = Some i -> selected !! a = detections !! i.
Proof.
  intros Ha. unfold select in selected_of_picked.
  apply mapM_Some_1 in selected_of_picked.
  destruct (Forall2_lookup_l _ _ _ _ _ selected_of_picked Ha) as (d & Hd & Hi).
  congruence.
Qed.

Lemma select_score a i :
  picked !! a = Some i -> score_of selected a = score_of detections i.
Proof.
  intros Ha. unfold score_of. rewrite (select_lookup a i Ha). reflexivity.
Qed.

Lemma select_within a b i j :
  picked !! a = Some i -> picked !! b = Some j ->
  iou_within detections iou_threshold i j ->
  iou_within selected iou_threshold a b.
Proof.
  intros Ha Hb (box1 & box2 & iou & H1 & H2 & H3 & Hle).
  exists box1, box2, iou.
  rewrite (select_lookup a i Ha), (select_lookup b j Hb). auto.
Qed.

(** The selected detections are already in the order the sort wants, and
    no test of the loop fails on them. *)
Lemma second_pass_keeps_all :
  StronglySorted
    (fun a b => (score_of detections b <= score_of detections a)%Q) picked ->
  StronglySorted (iou_within detections iou_threshold) picked ->
  suppress selected iou_threshold = Some (seq 0 (length selected)).
Proof.
  intros Hscore Hpair.
  assert (Hidx : forall a, a < length selected -> exists i, picked !! a = Some i).
  { intros a Ha. apply lookup_lt_is_Some_2. rewrite <- select_length. exact Ha. }
  unfold suppress, applyNMS. rewrite length_fmap.
  rewrite js_sort_sorted_id.
  - apply (nms_while_all selected iou_threshold (seq 0 (length selected)) []).
    + apply Forall_forall. intros a Ha. apply elem_of_seq in Ha. lia.
    + apply StronglySorted_seq_rel. intros a b _ Hab Hb.
      destruct (Hidx a ltac:(lia)) as [i Hi]. destruct (Hidx b ltac:(lia)) as [j Hj].
      eapply select_within; [exact Hi | exact Hj |].
      exact (StronglySorted_lookup _ _ _ _ _ _ Hpair Hab Hi Hj).
  - apply StronglySorted_seq_rel. intros a b _ Hab Hb.
    destruct (Hidx a ltac:(lia)) as [i Hi]. destruct (Hidx b ltac:(lia)) as [j Hj].
    apply in_order_score_desc.
    rewrite (select_score a i Hi), (select_score b j Hj).
    exact (StronglySorted_lookup _ _ _ _ _ _ Hscore Hab Hi Hj).
Qed.

End second_pass.

Lemma select_all (detections : list Detection) :
  select detections (seq 0 (length detections)) = Some detections.
Proof.
  unfold select. apply mapM_Some.
  apply Forall2_same_length_lookup. split; [apply length_seq |].
  intros a i d Ha Hd. apply lookup_seq in Ha as [-> _]. exact Hd.
Qed.

(** C7: gather the detections that a first call of [suppress] selects, in
    selection order, and call [suppress] on them with the same threshold:
    the second call keeps every one of them, in the same order, so
    gathering again yields the same detections. *)
Theorem suppress_idempotent (detections : list Detection) (iou_threshold : Q) :
  exists (picked : list nat) (selected : list Detection),
    suppress detections iou_threshold = Some picked /\
    select detections picked = Some selected /\
    suppress selected iou_threshold = Some (seq 0 (length selected)) /\
    select selected (seq 0 (length selected)) = Some selected.
Proof.
  destruct (suppress_rounds detections iou_threshold) as (picked & Hr & Hs).
  pose proof (nms_rounds_sublist _ _ _ _ Hr) as Hsub.
  assert (Hsel : is_Some (select detections picked)).
  { apply mapM_is_Some_2.
    eapply Forall_impl;
      [eapply Forall_sublist; [exact Hsub | apply sorted_indexes_in_range] |].
    intros i Hi. apply lookup_lt_is_Some_2. exact Hi. }
  destruct Hsel as [selected Hsel].
  exists picked, selected. split; [exact Hs |]. split; [exact Hsel |].
  split; [| apply select_all].
  eapply second_pass_keeps_all; [exact Hsel | |].
  - eapply StronglySorted_sublist; [exact Hsub | apply sorted_indexes_sorted].
  - eapply nms_rounds_pairwise; exact Hr.
Qed.

(* ===================================================================== *)
(** ** The threshold and the number of kept detections                    *)
(* ===================================================================== *)

Lemma iou_within_mono (detections : list Detection) (t1 t2 : Q) (a b : nat) :
  (t1 <= t2)%Q -> iou_within detections t1 a b -> iou_within detections t2 a b.
Proof.
  intros Ht (box1 & box2 & iou & H1 & H2 & H3 & Hle).
  exists box1, box2, iou. repeat split; try assumption.
  eapply Qle_trans; eassumption.
Qed.

(** One step of unfolding the rounds on an explicit list. *)
Ltac rounds_step :=
  match goal with
  | H : nms_rounds _ _ [] _ |- _ => inversion H; subst; clear H
  | H : nms_rounds _ _ (_ :: _) _ |- _ => inversion H; subst; clear H
  | H : context [filter _ []] |- _ => rewrite filter_nil in H
  | H : context [filter ?P (?x :: _)] |- _ =>
      rewrite (filter_cons P x) in H; destruct (decide (P x))
  end.

Lemma nms_rounds_short_monotone (detections : list Detection) (t1 t2 : Q)
    (indexes picked1 picked2 : list nat) :
  (t1 <= t2)%Q -> (length indexes <= 3)%nat ->
  nms_rounds detections t1 indexes picked1 ->
  nms_rounds detections t2 indexes picked2 ->
  (length picked1 <= length picked2)%nat.
Proof.
  intros Ht Hlen H1 H2.
  pose proof (iou_within_mono detections t1 t2) as Hmono.
  destruct indexes as [| a [| b [| c [| d indexes]]]];
    [ | | | | simpl in Hlen; lia];
    repeat rounds_step; simpl; try lia;
    exfalso; eauto.
Qed.

(** C6, as the specification states it, fails.  Four boxes: box 1 overlaps
    box 0 with IoU 7/13, and it overlaps boxes 2 and 3 with IoU 2/3; the
    IoU of every other pair is at most 3/7.  With threshold 0.45 box 0
    suppresses box 1, and boxes 2 and 3 stay: three kept.  With the higher
    threshold 0.6 box 1 stays and suppresses boxes 2 and 3: two kept. *)
Lemma suppress_monotonicity_counterexample :
  let detections :=
    [ mkDetection (0, 3, 10, 10)%Q 0.9%Q [];
      mkDetection (0, 0, 10, 10)%Q 0.8%Q [];
      mkDetection (-2, 0, 10, 10)%Q 0.7%Q [];
      mkDetection (2, 0, 10, 10)%Q 0.6%Q [] ] in
  (0.45 <= 0.6)%Q /\
  suppress detections 0.45%Q = Some [0; 2; 3]%nat /\
  suppress detections 0.6%Q = Some [0; 1]%nat /\
  ~ (length [0; 2; 3]%nat <= length [0; 1]%nat)%nat.
Proof.
  cbv zeta. split; [| split; [| split]].
  - vm_compute. discriminate.
  - vm_compute. reflexivity.
  - vm_compute. reflexivity.
  - simpl. lia.
Qed.

(** C6, amended: for an input of at most three detections and thresholds
    [t1 <= t2], [suppress] keeps at most as many indices at [t1] as at
    [t2]. *)
Theorem suppress_monotone_up_to_three (detections : list Detection) (t1 t2 : Q) :
  (length detections <= 3)%nat -> (t1 <= t2)%Q ->
  exists picked1 picked2 : list nat,
    suppress detections t1 = Some picked1 /\
    suppress detections t2 = Some picked2 /\
    (length picked1 <= length picked2)%nat.
Proof.
  intros Hlen Ht.
  destruct (suppress_rounds detections t1) as (picked1 & Hr1 & Hs1).
  destruct (suppress_rounds detections t2) as (picked2 & Hr2 & Hs2).
  exists picked1, picked2. split; [exact Hs1 |]. split; [exact Hs2 |].
  eapply nms_rounds_short_monotone; [exact Ht | | exact Hr1 | exact Hr2].
  rewrite (sorted_indexes_perm detections), length_seq. exact Hlen.
Qed.

Lemma suppress_monotone_up_to_three_witness :
  exists picked1 picked2 : list nat,
    suppress [mkDetection (10, 10, 50, 50)%Q 0.9%Q [];
              mkDetection (15, 15, 50, 50)%Q 0.8%Q []] 0.5%Q = Some picked1 /\
    suppress [mkDetection (10, 10, 50, 50)%Q 0.9%Q [];
              mkDetection (15, 15, 50, 50)%Q 0.8%Q []] 0.7%Q = Some picked2 /\
    (length picked1 <= length picked2)%nat.
Proof.
  apply (suppress_monotone_up_to_three
           [mkDetection (10, 10, 50, 50)%Q 0.9%Q [];
            mkDetection (15, 15, 50, 50)%Q 0.8%Q []] 0.5%Q 0.7%Q).
  - simpl. lia.
  - vm_compute. discriminate.
Defined.


(* ===================================================================== *)
(** * Part III: further properties of the code                            *)
(* ===================================================================== *)

(** ** Intersection over union: range and invariances *)

Section iou_geometry.
Local Open Scope Q_scope.

Lemma Qle_bool_sub (a b : Q) : Qle_bool a b = Qle_bool (a - b) 0.
Proof.
  destruct (Qle_bool (a - b) 0) eqn:E.
  - apply Qle_bool_iff. apply Qle_bool_iff in E. lra.
  - apply Qle_bool_false. apply Qle_bool_false in E. lra.
Qed.

Lemma calculateIOU_extent (x1 y1 w1 h1 x2 y2 w2 h2 : Q) :
  calculateIOU (x1, y1, w1, h1) (x2, y2, w2, h2) =
  iou_of_extent (Qmin (x1 + w1) (x2 + w2) - Qmax x1 x2)
                (Qmin (y1 + h1) (y2 + h2) - Qmax y1 y2)
                (w1 * h1) (w2 * h2).
Proof.
  unfold calculateIOU, iou_of_extent.
  rewrite (Qle_bool_sub (Qmin (x1 + w1) (x2 + w2))).
  rewrite (Qle_bool_sub (Qmin (y1 + h1) (y2 + h2))).
  reflexivity.
Qed.

Lemma Qle_bool_scaled (k a a' : Q) :
  0 < k -> a' == k * a -> Qle_bool a' 0 = Qle_bool a 0.
Proof.
  intros Hk Ha. destruct (Qle_bool a 0) eqn:E.
  - apply Qle_bool_iff. apply Qle_bool_iff in E. rewrite Ha. nra.
  - apply Qle_bool_false. apply Qle_bool_false in E. rewrite Ha. nra.
Qed.

(** Stretching the plane by positive factors multiplies the intersection
    and both areas by the same number, and leaves the quotient as it is. *)
Lemma iou_of_extent_scaled (kx ky dx dy a1 a2 dx' dy' a1' a2' : Q) :
  0 < kx -> 0 < ky ->
  dx' == kx * dx -> dy' == ky * dy ->
  a1' == kx * ky * a1 -> a2' == kx * ky * a2 ->
  option_Forall2 Qeq (iou_of_extent dx' dy' a1' a2') (iou_of_extent dx dy a1 a2).
Proof.
  intros Hkx Hky Hdx Hdy Ha1 Ha2. unfold iou_of_extent.
  rewrite (Qle_bool_scaled kx dx dx' Hkx Hdx), (Qle_bool_scaled ky dy dy' Hky Hdy).
  destruct (_ || _); [constructor; reflexivity |].
  assert (Hk : 0 < kx * ky) by nra.
  assert (Hi : dx' * dy' == kx * ky * (dx * dy)) by (rewrite Hdx, Hdy; ring).
  assert (Hu : a1' + a2' - dx' * dy' == kx * ky * (a1 + a2 - dx * dy))
    by (rewrite Hi, Ha1, Ha2; ring).
  destruct (Qeq_dec (a1 + a2 - dx * dy) 0) as [Hz | Hz].
  - assert (Hz' : a1' + a2' - dx' * dy' == 0) by (rewrite Hu, Hz; ring).
    rewrite (js_div_None _ _ Hz), (js_div_None _ _ Hz'). constructor.
  - assert (Hz' : ~ a1' + a2' - dx' * dy' == 0).
    { rewrite Hu. intros H0. apply Hz.
      apply Qmult_integral in H0 as [H0 | H0]; [lra | exact H0]. }
    rewrite (js_div_Some _ _ Hz), (js_div_Some _ _ Hz').
    constructor. rewrite Hu, Hi. field. split; [exact Hz | lra].
Qed.

Lemma Qmax_scaled (k a b : Q) : 0 < k -> Qmax (k * a) (k * b) == k * Qmax a b.
Proof.
  intros Hk. destruct (Q.max_spec a b) as [[Hab ->] | [Hab ->]].
  - apply Q.max_r. nra.
  - apply Q.max_l. nra.
Qed.

Lemma Qmin_scaled (k a b : Q) : 0 < k -> Qmin (k * a) (k * b) == k * Qmin a b.
Proof.
  intros Hk. destruct (Q.min_spec a b) as [[Hab ->] | [Hab ->]].
  - apply Q.min_l. nra.
  - apply Q.min_r. nra.
Qed.

Lemma calculateIOU_scale_box (kx ky : Q) (box1 box2 : Box) :
  0 < kx -> 0 < ky ->
  option_Forall2 Qeq
    (calculateIOU (scale_box kx ky box1) (scale_box kx ky box2))
    (calculateIOU box1 box2).
Proof.
  intros Hkx Hky.
  destruct box1 as [[[x1 y1] w1] h1], box2 as [[[x2 y2] w2] h2].
  unfold scale_box. rewrite !calculateIOU_extent.
  apply (iou_of_extent_scaled kx ky); try assumption.
  - rewrite <- !Qmult_plus_distr_r, Qmin_scaled, Qmax_scaled by assumption. ring.
  - rewrite <- !Qmult_plus_distr_r, Qmin_scaled, Qmax_scaled by assumption. ring.
  - ring.
  - ring.
Qed.

Lemma calculateIOU_translate_box (tx ty : Q) (box1 box2 : Box) :
  option_Forall2 Qeq
    (calculateIOU (translate_box tx ty box1) (translate_box tx ty box2))
    (calculateIOU box1 box2).
Proof.
  destruct box1 as [[[x1 y1] w1] h1], box2 as [[[x2 y2] w2] h2].
  unfold translate_box. rewrite !calculateIOU_extent.
  apply (iou_of_extent_scaled 1 1); try reflexivity.
  - assert (x1 + tx + w1 == x1 + w1 + tx) as -> by ring.
    assert (x2 + tx + w2 == x2 + w2 + tx) as -> by ring.
    rewrite Q.plus_min_distr_r, Q.plus_max_distr_r. ring.
  - assert (y1 + ty + h1 == y1 + h1 + ty) as -> by ring.
    assert (y2 + ty + h2 == y2 + h2 + ty) as -> by ring.
    rewrite Q.plus_min_distr_r, Q.plus_max_distr_r. ring.
  - ring.
  - ring.
Qed.

(** The intersection rectangle lies in both boxes. *)
Lemma extent_bounds (x1 y1 w1 h1 x2 y2 w2 h2 : Q) :
  0 <= w1 -> 0 <= h1 -> 0 <= w2 -> 0 <= h2 ->
  let dx := Qmin (x1 + w1) (x2 + w2) - Qmax x1 x2 in
  let dy := Qmin (y1 + h1) (y2 + h2) - Qmax y1 y2 in
  dx <= w1 /\ dx <= w2 /\ dy <= h1 /\ dy <= h2.
Proof.
  intros Hw1 Hh1 Hw2 Hh2. cbv zeta.
  pose proof (Q.le_max_l x1 x2). pose proof (Q.le_max_r x1 x2).
  pose proof (Q.le_max_l y1 y2). pose proof (Q.le_max_r y1 y2).
  pose proof (Q.le_min_l (x1 + w1) (x2 + w2)).
  pose proof (Q.le_min_r (x1 + w1) (x2 + w2)).
  pose proof (Q.le_min_l (y1 + h1) (y2 + h2)).
  pose proof (Q.le_min_r (y1 + h1) (y2 + h2)).
  repeat split; lra.
Qed.

Lemma iou_of_extent_overlap (dx dy a1 a2 : Q) :
  0 < dx -> 0 < dy -> ~ a1 + a2 - dx * dy == 0 ->
  iou_of_extent dx dy a1 a2 = Some (dx * dy / (a1 + a2 - dx * dy)).
Proof.
  intros Hdx Hdy Hu. unfold iou_of_extent.
  apply Qle_bool_false in Hdx, Hdy. rewrite Hdx, Hdy. simpl.
  apply js_div_Some, Hu.
Qed.

Lemma iou_of_extent_no_overlap (dx dy a1 a2 : Q) :
  dx <= 0 \/ dy <= 0 -> iou_of_extent dx dy a1 a2 = Some 0.
Proof.
  unfold iou_of_extent. intros [H | H]; apply Qle_bool_iff in H; rewrite H;
    [reflexivity | rewrite orb_true_r; reflexivity].
Qed.

Lemma iou_of_extent_range (dx dy a1 a2 : Q) :
  dx * dy <= a1 \/ dx <= 0 \/ dy <= 0 ->
  dx * dy <= a2 \/ dx <= 0 \/ dy <= 0 ->
  exists iou, iou_of_extent dx dy a1 a2 = Some iou /\ 0 <= iou /\ iou <= 1.
Proof.
  intros H1 H2.
  destruct (Qlt_le_dec 0 dx) as [Hdx | Hdx];
    [destruct (Qlt_le_dec 0 dy) as [Hdy | Hdy] |].
  - assert (Hi : 0 < dx * dy) by nra.
    assert (H1' : dx * dy <= a1) by (destruct H1 as [? | [? | ?]]; lra).
    assert (H2' : dx * dy <= a2) by (destruct H2 as [? | [? | ?]]; lra).
    rewrite iou_of_extent_overlap by (assumption || lra).
    eexists. split; [reflexivity |]. split.
    + apply Qle_shift_div_l; lra.
    + apply Qle_shift_div_r; lra.
  - rewrite iou_of_extent_no_overlap by (right; assumption).
    exists 0. repeat split; lra.
  - rewrite iou_of_extent_no_overlap by (left; assumption).
    exists 0. repeat split; lra.
Qed.

Lemma calculateIOU_bounds (box1 box2 : Box) :
  (let '(_, _, w, h) := box1 in 0 <= w /\ 0 <= h) ->
  (let '(_, _, w, h) := box2 in 0 <= w /\ 0 <= h) ->
  exists iou, calculateIOU box1 box2 = Some iou /\ 0 <= iou /\ iou <= 1.
Proof.
  destruct box1 as [[[x1 y1] w1] h1], box2 as [[[x2 y2] w2] h2].
  intros [Hw1 Hh1] [Hw2 Hh2]. rewrite calculateIOU_extent.
  destruct (extent_bounds x1 y1 w1 h1 x2 y2 w2 h2) as (Hx1 & Hx2 & Hy1 & Hy2);
    try assumption.
  set (dx := Qmin (x1 + w1) (x2 + w2) - Qmax x1 x2) in *.
  set (dy := Qmin (y1 + h1) (y2 + h2) - Qmax y1 y2) in *.
  clearbody dx dy.
  apply iou_of_extent_range.
  - destruct (Qlt_le_dec 0 dx); [| right; left; assumption].
    destruct (Qlt_le_dec 0 dy); [| right; right; assumption].
    left. nra.
  - destruct (Qlt_le_dec 0 dx); [| right; left; assumption].
    destruct (Qlt_le_dec 0 dy); [| right; right; assumption].
    left. nra.
Qed.

(** The IoU of two boxes with non-negative sizes is a number between 0
    and 1. *)
Theorem calculateIOU_range (x1 y1 w1 h1 x2 y2 w2 h2 : Q) :
  0 <= w1 -> 0 <= h1 -> 0 <= w2 -> 0 <= h2 ->
  exists iou,
    calculateIOU (x1, y1, w1, h1) (x2, y2, w2, h2) = Some iou /\
    0 <= iou /\ iou <= 1.
Proof.
  intros Hw1 Hh1 Hw2 Hh2.
  apply (calculateIOU_bounds (x1, y1, w1, h1) (x2, y2, w2, h2)); split; assumption.
Qed.

Lemma calculateIOU_range_witness :
  exists iou,
    calculateIOU (10, 10, 50, 50) (15, 15, 50, 50) = Some iou /\
    0 <= iou /\ iou <= 1.
Proof.
  apply (calculateIOU_range 10 10 50 50 15 15 50 50); vm_compute; discriminate.
Defined.

(** In exact arithmetic, moving both boxes by the same vector, or
    stretching both by the same positive factors (one per axis), does not
    change their IoU.  (In binary64 the two values agree up to rounding
    only.) *)
Theorem calculateIOU_invariant (tx ty kx ky : Q) (box1 box2 : Box) :
  0 < kx -> 0 < ky ->
  option_Forall2 Qeq
    (calculateIOU (translate_box tx ty box1) (translate_box tx ty box2))
    (calculateIOU box1 box2) /\
  option_Forall2 Qeq
    (calculateIOU (scale_box kx ky box1) (scale_box kx ky box2))
    (calculateIOU box1 box2).
Proof.
  intros Hkx Hky. split.
  - apply calculateIOU_translate_box.
  - apply calculateIOU_scale_box; assumption.
Qed.

Lemma calculateIOU_invariant_witness :
  option_Forall2 Qeq
    (calculateIOU (translate_box 3 (-7) (10, 10, 50, 50))
                  (translate_box 3 (-7) (15, 15, 50, 50)))
    (calculateIOU (10, 10, 50, 50) (15, 15, 50, 50)) /\
  option_Forall2 Qeq
    (calculateIOU (scale_box 2 1.5 (10, 10, 50, 50))
                  (scale_box 2 1.5 (15, 15, 50, 50)))
    (calculateIOU (10, 10, 50, 50) (15, 15, 50, 50)).
Proof.
  apply (calculateIOU_invariant 3 (-7) 2 1.5); reflexivity.
Defined.

(** In exact arithmetic, for a box that lies inside another one the IoU is
    the quotient of the two areas.  (In binary64 the value is this quotient
    up to rounding only.) *)
Theorem calculateIOU_contained (x1 y1 w1 h1 x2 y2 w2 h2 : Q) :
  0 < w2 -> 0 < h2 ->
  x1 <= x2 -> x2 + w2 <= x1 + w1 -> y1 <= y2 -> y2 + h2 <= y1 + h1 ->
  exists iou,
    calculateIOU (x1, y1, w1, h1) (x2, y2, w2, h2) = Some iou /\
    iou == (w2 * h2) / (w1 * h1).
Proof.
  intros Hw2 Hh2 Hx Hxw Hy Hyh. rewrite calculateIOU_extent.
  assert (Hdx : Qmin (x1 + w1) (x2 + w2) - Qmax x1 x2 == w2)
    by (rewrite Q.min_r, Q.max_r by assumption; ring).
  assert (Hdy : Qmin (y1 + h1) (y2 + h2) - Qmax y1 y2 == h2)
    by (rewrite Q.min_r, Q.max_r by assumption; ring).
  set (dx := Qmin (x1 + w1) (x2 + w2) - Qmax x1 x2) in *.
  set (dy := Qmin (y1 + h1) (y2 + h2) - Qmax y1 y2) in *.
  clearbody dx dy.
  assert (Hw1 : w2 <= w1) by lra. assert (Hh1 : h2 <= h1) by lra.
  assert (Ha : 0 < w1 * h1) by nra.
  rewrite iou_of_extent_overlap.
  - eexists. split; [reflexivity |]. rewrite Hdx, Hdy. field. lra.
  - lra.
  - lra.
  - rewrite Hdx, Hdy. lra.
Qed.

Lemma calculateIOU_contained_witness :
  exists iou,
    calculateIOU (0, 0, 10, 10) (2, 3, 5, 4) = Some iou /\
    iou == (5 * 4) / (10 * 10).
Proof.
  apply (calculateIOU_contained 0 0 10 10 2 3 5 4); vm_compute; reflexivity || discriminate.
Defined.

Lemma iou_one_same (x1 y1 w1 h1 x2 y2 w2 h2 iou : Q) :
  0 <= w1 -> 0 <= h1 -> 0 <= w2 -> 0 <= h2 ->
  calculateIOU (x1, y1, w1, h1) (x2, y2, w2, h2) = Some iou -> iou == 1 ->
  x1 == x2 /\ y1 == y2 /\ w1 == w2 /\ h1 == h2 /\ 0 < w1 /\ 0 < h1.
Proof.
  intros Hw1 Hh1 Hw2 Hh2. rewrite calculateIOU_extent.
  destruct (extent_bounds x1 y1 w1 h1 x2 y2 w2 h2) as (Hx1 & Hx2 & Hy1 & Hy2);
    try assumption.
  pose proof (Q.le_max_l x1 x2). pose proof (Q.le_max_r x1 x2).
  pose proof (Q.le_max_l y1 y2). pose proof (Q.le_max_r y1 y2).
  pose proof (Q.le_min_l (x1 + w1) (x2 + w2)).
  pose proof (Q.le_min_r (x1 + w1) (x2 + w2)).
  pose proof (Q.le_min_l (y1 + h1) (y2 + h2)).
  pose proof (Q.le_min_r (y1 + h1) (y2 + h2)).
  set (dx := Qmin (x1 + w1) (x2 + w2) - Qmax x1 x2) in *.
  set (dy := Qmin (y1 + h1) (y2 + h2) - Qmax y1 y2) in *.
  destruct (Qlt_le_dec 0 dx) as [Hdx | Hdx];
    [destruct (Qlt_le_dec 0 dy) as [Hdy | Hdy] |].
  - assert (Hi : 0 < dx * dy) by nra.
    assert (Hi1 : dx * dy <= w1 * h1) by nra.
    assert (Hi2 : dx * dy <= w2 * h2) by nra.
    rewrite iou_of_extent_overlap by (assumption || lra).
    intros [= <-] Hone.
    assert (Hu : dx * dy == w1 * h1 + w2 * h2 - dx * dy).
    { assert (Hpos : 0 < w1 * h1 + w2 * h2 - dx * dy) by lra.
      rewrite <- (Qmult_1_l (w1 * h1 + w2 * h2 - dx * dy)), <- Hone.
      field. lra. }
    assert (E1 : dx * dy == w1 * h1) by lra.
    assert (E2 : dx * dy == w2 * h2) by lra.
    assert (Dw1 : dx == w1) by nra. assert (Dh1 : dy == h1) by nra.
    assert (Dw2 : dx == w2) by nra. assert (Dh2 : dy == h2) by nra.
    unfold dx, dy in *. repeat split; lra.
  - rewrite iou_of_extent_no_overlap by (right; assumption).
    intros [= <-] Hone. exfalso. revert Hone. vm_compute. discriminate.
  - rewrite iou_of_extent_no_overlap by (left; assumption).
    intros [= <-] Hone. exfalso. revert Hone. vm_compute. discriminate.
Qed.

Lemma iou_same_one (x1 y1 w1 h1 x2 y2 w2 h2 iou : Q) :
  x1 == x2 -> y1 == y2 -> w1 == w2 -> h1 == h2 -> 0 < w1 -> 0 < h1 ->
  calculateIOU (x1, y1, w1, h1) (x2, y2, w2, h2) = Some iou -> iou == 1.
Proof.
  intros Ex Ey Ew Eh Hw Hh. rewrite calculateIOU_extent.
  assert (Hdx : Qmin (x1 + w1) (x2 + w2) - Qmax x1 x2 == w1)
    by (rewrite Q.min_l, Q.max_l by lra; ring).
  assert (Hdy : Qmin (y1 + h1) (y2 + h2) - Qmax y1 y2 == h1)
    by (rewrite Q.min_l, Q.max_l by lra; ring).
  set (dx := Qmin (x1 + w1) (x2 + w2) - Qmax x1 x2) in *.
  set (dy := Qmin (y1 + h1) (y2 + h2) - Qmax y1 y2) in *.
  clearbody dx dy.
  assert (Ha : 0 < w1 * h1) by nra.
  assert (Hi : dx * dy == w1 * h1) by (rewrite Hdx, Hdy; reflexivity).
  assert (Hb : w2 * h2 == w1 * h1) by (rewrite <- Ew, <- Eh; reflexivity).
  rewrite iou_of_extent_overlap by lra.
  intros [= <-]. rewrite Hb, Hi. field. lra.
Qed.

(** In exact arithmetic, only a box itself has IoU 1 with it: the IoU of
    two boxes with non-negative sizes is 1 exactly when they have the same
    position and size, of positive width and height.  (In binary64 the
    value 1.0 is not such a test: rounding can give it to different boxes
    and deny it to identical ones.) *)
Theorem calculateIOU_one_same_box (x1 y1 w1 h1 x2 y2 w2 h2 : Q) :
  0 <= w1 -> 0 <= h1 -> 0 <= w2 -> 0 <= h2 ->
  exists iou,
    calculateIOU (x1, y1, w1, h1) (x2, y2, w2, h2) = Some iou /\
    (iou == 1 <->
     x1 == x2 /\ y1 == y2 /\ w1 == w2 /\ h1 == h2 /\ 0 < w1 /\ 0 < h1).
Proof.
  intros Hw1 Hh1 Hw2 Hh2.
  destruct (calculateIOU_bounds (x1, y1, w1, h1) (x2, y2, w2, h2))
    as (iou & Hiou & _); [split; assumption .. |].
  exists iou. split; [exact Hiou |]. split.
  - intros Hone.
    apply (iou_one_same x1 y1 w1 h1 x2 y2 w2 h2 iou); assumption.
  - intros (Ex & Ey & Ew & Eh & Hw & Hh).
    apply (iou_same_one x1 y1 w1 h1 x2 y2 w2 h2 iou); assumption.
Qed.

Lemma calculateIOU_one_same_box_witness :
  exists iou,
    calculateIOU (10, 10, 50, 50) (15, 15, 50, 50) = Some iou /\
    (iou == 1 <->
     10 == 15 /\ 10 == 15 /\ 50 == 50 /\ 50 == 50 /\ 0 < 50 /\ 0 < 50).
Proof.
  apply (calculateIOU_one_same_box 10 10 50 50 15 15 50 50);
    vm_compute; discriminate.
Defined.

End iou_geometry.

(** ** [applyNMS]: when it throws *)

Section nms_throw.
Local Open Scope nat_scope.

Variable boxes : list Detection.
Variable iou_threshold : Q.

Lemma nms_while_step current rest picked :
  nms_while boxes iou_threshold (current :: rest) picked =
  match retain boxes iou_threshold current rest with
  | Some indexes => nms_while boxes iou_threshold indexes (picked ++ [current])
  | None => None
  end.
Proof.
  simp nms_while.
  destruct (inspect (retain boxes iou_threshold current rest))
    as [[indexes |] Heq]; simp nms_while; rewrite Heq; reflexivity.
Qed.

(** One index without a box among the tested ones is enough for the inner
    loop to throw. *)
Lemma retain_throws_rest current rest :
  Exists (fun idx => boxes !! idx = None) rest ->
  retain boxes iou_threshold current rest = None.
Proof.
  induction 1 as [idx rest Hidx | idx rest Hex IH]; simpl.
  - unfold keeps. rewrite Hidx. destruct (boxes !! current); reflexivity.
  - rewrite IH. destruct (keeps boxes iou_threshold current idx); reflexivity.
Qed.

Lemma retain_throws_current current idx rest :
  boxes !! current = None ->
  retain boxes iou_threshold current (idx :: rest) = None.
Proof. intros Hc. simpl. unfold keeps. rewrite Hc. reflexivity. Qed.

End nms_throw.

Lemma js_sort_length (compare : nat -> nat -> Q) (l : list nat) :
  length (js_sort compare l) = length l.
Proof. rewrite js_sort_perm. reflexivity. Qed.

(** [applyNMS] returns normally exactly when there is a box for every
    score, or at most one score: with two or more scores and fewer boxes
    than scores, the first round reads [.bbox] of [undefined] and throws. *)
Theorem applyNMS_throws_iff (boxes : list Detection) (scores : list Q)
    (iou_threshold : option Q) :
  applyNMS boxes scores iou_threshold = None <->
  (length boxes < length scores)%nat /\ (2 <= length scores)%nat.
Proof.
  unfold applyNMS. cbv zeta.
  set (thr := default 0.35%Q iou_threshold).
  set (indexes := js_sort (by_score_desc scores) (seq 0 (length scores))).
  assert (Hperm : indexes ≡ₚ seq 0 (length scores)) by apply js_sort_perm.
  split.
  - intros Hnone.
    destruct (decide (length scores <= length boxes)%nat) as [Hle | Hlt].
    + exfalso.
      destruct (nms_while_rounds boxes thr indexes) as (tail & _ & Hw).
      { apply Forall_forall. intros i Hi. rewrite Hperm in Hi.
        apply elem_of_seq in Hi. lia. }
      rewrite Hw in Hnone. discriminate.
    + split; [lia |].
      destruct (decide (2 <= length scores)%nat) as [H2 | H2]; [exact H2 |].
      exfalso. clear Hperm. subst indexes.
      destruct (length scores) as [| [| n]]; [| | lia];
        simpl in Hnone; simp nms_while in Hnone; discriminate.
  - intros [Hlt H2].
    assert (Hlen : length indexes = length scores)
      by (rewrite Hperm; apply length_seq).
    destruct indexes as [| current [| idx rest]] eqn:E; simpl in Hlen; try lia.
    rewrite nms_while_step.
    destruct (boxes !! current) as [box |] eqn:Ec.
    + rewrite retain_throws_rest; [reflexivity |].
      apply Exists_exists. exists (length boxes). split.
      * assert (Hin : length boxes ∈ current :: idx :: rest).
        { rewrite Hperm. apply elem_of_seq. lia. }
        apply elem_of_cons in Hin as [Heq | Hin]; [| exact Hin].
        exfalso. apply lookup_lt_Some in Ec. lia.
      * apply lookup_ge_None. lia.
    + rewrite retain_throws_current by exact Ec. reflexivity.
Qed.

(** ** [applyNMS]: the order of selection, and why an index is dropped *)

Section nms_order.
Local Open Scope nat_scope.

Variable detections : list Detection.
Variable iou_threshold : Q.

Abbreviation ranked := (ranked_before detections).
Abbreviation compare_scores := (by_score_desc (score <$> detections)).

Lemma compare_scores_le a b :
  Qle_bool (compare_scores a b) 0 = true <->
  (score_of detections b <= score_of detections a)%Q.
Proof.
  rewrite Qle_bool_iff. unfold by_score_desc. rewrite !score_at_fmap.
  split; intros H; lra.
Qed.

(** Inserting an index that is lower than all the others keeps the list
    ranked: the sort never moves an index behind a later one of the same
    score. *)
Lemma sort_insert_ranked a l :
  Forall (fun b => a < b) l -> StronglySorted ranked l ->
  StronglySorted ranked (sort_insert compare_scores a l).
Proof.
  intros Hlt Hs. revert Hlt.
  induction Hs as [| b l Hs IH Hall]; intros Hlt; simpl.
  - constructor; constructor.
  - apply Forall_cons in Hlt as [Hab Hlt].
    destruct (Qle_bool (compare_scores a b) 0) eqn:E.
    + apply compare_scores_le in E.
      constructor; [constructor; assumption |].
      constructor; [split; [exact E | intros _; exact Hab] |].
      rewrite Forall_forall in Hall, Hlt. apply Forall_forall. intros c Hc.
      destruct (Hall c Hc) as [Hcb _]. split; [lra | intros _; auto].
    + assert (Hba : (score_of detections a < score_of detections b)%Q).
      { apply Qnot_le_lt. intros Hle. apply compare_scores_le in Hle. congruence. }
      constructor; [apply IH; exact Hlt |].
      rewrite sort_insert_perm. constructor; [| exact Hall].
      split; [lra | intros Hle; lra].
Qed.

Lemma js_sort_ranked l :
  StronglySorted lt l -> StronglySorted ranked (js_sort compare_scores l).
Proof.
  induction 1 as [| a l Hs IH Hall]; simpl; [constructor |].
  apply sort_insert_ranked; [| exact IH].
  rewrite js_sort_perm. exact Hall.
Qed.

Lemma sorted_indexes_ranked : StronglySorted ranked (sorted_indexes detections).
Proof. apply js_sort_ranked, StronglySorted_seq. Qed.

(** An index of the list that the rounds do not pick lost against a picked
    index that stands before it. *)
Lemma nms_rounds_dropped indexes picked (R : nat -> nat -> Prop) :
  StronglySorted R indexes ->
  nms_rounds detections iou_threshold indexes picked ->
  forall j, j ∈ indexes -> j ∉ picked ->
    exists i, i ∈ picked /\ R i j /\ ~ iou_within detections iou_threshold i j.
Proof.
  intros Hs Hr. induction Hr as [| current rest picked Hr IH]; intros j Hj Hnot.
  - apply elem_of_nil in Hj. contradiction.
  - apply StronglySorted_inv in Hs as [Hs Hall].
    apply elem_of_cons in Hj as [-> | Hj]; [exfalso; apply Hnot; left |].
    destruct (decide (iou_within detections iou_threshold current j)) as [Hw | Hw].
    + destruct (IH (StronglySorted_sublist _ _ _ (sublist_filter _ _) Hs) j)
        as (i & Hi & HR & Hn).
      * apply list_elem_of_filter. split; assumption.
      * intros Hin. apply Hnot. right. exact Hin.
      * exists i. split; [right; exact Hi | split; assumption].
    + exists current. split; [left |]. split; [| exact Hw].
      rewrite Forall_forall in Hall. apply Hall. exact Hj.
Qed.

Lemma not_iou_within i j box_i box_j :
  detections !! i = Some box_i -> detections !! j = Some box_j ->
  ~ iou_within detections iou_threshold i j ->
  js_le (calculateIOU (bbox box_i) (bbox box_j)) iou_threshold = false.
Proof.
  intros Hi Hj Hn.
  destruct (js_le (calculateIOU (bbox box_i) (bbox box_j)) iou_threshold) eqn:E;
    [| reflexivity].
  exfalso. apply Hn. unfold js_le in E.
  destruct (calculateIOU (bbox box_i) (bbox box_j)) as [iou |] eqn:Eiou;
    [| discriminate].
  exists box_i, box_j, iou. apply Qle_bool_iff in E. auto.
Qed.

End nms_order.

(** The selection is ranked: by descending score, and among equal scores by
    ascending position in the input.  So for a non-empty input the first
    selected index is the first detection of the highest score, and it is
    always kept. *)
Theorem suppress_ranked (detections : list Detection) (iou_threshold : Q) :
  exists picked : list nat,
    suppress detections iou_threshold = Some picked /\
    StronglySorted (ranked_before detections) picked /\
    (detections <> [] ->
     exists top rest,
       picked = top :: rest /\
       forall j, (j < length detections)%nat -> j <> top ->
                 ranked_before detections top j).
Proof.
  destruct (suppress_rounds detections iou_threshold) as (picked & Hr & Hs).
  exists picked. split; [exact Hs |].
  pose proof (sorted_indexes_ranked detections) as Hranked.
  split.
  { eapply StronglySorted_sublist; [| exact Hranked].
    eapply nms_rounds_sublist; exact Hr. }
  intros Hne.
  pose proof (sorted_indexes_perm detections) as Hperm.
  inversion Hr as [Hnil | top rest picked' Hr' Heq]; subst.
  - exfalso. rewrite <- Hnil in Hperm. symmetry in Hperm.
    apply Permutation_nil_r in Hperm.
    destruct detections; [congruence | discriminate].
  - exists top, picked'. split; [reflexivity |].
    intros j Hj Hjt. rewrite <- Heq in Hranked, Hperm.
    apply StronglySorted_inv in Hranked as [_ Hall].
    rewrite Forall_forall in Hall. apply Hall.
    assert (Hin : j ∈ top :: rest) by (rewrite Hperm; apply elem_of_seq; lia).
    apply elem_of_cons in Hin as [-> | Hin]; [congruence | exact Hin].
Qed.

(** Nothing is dropped without a reason: every index of the input that
    [suppress] does not return fails the IoU test against a returned index
    that is ranked before it. *)
Theorem suppress_dropped_overlaps (detections : list Detection)
    (iou_threshold : Q) :
  exists picked : list nat,
    suppress detections iou_threshold = Some picked /\
    forall j box_j,
      detections !! j = Some box_j -> j ∉ picked ->
      exists i box_i,
        i ∈ picked /\ detections !! i = Some box_i /\
        ranked_before detections i j /\
        js_le (calculateIOU (bbox box_i) (bbox box_j)) iou_threshold = false.
Proof.
  destruct (suppress_rounds detections iou_threshold) as (picked & Hr & Hs).
  exists picked. split; [exact Hs |].
  intros j box_j Hj Hnot.
  destruct (nms_rounds_dropped detections iou_threshold _ _ _
              (sorted_indexes_ranked detections) Hr j) as (i & Hi & Hrank & Hn).
  - rewrite sorted_indexes_perm. apply elem_of_seq.
    apply lookup_lt_Some in Hj. lia.
  - exact Hnot.
  - assert (Hin : i ∈ sorted_indexes detections)
      by (eapply elem_of_sublist; [exact Hi | eapply nms_rounds_sublist; exact Hr]).
    rewrite sorted_indexes_perm in Hin. apply elem_of_seq in Hin.
    destruct (lookup_lt_is_Some_2 detections i ltac:(lia)) as [box_i Hbi].
    exists i, box_i. split; [exact Hi |]. split; [exact Hbi |].
    split; [exact Hrank |].
    eapply not_iou_within; eassumption.
Qed.

(** ** [applyNMS]: the extreme thresholds *)

Section nms_thresholds.
Local Open Scope nat_scope.

Variable detections : list Detection.
Variable iou_threshold : Q.

Hypothesis sizes : Forall nonneg_size detections.

Lemma iou_in_range i j box_i box_j :
  detections !! i = Some box_i -> detections !! j = Some box_j ->
  exists iou,
    calculateIOU (bbox box_i) (bbox box_j) = Some iou /\ (0 <= iou <= 1)%Q.
Proof.
  intros Hi Hj. rewrite Forall_forall in sizes.
  pose proof (sizes box_i (list_elem_of_lookup_2 _ _ _ Hi)) as Si.
  pose proof (sizes box_j (list_elem_of_lookup_2 _ _ _ Hj)) as Sj.
  apply calculateIOU_bounds; assumption.
Qed.

Lemma iou_within_high i j :
  (1 <= iou_threshold)%Q -> i < length detections -> j < length detections ->
  iou_within detections iou_threshold i j.
Proof.
  intros Ht Hi Hj.
  destruct (lookup_lt_is_Some_2 _ _ Hi) as [box_i Ei].
  destruct (lookup_lt_is_Some_2 _ _ Hj) as [box_j Ej].
  destruct (iou_in_range i j box_i box_j Ei Ej) as (iou & Hiou & _ & Hle).
  exists box_i, box_j, iou. repeat split; try assumption. lra.
Qed.

Lemma iou_within_negative i j :
  (iou_threshold < 0)%Q -> ~ iou_within detections iou_threshold i j.
Proof.
  intros Ht (box_i & box_j & iou & Ei & Ej & Hiou & Hle).
  destruct (iou_in_range i j box_i box_j Ei Ej) as (iou' & Hiou' & Hge & _).
  rewrite Hiou in Hiou'. injection Hiou' as <-. lra.
Qed.

End nms_thresholds.

(** In exact arithmetic, on boxes with non-negative sizes: a threshold of
    1 or more suppresses nothing ([suppress] returns all the indices), and
    a negative threshold leaves only the first pick.  (In binary64 an IoU
    can round to a value outside [0, 1]; the code then suppresses at
    threshold 1, or keeps at a negative threshold.) *)
Theorem suppress_extreme_thresholds (detections : list Detection)
    (iou_threshold : Q) :
  Forall nonneg_size detections ->
  ((1 <= iou_threshold)%Q ->
   exists picked,
     suppress detections iou_threshold = Some picked /\
     picked ≡ₚ seq 0 (length detections)) /\
  ((iou_threshold < 0)%Q -> detections <> [] ->
   exists top, suppress detections iou_threshold = Some [top]).
Proof.
  intros Hsizes. split.
  - intros Ht. exists (sorted_indexes detections).
    split; [| apply sorted_indexes_perm].
    unfold suppress, applyNMS. cbv zeta.
    apply (nms_while_all detections iou_threshold (sorted_indexes detections) []).
    + apply sorted_indexes_in_range.
    + pose proof (sorted_indexes_in_range detections) as Hr.
      induction Hr as [| a l Ha Hr IH]; constructor; [exact IH |].
      eapply Forall_impl; [exact Hr |]. intros b Hb.
      apply iou_within_high; assumption.
  - intros Ht Hne.
    destruct (suppress_rounds detections iou_threshold) as (picked & Hr & Hs).
    pose proof (sorted_indexes_perm detections) as Hperm.
    inversion Hr as [Hnil | top rest picked' Hr' Heq]; subst.
    + exfalso. rewrite <- Hnil in Hperm. symmetry in Hperm.
      apply Permutation_nil_r in Hperm.
      destruct detections; [congruence | discriminate].
    + exists top. rewrite Hs. f_equal. f_equal.
      assert (Hnone :
        filter (iou_within detections iou_threshold top) rest = []).
      { clear -Ht Hsizes. induction rest as [| b rest IH]; [reflexivity |].
        rewrite filter_cons_False; [exact IH |].
        apply iou_within_negative; assumption. }
      rewrite Hnone in Hr'. inversion Hr'. reflexivity.
Qed.

Lemma suppress_extreme_thresholds_witness :
  let detections :=
    [mkDetection (10, 10, 50, 50)%Q 0.8%Q [];
     mkDetection (15, 15, 50, 50)%Q 0.9%Q [];
     mkDetection (200, 200, 30, 30)%Q 0.7%Q []] in
  (exists picked,
     suppress detections 1%Q = Some picked /\
     picked ≡ₚ seq 0 (length detections)) /\
  (exists top, suppress detections (-1)%Q = Some [top]).
Proof.
  intros detections.
  assert (Hsizes : Forall nonneg_size detections)
    by (repeat first [apply List.Forall_nil | apply List.Forall_cons];
        split; vm_compute; discriminate).
  split.
  - apply (suppress_extreme_thresholds detections 1%Q Hsizes).
    vm_compute. discriminate.
  - apply (suppress_extreme_thresholds detections (-1)%Q Hsizes).
    + reflexivity.
    + discriminate.
Defined.

(** ** The scale ratios and the selection *)

Section nms_congruence.
Local Open Scope nat_scope.

Variables detections detections' : list Detection.
Variable iou_threshold : Q.

(** The two lists give every pair of positions the same IoU. *)
Hypothesis same_iou :
  forall i j box_i box_j,
    detections !! i = Some box_i -> detections !! j = Some box_j ->
    exists box_i' box_j',
      detections' !! i = Some box_i' /\ detections' !! j = Some box_j' /\
      option_Forall2 Qeq (calculateIOU (bbox box_i) (bbox box_j))
                         (calculateIOU (bbox box_i') (bbox box_j')).

Lemma iou_within_transfer i j :
  iou_within detections iou_threshold i j ->
  iou_within detections' iou_threshold i j.
Proof.
  intros (box_i & box_j & iou & Ei & Ej & Hiou & Hle).
  destruct (same_iou i j box_i box_j Ei Ej) as (box_i' & box_j' & Ei' & Ej' & Heq).
  rewrite Hiou in Heq. inversion Heq as [? iou' Hq |]; subst.
  exists box_i', box_j', iou'. repeat split; try assumption; [congruence |].
  rewrite <- Hq. exact Hle.
Qed.

End nms_congruence.

Lemma nms_rounds_congruence (detections detections' : list Detection)
    (iou_threshold : Q) (indexes picked : list nat) :
  (forall i j, iou_within detections iou_threshold i j <->
               iou_within detections' iou_threshold i j) ->
  nms_rounds detections iou_threshold indexes picked ->
  nms_rounds detections' iou_threshold indexes picked.
Proof.
  intros Hiff. induction 1 as [| current rest picked Hr IH]; constructor.
  assert (filter (iou_within detections' iou_threshold current) rest =
          filter (iou_within detections iou_threshold current) rest) as ->
    by (apply list_filter_iff; intros idx; symmetry; apply Hiff).
  exact IH.
Qed.

Section ratio_facts.
Local Open Scope Q_scope.

(** The boxes as the decoder writes them, [x * xRatio] and so on, against
    the same boxes before the scaling. *)
Lemma calculateIOU_ratio (kx ky x1 y1 w1 h1 x2 y2 w2 h2 : Q) :
  0 < kx -> 0 < ky ->
  option_Forall2 Qeq
    (calculateIOU (x1 * kx, y1 * ky, w1 * kx, h1 * ky)
                  (x2 * kx, y2 * ky, w2 * kx, h2 * ky))
    (calculateIOU (x1, y1, w1, h1) (x2, y2, w2, h2)).
Proof.
  intros Hkx Hky. rewrite !calculateIOU_extent.
  apply (iou_of_extent_scaled kx ky); try assumption.
  - rewrite <- !Qmult_plus_distr_l, !(Qmult_comm _ kx).
    rewrite Qmin_scaled, Qmax_scaled by assumption. ring.
  - rewrite <- !Qmult_plus_distr_l, !(Qmult_comm _ ky).
    rewrite Qmin_scaled, Qmax_scaled by assumption. ring.
  - ring.
  - ring.
Qed.

End ratio_facts.

Section decoded_ratios.

Variable predictions : list Q.
Variable num_predictions : nat.
Variable cfg : config.

Abbreviation anchors_kept :=
  (filter (kept predictions num_predictions cfg) (seq 0 num_predictions)).
Abbreviation decoded xRatio yRatio :=
  (detection_of predictions num_predictions xRatio yRatio <$> anchors_kept).

Lemma decoded_scores xRatio yRatio xRatio' yRatio' :
  score <$> decoded xRatio yRatio = score <$> decoded xRatio' yRatio'.
Proof. rewrite <- !list_fmap_compose. apply list_fmap_ext. reflexivity. Qed.

Lemma decoded_same_iou xRatio yRatio xRatio' yRatio' i j box_i box_j :
  (0 < xRatio)%Q -> (0 < yRatio)%Q -> (0 < xRatio')%Q -> (0 < yRatio')%Q ->
  decoded xRatio yRatio !! i = Some box_i ->
  decoded xRatio yRatio !! j = Some box_j ->
  exists box_i' box_j',
    decoded xRatio' yRatio' !! i = Some box_i' /\
    decoded xRatio' yRatio' !! j = Some box_j' /\
    option_Forall2 Qeq (calculateIOU (bbox box_i) (bbox box_j))
                       (calculateIOU (bbox box_i') (bbox box_j')).
Proof.
  intros Hx Hy Hx' Hy' Hi Hj.
  apply list_lookup_fmap_Some in Hi as (a & -> & Ha).
  apply list_lookup_fmap_Some in Hj as (b & -> & Hb).
  exists (detection_of predictions num_predictions xRatio' yRatio' a),
         (detection_of predictions num_predictions xRatio' yRatio' b).
  rewrite !list_lookup_fmap, Ha, Hb. split; [reflexivity |]. split; [reflexivity |].
  unfold detection_of. cbn [bbox].
  etransitivity; [apply calculateIOU_ratio; assumption |].
  symmetry. apply calculateIOU_ratio; assumption.
Qed.

End decoded_ratios.

(** In exact arithmetic, the selection does not depend on the scale
    ratios: decoding the same tensor with other positive ratios scales the
    boxes, and [suppress] returns the same indices for them.  (In binary64
    the IoU of the scaled boxes can differ in its last bits, so a threshold
    that lies between the two values changes the selection.) *)
Theorem suppress_independent_of_ratios (predictions : list Q)
    (num_predictions : nat) (cfg : config) (xRatio yRatio xRatio' yRatio' : Q) :
  (NUM_CHANNELS * num_predictions <= length predictions)%nat ->
  (0 < xRatio)%Q -> (0 < yRatio)%Q -> (0 < xRatio')%Q -> (0 < yRatio')%Q ->
  exists (results results' : list Detection) (picked : list nat),
    decode predictions num_predictions cfg xRatio yRatio = Some results /\
    decode predictions num_predictions cfg xRatio' yRatio' = Some results' /\
    suppress results (iou_threshold cfg) = Some picked /\
    suppress results' (iou_threshold cfg) = Some picked.
Proof.
  intros shape Hx Hy Hx' Hy'.
  eexists _, _. 
  destruct (suppress_rounds
              (detection_of predictions num_predictions xRatio yRatio <$>
               filter (kept predictions num_predictions cfg) (seq 0 num_predictions))
              (iou_threshold cfg)) as (picked & Hr & Hs).
  exists picked.
  split; [apply decode_eq; exact shape |].
  split; [apply decode_eq; exact shape |].
  split; [exact Hs |].
  destruct (suppress_rounds
              (detection_of predictions num_predictions xRatio' yRatio' <$>
               filter (kept predictions num_predictions cfg) (seq 0 num_predictions))
              (iou_threshold cfg)) as (picked' & Hr' & Hs').
  rewrite Hs'. f_equal.
  eapply nms_rounds_functional; [exact Hr' |].
  unfold sorted_indexes.
  rewrite (decoded_scores predictions num_predictions cfg xRatio' yRatio' xRatio yRatio).
  eapply nms_rounds_congruence; [| exact Hr].
  intros i j. split; apply iou_within_transfer; intros i0 j0 box_i box_j Hi Hj.
  - apply (decoded_same_iou predictions num_predictions cfg
             xRatio yRatio xRatio' yRatio' i0 j0 box_i box_j); assumption.
  - apply (decoded_same_iou predictions num_predictions cfg
             xRatio' yRatio' xRatio yRatio i0 j0 box_i box_j); assumption.
Qed.

Lemma suppress_independent_of_ratios_witness :
  exists (results results' : list Detection) (picked : list nat),
    decode ([35; 40; 35; 40; 50; 50; 50; 50; 0.8; 0.9] ++ replicate 102 1)%Q 2
      (mkConfig 0.5 0.5) 2 1.5 = Some results /\
    decode ([35; 40; 35; 40; 50; 50; 50; 50; 0.8; 0.9] ++ replicate 102 1)%Q 2
      (mkConfig 0.5 0.5) (100 # 96) 1 = Some results' /\
    suppress results (iou_threshold (mkConfig 0.5 0.5)) = Some picked /\
    suppress results' (iou_threshold (mkConfig 0.5 0.5)) = Some picked.
Proof.
  apply (suppress_independent_of_ratios
           ([35; 40; 35; 40; 50; 50; 50; 50; 0.8; 0.9] ++ replicate 102 1)%Q 2
           (mkConfig 0.5 0.5) 2 1.5 (100 # 96) 1);
    [vm_compute; lia | reflexivity ..].
Defined.

(** ** The decoder and the score threshold *)

(** Raising the score threshold only removes detections: what the decoder
    emits for the higher threshold is, in the same order, part of what it
    emits for the lower one. *)
Theorem decode_threshold_monotone (predictions : list Q) (num_predictions : nat)
    (cfg cfg' : config) (xRatio yRatio : Q) :
  (NUM_CHANNELS * num_predictions <= length predictions)%nat ->
  (score_threshold cfg <= score_threshold cfg')%Q ->
  exists results results' : list Detection,
    decode predictions num_predictions cfg xRatio yRatio = Some results /\
    decode predictions num_predictions cfg' xRatio yRatio = Some results' /\
    results' `sublist_of` results.
Proof.
  intros shape Hle. eexists _, _.
  split; [apply decode_eq; exact shape |].
  split; [apply decode_eq; exact shape |].
  apply fmap_sublist.
  rewrite <- (list_filter_filter_l (kept predictions num_predictions cfg')
                (kept predictions num_predictions cfg)).
  - apply sublist_filter.
  - intros i. unfold kept. rewrite !Qle_bool_false. intros H. lra.
Qed.

Lemma decode_threshold_monotone_witness :
  exists results results' : list Detection,
    decode ([10; 20; 4; 6; 0.9] ++ replicate 51 1)%Q 1 (mkConfig 0.5 0.5) 2 1.5
      = Some results /\
    decode ([10; 20; 4; 6; 0.9] ++ replicate 51 1)%Q 1 (mkConfig 0.5 0.95) 2 1.5
      = Some results' /\
    results' `sublist_of` results.
Proof.
  apply (decode_threshold_monotone ([10; 20; 4; 6; 0.9] ++ replicate 51 1)%Q 1
           (mkConfig 0.5 0.5) (mkConfig 0.5 0.95) 2 1.5).
  - vm_compute. lia.
  - vm_compute. discriminate.
Defined.

Section unchecked_facts.
Local Open Scope nat_scope.

Variable predictions : list Q.
Variable num_predictions : nat.
Variable cfg : config.
Variables xRatio yRatio : Q.

Lemma unchecked_keypoints_agree i kps :
  mapM (decode_keypoint predictions num_predictions xRatio yRatio i)
       (seq 0 NUM_KEYPOINTS) = Some kps ->
  Unchecked.decode_keypoint predictions num_predictions xRatio yRatio i
    <$> seq 0 NUM_KEYPOINTS = of_keypoint <$> kps.
Proof.
  intros H. apply mapM_Some_1 in H.
  induction H as [| kp k l ks Hk _ IH]; [reflexivity |].
  rewrite !fmap_cons, IH. f_equal.
  unfold decode_keypoint in Hk. unfold Unchecked.decode_keypoint.
  repeat match type of Hk with
  | (?m ≫= _) = Some _ =>
      destruct m eqn:?; cbn [mbind option_bind] in Hk; [| discriminate]
  end.
  injection Hk as <-. reflexivity.
Qed.

Lemma unchecked_step_agrees results results' i :
  decode_step predictions num_predictions cfg xRatio yRatio results i
    = Some results' ->
  Unchecked.decode_step predictions num_predictions cfg xRatio yRatio
    (of_detection <$> results) i = of_detection <$> results'.
Proof.
  unfold decode_step, Unchecked.decode_step. intros H.
  destruct (bbox_data predictions num_predictions !! (i + num_predictions * 4))
    as [s |]; cbn [mbind option_bind] in H; [| discriminate].
  cbn [Unchecked.js_le].
  destruct (Qle_bool s (score_threshold cfg)); [injection H as <-; reflexivity |].
  repeat match type of H with
  | (?m ≫= _) = Some _ =>
      destruct m eqn:?; cbn [mbind option_bind] in H; [| discriminate]
  end.
  injection H as <-.
  rewrite fmap_app. f_equal. cbn [fmap list_fmap].
  unfold of_detection. cbn [bbox score keypoints].
  erewrite unchecked_keypoints_agree by eassumption. reflexivity.
Qed.

Lemma unchecked_loop_agrees l results results' :
  decode_loop predictions num_predictions cfg xRatio yRatio l results
    = Some results' ->
  Unchecked.decode_loop predictions num_predictions cfg xRatio yRatio l
    (of_detection <$> results) = of_detection <$> results'.
Proof.
  revert results. induction l as [| i l IH]; simpl; intros results H.
  - injection H as <-. reflexivity.
  - destruct (decode_step _ _ _ _ _ results i) as [r |] eqn:E;
      cbn [mbind option_bind] in H; [| discriminate].
    rewrite (unchecked_step_agrees _ _ _ E). apply IH. exact H.
Qed.

Lemma unchecked_loop_app l1 l2 results :
  Unchecked.decode_loop predictions num_predictions cfg xRatio yRatio
    (l1 ++ l2) results =
  Unchecked.decode_loop predictions num_predictions cfg xRatio yRatio l2
    (Unchecked.decode_loop predictions num_predictions cfg xRatio yRatio
       l1 results).
Proof.
  revert results. induction l1 as [| i l1 IH]; intros results; [reflexivity |].
  simpl. apply IH.
Qed.

End unchecked_facts.

(** The decoding loop does not check the length of the buffer.  Where
    every read is inside the buffer (where [decode] has a result), the
    loop returns those detections.  On a buffer shorter than the five box
    channels it still returns a list: the score of the last anchor is read
    past the end, [undefined <= score_threshold] is false, so this anchor
    is not skipped, and the last detection of the result has the score
    [undefined] and 17 keypoints whose coordinates are NaN and whose scores
    are [undefined]. *)
Theorem decode_short_buffer (predictions : list Q) (num_predictions : nat)
    (cfg : config) (xRatio yRatio : Q) :
  (forall results,
     decode predictions num_predictions cfg xRatio yRatio = Some results ->
     Unchecked.decode predictions num_predictions cfg xRatio yRatio =
     of_detection <$> results) /\
  ((length predictions < num_predictions * NUM_BBOX_ATTRS)%nat ->
   exists results d,
     Unchecked.decode predictions num_predictions cfg xRatio yRatio =
     results ++ [d] /\
     Unchecked.score d = None /\
     Unchecked.keypoints d =
     replicate 17 (Unchecked.mkKeypoint None None None)).
Proof.
  split.
  - intros results H.
    apply (unchecked_loop_agrees predictions num_predictions cfg xRatio yRatio
             _ [] results H).
  - intros Hshort. unfold NUM_BBOX_ATTRS in Hshort.
    destruct num_predictions as [| n]; [lia |].
    unfold Unchecked.decode. rewrite seq_S, unchecked_loop_app. cbn [plus].
    set (results := Unchecked.decode_loop _ _ _ _ _ (seq 0 n) []).
    cbn [Unchecked.decode_loop]. unfold Unchecked.decode_step.
    assert (Hscore : bbox_data predictions (S n) !! (n + S n * 4)%nat = None).
    { unfold bbox_data, subarray. apply lookup_ge_None.
      rewrite length_take, length_drop. unfold NUM_BBOX_ATTRS. lia. }
    rewrite Hscore. cbn [Unchecked.js_le].
    eexists results, _. split; [reflexivity |]. cbn [Unchecked.score Unchecked.keypoints].
    split; [reflexivity |].
    assert (Hkp : forall j, keypoints_data predictions (S n) !! j = None).
    { intros j. unfold keypoints_data, subarray_from. apply lookup_ge_None.
      rewrite length_drop. unfold NUM_BBOX_ATTRS. lia. }
    unfold NUM_KEYPOINTS.
    change 17%nat with (length (seq 0 17)) at 2.
    generalize (seq 0 17). intros l. induction l as [| kp l IH]; [reflexivity |].
    rewrite fmap_cons, IH. cbn [length replicate]. f_equal.
    unfold Unchecked.decode_keypoint. rewrite !Hkp. reflexivity.
Qed.

Lemma decode_short_buffer_witness :
  (exists results,
     decode ([10; 20; 4; 6; 0.9] ++ replicate 51 1)%Q 1 (mkConfig 0.5 0.5) 2 1.5
       = Some results /\
     Unchecked.decode ([10; 20; 4; 6; 0.9] ++ replicate 51 1)%Q 1
       (mkConfig 0.5 0.5) 2 1.5 = of_detection <$> results) /\
  exists results d,
    Unchecked.decode [10; 20; 4; 6]%Q 1 (mkConfig 0.5 0.5) 2 1.5 =
    results ++ [d] /\
    Unchecked.score d = None /\
    Unchecked.keypoints d =
    replicate 17 (Unchecked.mkKeypoint None None None).
Proof.
  split.
  - eexists. split; [vm_compute; reflexivity |].
    apply (decode_short_buffer ([10; 20; 4; 6; 0.9] ++ replicate 51 1)%Q 1
             (mkConfig 0.5 0.5) 2 1.5).
    vm_compute. reflexivity.
  - apply (decode_short_buffer [10; 20; 4; 6]%Q 1 (mkConfig 0.5 0.5) 2 1.5).
    vm_compute. lia.
Defined.

(** ** The whole post-processing *)

Lemma StronglySorted_from_lookup {A : Type} (R : A -> A -> Prop) (l : list A) :
  (forall i j a b, (i < j)%nat -> l !! i = Some a -> l !! j = Some b -> R a b) ->
  StronglySorted R l.
Proof.
  induction l as [| x l IH]; intros H; constructor.
  - apply IH. intros i j a b Hij Hi Hj. apply (H (S i) (S j)); [lia | exact Hi | exact Hj].
  - apply Forall_forall. intros y Hy. apply list_elem_of_lookup in Hy as [j Hj].
    apply (H 0%nat (S j)); [lia | reflexivity | exact Hj].
Qed.

Section postprocess_facts.
Local Open Scope nat_scope.

Variable predictions : list Q.
Variable num_predictions : nat.
Variable cfg : config.
Variables xRatio yRatio : Q.

Hypothesis shape : NUM_CHANNELS * num_predictions <= length predictions.

Abbreviation candidates :=
  (filter (kept predictions num_predictions cfg) (seq 0 num_predictions)).
Abbreviation decoded_all :=
  (detection_of predictions num_predictions xRatio yRatio <$> candidates).

Lemma candidates_spec i :
  i ∈ candidates <->
  i < num_predictions /\
  (score_threshold cfg < channel predictions num_predictions 4 i)%Q.
Proof.
  rewrite list_elem_of_filter, elem_of_seq. unfold kept.
  rewrite Qle_bool_false. split; intros [? ?]; split; (assumption || lia).
Qed.

Lemma candidates_NoDup : NoDup candidates.
Proof. apply NoDup_filter, NoDup_seq. Qed.

(** What [postprocess] returns, through the indices that [suppress]
    picks and the anchors these stand for. *)
Lemma postprocess_through picked :
  nms_rounds decoded_all (iou_threshold cfg) (sorted_indexes decoded_all) picked ->
  suppress decoded_all (iou_threshold cfg) = Some picked ->
  exists (anchors : list nat) (filtered : list Detection),
    postprocess predictions num_predictions cfg xRatio yRatio = Some filtered /\
    select decoded_all picked = Some filtered /\
    Forall2 (fun p i => candidates !! p = Some i) picked anchors /\
    filtered = detection_of predictions num_predictions xRatio yRatio <$> anchors.
Proof.
  intros Hr Hs.
  assert (Hrange : Forall (fun p => p < length candidates) picked).
  { eapply Forall_impl;
      [eapply Forall_sublist;
         [eapply nms_rounds_sublist; exact Hr | apply sorted_indexes_in_range] |].
    intros p Hp. simpl in Hp. rewrite length_fmap in Hp. exact Hp. }
  assert (Hanchors : is_Some (mapM (fun p => candidates !! p) picked)).
  { apply mapM_is_Some_2. eapply Forall_impl; [exact Hrange |].
    intros p Hp. apply lookup_lt_is_Some_2. exact Hp. }
  destruct Hanchors as [anchors Hanchors].
  apply mapM_Some_1 in Hanchors.
  exists anchors, (detection_of predictions num_predictions xRatio yRatio <$> anchors).
  assert (Hsel : select decoded_all picked =
                 Some (detection_of predictions num_predictions xRatio yRatio <$> anchors)).
  { unfold select. apply mapM_Some. apply Forall2_fmap_r.
    eapply Forall2_impl; [exact Hanchors |].
    intros p i Hp. unfold compose. rewrite list_lookup_fmap, Hp. reflexivity. }
  split; [| split; [exact Hsel | split; [exact Hanchors | reflexivity]]].
  unfold postprocess. rewrite decode_eq by exact shape.
  cbn [mbind option_bind]. rewrite Hs. cbn [mbind option_bind]. exact Hsel.
Qed.

End postprocess_facts.

(** The result of the post-processing, when the buffer holds the tensor:
    the detections of distinct anchors whose score exceeds the score
    threshold, each as the decoder computes it; in descending order of
    score; no later one overlapping an earlier one with an IoU above the IoU
    threshold; and empty only when no anchor exceeds the score threshold. *)
Theorem postprocess_output (predictions : list Q) (num_predictions : nat)
    (cfg : config) (xRatio yRatio : Q) :
  (NUM_CHANNELS * num_predictions <= length predictions)%nat ->
  exists (anchors : list nat) (filtered : list Detection),
    postprocess predictions num_predictions cfg xRatio yRatio = Some filtered /\
    NoDup anchors /\
    Forall2 (fun i d =>
               (i < num_predictions)%nat /\
               (score_threshold cfg < channel predictions num_predictions 4 i)%Q /\
               d = detection_of predictions num_predictions xRatio yRatio i)
            anchors filtered /\
    StronglySorted (fun d d' => (score d' <= score d)%Q) filtered /\
    StronglySorted
      (fun d d' => exists iou,
           calculateIOU (bbox d) (bbox d') = Some iou /\
           (iou <= iou_threshold cfg)%Q) filtered /\
    (filtered <> [] <->
     exists i, (i < num_predictions)%nat /\
               (score_threshold cfg < channel predictions num_predictions 4 i)%Q).
Proof.
  intros shape.
  set (ks := filter (kept predictions num_predictions cfg) (seq 0 num_predictions)).
  set (results := detection_of predictions num_predictions xRatio yRatio <$> ks).
  destruct (suppress_rounds results (iou_threshold cfg)) as (picked & Hr & Hs).
  destruct (postprocess_through predictions num_predictions cfg xRatio yRatio
              shape picked Hr Hs) as (anchors & filtered & Hpost & Hsel & Hanch & Hf).
  fold ks in Hanch. fold ks results in Hsel.
  pose proof (nms_rounds_sublist _ _ _ _ Hr) as Hsub.
  assert (Hnodup : NoDup picked).
  { eapply sublist_NoDup; [| exact Hsub].
    rewrite sorted_indexes_perm. apply NoDup_seq. }
  assert (Hlen : length filtered = length picked)
    by (eapply select_length; exact Hsel).
  assert (Hpos : forall a d, filtered !! a = Some d ->
            exists p, picked !! a = Some p /\ results !! p = Some d).
  { intros a d Ha.
    destruct (lookup_lt_is_Some_2 picked a) as [p Hp].
    { rewrite <- Hlen. eapply lookup_lt_Some. exact Ha. }
    exists p. split; [exact Hp |].
    rewrite <- (select_lookup results picked filtered Hsel a p Hp). exact Ha. }
  exists anchors, filtered. split; [exact Hpost |]. split; [| split; [| split; [| split]]].
  - apply NoDup_alt. intros a b i Ha Hb.
    destruct (Forall2_lookup_r _ _ _ _ _ Hanch Ha) as (p & Hp & Hpi).
    destruct (Forall2_lookup_r _ _ _ _ _ Hanch Hb) as (q & Hq & Hqi).
    assert (p = q) as <-
      by (eapply NoDup_lookup; [apply candidates_NoDup | exact Hpi | exact Hqi]).
    eapply NoDup_lookup; eassumption.
  - subst filtered. apply Forall2_fmap_r, Forall_Forall2_diag, Forall_forall.
    intros i Hi. apply list_elem_of_lookup in Hi as [a Ha].
    destruct (Forall2_lookup_r _ _ _ _ _ Hanch Ha) as (p & _ & Hpi).
    apply list_elem_of_lookup_2 in Hpi.
    apply (candidates_spec predictions num_predictions cfg shape) in Hpi as [Hlt Hthr].
    unfold compose. split; [exact Hlt | split; [exact Hthr | reflexivity]].
  - apply StronglySorted_from_lookup. intros a b d d' Hab Ha Hb.
    destruct (Hpos a d Ha) as (p & Hp & Hd), (Hpos b d' Hb) as (q & Hq & Hd').
    pose proof (StronglySorted_sublist _ _ _ Hsub (sorted_indexes_sorted results)) as Hsc.
    pose proof (StronglySorted_lookup _ _ _ _ _ _ Hsc Hab Hp Hq) as Hle.
    unfold score_of in Hle. rewrite Hd, Hd' in Hle. exact Hle.
  - apply StronglySorted_from_lookup. intros a b d d' Hab Ha Hb.
    destruct (Hpos a d Ha) as (p & Hp & Hd), (Hpos b d' Hb) as (q & Hq & Hd').
    pose proof (nms_rounds_pairwise _ _ _ _ Hr) as Hpair.
    destruct (StronglySorted_lookup _ _ _ _ _ _ Hpair Hab Hp Hq)
      as (box1 & box2 & iou & H1 & H2 & Hiou & Hle).
    rewrite Hd in H1. rewrite Hd' in H2. injection H1 as <-. injection H2 as <-.
    exists iou. split; assumption.
  - split.
    + intros Hne. destruct filtered as [| d filtered']; [congruence |].
      destruct (Hpos 0%nat d eq_refl) as (p & _ & Hd).
      unfold results in Hd. apply list_lookup_fmap_Some in Hd as (i & _ & Hi).
      apply list_elem_of_lookup_2 in Hi. apply (candidates_spec predictions num_predictions cfg shape) in Hi.
      exists i. exact Hi.
    + intros (i & Hi). apply (candidates_spec predictions num_predictions cfg shape) in Hi. fold ks in Hi.
      assert (Hres : results <> []).
      { unfold results. destruct ks; [apply elem_of_nil in Hi; contradiction |].
        discriminate. }
      pose proof (sorted_indexes_perm results) as Hperm.
      inversion Hr as [Hnil | top rest picked' Hr' Heq]; subst picked.
      * exfalso. rewrite <- Hnil in Hperm. symmetry in Hperm.
        apply Permutation_nil_r in Hperm.
        destruct results; [congruence | discriminate].
      * destruct filtered; [discriminate Hlen | discriminate].
Qed.

Lemma postprocess_output_witness :
  exists (anchors : list nat) (filtered : list Detection),
    postprocess ([10; 20; 4; 6; 0.9] ++ replicate 51 1)%Q 1 (mkConfig 0.5 0.5) 2 1.5
      = Some filtered /\
    NoDup anchors /\
    Forall2 (fun i d =>
               (i < 1)%nat /\
               (score_threshold (mkConfig 0.5 0.5) <
                channel ([10; 20; 4; 6; 0.9] ++ replicate 51 1)%Q 1 4 i)%Q /\
               d = detection_of ([10; 20; 4; 6; 0.9] ++ replicate 51 1)%Q 1 2 1.5 i)
            anchors filtered /\
    StronglySorted (fun d d' => (score d' <= score d)%Q) filtered /\
    StronglySorted
      (fun d d' => exists iou,
           calculateIOU (bbox d) (bbox d') = Some iou /\
           (iou <= iou_threshold (mkConfig 0.5 0.5))%Q) filtered /\
    (filtered <> [] <->
     exists i, (i < 1)%nat /\
               (score_threshold (mkConfig 0.5 0.5) <
                channel ([10; 20; 4; 6; 0.9] ++ replicate 51 1)%Q 1 4 i)%Q).
Proof.
  apply (postprocess_output ([10; 20; 4; 6; 0.9] ++ replicate 51 1)%Q 1
           (mkConfig 0.5 0.5) 2 1.5).
  vm_compute. lia.
Defined.

(** ** Stride alignment and the scale ratios *)

Section stride_more.
Local Open Scope Z_scope.

(** [divStride] rounds half up: one dimension in closed form. *)
Lemma round_closed_form stride v :
  0 < stride -> 0 <= v ->
  (if 2 * Z.rem v stride >=? stride
   then (v / stride + 1) * stride else (v / stride) * stride) =
  (2 * v + stride) / (2 * stride) * stride.
Proof.
  intros Hs Hv.
  rewrite Z.rem_mod_nonneg by lia.
  pose proof (Z.div_mod v stride ltac:(lia)) as Hdm.
  pose proof (Z.mod_pos_bound v stride Hs) as Hm.
  destruct (Z.geb_spec (2 * (v mod stride)) stride) as [Hge | Hlt]; f_equal.
  - apply (Z.div_unique _ _ _ (2 * (v mod stride) - stride)); lia.
  - apply (Z.div_unique _ _ _ (2 * (v mod stride) + stride)); lia.
Qed.

Lemma round_monotone stride v v' :
  0 < stride -> 0 <= v -> v <= v' ->
  (if 2 * Z.rem v stride >=? stride
   then (v / stride + 1) * stride else (v / stride) * stride) <=
  (if 2 * Z.rem v' stride >=? stride
   then (v' / stride + 1) * stride else (v' / stride) * stride).
Proof.
  intros Hs Hv Hle. rewrite !round_closed_form by lia.
  apply Z.mul_le_mono_nonneg_r; [lia |].
  apply Z.div_le_mono; lia.
Qed.

Lemma round_fixed stride k :
  0 < stride -> 0 <= k ->
  (if 2 * Z.rem (k * stride) stride >=? stride
   then (k * stride / stride + 1) * stride else (k * stride / stride) * stride) =
  k * stride.
Proof.
  intros Hs Hk. rewrite Z.rem_mul by lia. rewrite Z.div_mul by lia.
  destruct (Z.geb_spec (2 * 0) stride); [lia | reflexivity].
Qed.

(** The result is off by less than half the stride upwards of it, and by
    at most half the stride downwards. *)
Lemma round_window stride v :
  0 < stride -> 0 <= v ->
  let r := (if 2 * Z.rem v stride >=? stride
            then (v / stride + 1) * stride else (v / stride) * stride) in
  2 * (v - r) < stride /\ 2 * (r - v) <= stride.
Proof.
  intros Hs Hv. cbv zeta.
  rewrite Z.rem_mod_nonneg by lia.
  pose proof (Z.div_mod v stride ltac:(lia)) as Hdm.
  pose proof (Z.mod_pos_bound v stride Hs) as Hm.
  destruct (Z.geb_spec (2 * (v mod stride)) stride); lia.
Qed.

End stride_more.

(** Aligning again changes nothing, and a larger size never gets a smaller
    aligned size. *)
Theorem divStride_idempotent_monotone (stride width height width' height' : Z) :
  (0 < stride)%Z -> (0 <= width <= width')%Z -> (0 <= height <= height')%Z ->
  (let (w, h) := divStride stride width height in divStride stride w h = (w, h)) /\
  (fst (divStride stride width height) <= fst (divStride stride width' height'))%Z /\
  (snd (divStride stride width height) <= snd (divStride stride width' height'))%Z.
Proof.
  intros Hs [Hw Hw'] [Hh Hh']. split; [| split].
  - destruct (round_multiple stride width Hs Hw) as (kw & Hkw & Ew).
    destruct (round_multiple stride height Hs Hh) as (kh & Hkh & Eh).
    unfold divStride at 1. cbv zeta. rewrite Ew, Eh.
    unfold divStride. cbv zeta. rewrite !round_fixed by assumption. reflexivity.
  - rewrite !divStride_fst. apply round_monotone; assumption.
  - rewrite !divStride_snd. apply round_monotone; assumption.
Qed.

Lemma divStride_idempotent_monotone_witness :
  (let (w, h) := divStride 32 70 100 in divStride 32 w h = (w, h)) /\
  (fst (divStride 32 70 100) <= fst (divStride 32 80 100))%Z /\
  (snd (divStride 32 70 100) <= snd (divStride 32 80 100))%Z.
Proof.
  apply (divStride_idempotent_monotone 32 70 100 80 100); lia.
Defined.

Section ratio_bounds.

(** One dimension of the source image against its aligned size. *)
Lemma ratio_of_dimension (v : Z) :
  (0 <= v)%Z ->
  let d := fst (divStride 32 v v) in
  ((v < 16)%Z -> js_div (inject_Z v) (inject_Z d) = None) /\
  ((16 <= v)%Z ->
   exists r, js_div (inject_Z v) (inject_Z d) = Some r /\
             (1 # 2 <= r)%Q /\ (r <= 47 # 32)%Q /\
             (inject_Z d * r == inject_Z v)%Q).
Proof.
  intros Hv d. subst d. rewrite divStride_fst.
  pose proof (round_zero_iff 32 v ltac:(lia) Hv) as Hzero.
  pose proof (round_ge_stride_iff 32 v ltac:(lia) Hv) as Hge.
  pose proof (round_window 32 v ltac:(lia) Hv) as Hwin. cbv zeta in Hwin.
  set (d := if (2 * Z.rem v 32 >=? 32)%Z
            then ((v / 32 + 1) * 32)%Z else (v / 32 * 32)%Z) in *.
  clearbody d. split.
  - intros Hlt. assert (d = 0%Z) as -> by (apply Hzero; lia). reflexivity.
  - intros H16.
    assert (H32 : (32 <= d)%Z) by (apply Hge; lia).
    assert (Hlo : (d <= 2 * v)%Z) by lia.
    assert (Hhi : (32 * v <= 47 * d)%Z) by lia.
    rewrite Zle_Qle in H32, Hlo, Hhi.
    rewrite !inject_Z_mult in Hlo. rewrite !inject_Z_mult in Hhi.
    change (inject_Z 32) with 32%Q in *. change (inject_Z 2) with 2%Q in *.
    change (inject_Z 47) with 47%Q in *.
    assert (Hd : ~ (inject_Z d == 0)%Q) by lra.
    rewrite (js_div_Some _ _ Hd). eexists. split; [reflexivity |].
    split; [| split].
    + apply Qle_shift_div_l; lra.
    + apply Qle_shift_div_r; lra.
    + field. exact Hd.
Qed.

End ratio_bounds.

(** The scale ratios exist exactly when the source image is at least 16
    pixels wide and high (below that a processed size is zero and the
    division has no value); they then lie between 1/2 and 47/32, and each
    maps the processed size back to the source size. *)
Theorem pipeline_ratios_defined (cols rows : Z) :
  (0 <= cols)%Z -> (0 <= rows)%Z ->
  ((cols < 16 \/ rows < 16)%Z -> pipeline_ratios cols rows = None) /\
  ((16 <= cols)%Z -> (16 <= rows)%Z ->
   exists xRatio yRatio,
     pipeline_ratios cols rows = Some (xRatio, yRatio) /\
     (1 # 2 <= xRatio <= 47 # 32)%Q /\ (1 # 2 <= yRatio <= 47 # 32)%Q /\
     (inject_Z (fst (preProcess_dynamic cols rows)) * xRatio == inject_Z cols)%Q /\
     (inject_Z (snd (preProcess_dynamic cols rows)) * yRatio == inject_Z rows)%Q).
Proof.
  intros Hc Hr.
  destruct (ratio_of_dimension cols Hc) as [Hcn Hcs].
  destruct (ratio_of_dimension rows Hr) as [Hrn Hrs].
  cbv zeta in Hcn, Hcs, Hrn, Hrs.
  assert (Ew : fst (divStride 32 cols cols) = fst (divStride 32 cols rows))
    by reflexivity.
  assert (Eh : fst (divStride 32 rows rows) = snd (divStride 32 cols rows))
    by reflexivity.
  rewrite Ew in Hcn, Hcs. rewrite Eh in Hrn, Hrs.
  unfold pipeline_ratios, preProcess_dynamic.
  destruct (divStride 32 cols rows) as [div_width div_height] eqn:E.
  cbn [fst snd] in *. split.
  - intros [Hlt | Hlt].
    + rewrite (Hcn Hlt). reflexivity.
    + rewrite (Hrn Hlt).
      destruct (js_div (inject_Z cols) (inject_Z div_width)); reflexivity.
  - intros Hc16 Hr16.
    destruct (Hcs Hc16) as (xRatio & Ex & Hx1 & Hx2 & Hx3).
    destruct (Hrs Hr16) as (yRatio & Ey & Hy1 & Hy2 & Hy3).
    exists xRatio, yRatio. rewrite Ex, Ey. repeat split; assumption.
Qed.

Lemma pipeline_ratios_defined_witness :
  ((640 < 16 \/ 480 < 16)%Z -> pipeline_ratios 640 480 = None) /\
  ((16 <= 640)%Z -> (16 <= 480)%Z ->
   exists xRatio yRatio,
     pipeline_ratios 640 480 = Some (xRatio, yRatio) /\
     (1 # 2 <= xRatio <= 47 # 32)%Q /\ (1 # 2 <= yRatio <= 47 # 32)%Q /\
     (inject_Z (fst (preProcess_dynamic 640 480)) * xRatio == inject_Z 640)%Q /\
     (inject_Z (snd (preProcess_dynamic 640 480)) * yRatio == inject_Z 480)%Q).
Proof.
  apply (pipeline_ratios_defined 640 480); lia.
Defined.

(** ** Drawing *)

Section for_each_facts.
Context {A : Type}.
Variable f : A -> option (list Canvas.call).

Lemma for_each_None (l : list A) :
  for_each f l = None <-> exists a, a ∈ l /\ f a = None.
Proof.
  induction l as [| a l IH]; simpl.
  - split; [discriminate | intros (a & Ha & _); apply elem_of_nil in Ha; contradiction].
  - destruct (f a) as [calls |] eqn:Ha; cbn [mbind option_bind].
    + destruct (for_each f l) as [calls' |] eqn:Hl; cbn [mbind option_bind].
      * split; [discriminate |]. intros (b & Hb & Hfb).
        apply elem_of_cons in Hb as [-> | Hb]; [congruence |].
        assert (Hn : Some calls' = None)
          by (apply IH; exists b; split; assumption).
        discriminate Hn.
      * split; [| reflexivity]. intros _.
        destruct (proj1 IH eq_refl) as (b & Hb & Hfb).
        exists b. split; [apply elem_of_cons; right; exact Hb | exact Hfb].
    + split; [| reflexivity]. intros _. exists a. split; [apply elem_of_cons; left; reflexivity | exact Ha].
Qed.

End for_each_facts.

Section drawing_facts.

Variable Math_sqrt : Q -> Q.
Variable measureText_width : string -> string -> Q.
Variable toFixed : Q -> nat -> string.

Lemma SKELETON_indices :
  Forall (fun edge => (edge.1 < 17)%nat /\ (edge.2 < 17)%nat) SKELETON.
Proof. unfold SKELETON. repeat constructor. Qed.

Lemma draw_connection_None (keypoints : list Keypoint) (i j : nat) :
  draw_connection keypoints (i, j) = None ->
  keypoints !! i = None \/ keypoints !! j = None.
Proof.
  unfold draw_connection.
  destruct (keypoints !! i) as [kp1 |]; [| left; reflexivity].
  destruct (keypoints !! j) as [kp2 |]; [| right; reflexivity].
  cbn [mbind option_bind].
  destruct (js_gt (kp_score kp1) 0.5); [| discriminate].
  cbn [mbind option_bind].
  destruct (js_gt (kp_score kp2) 0.5); discriminate.
Qed.

(** The connections of a prediction throw exactly when a keypoint of the
    skeleton is missing. *)
Lemma connections_None (keypoints : list Keypoint) :
  for_each (draw_connection keypoints) SKELETON = None <->
  (length keypoints < 17)%nat.
Proof.
  rewrite for_each_None. split.
  - intros ([i j] & Hin & Hnone).
    pose proof SKELETON_indices as Hidx. rewrite Forall_forall in Hidx.
    destruct (Hidx _ Hin) as [Hi Hj]. simpl in Hi, Hj.
    apply draw_connection_None in Hnone as [H | H];
      apply lookup_ge_None in H; lia.
  - intros Hlen. exists (16, 14)%nat. split.
    + unfold SKELETON. rewrite !elem_of_cons. tauto.
    + unfold draw_connection.
      rewrite (proj2 (lookup_ge_None keypoints 16)) by lia. reflexivity.
Qed.

Lemma draw_prediction_None (lineWidth : Q) (predict : Detection) :
  draw_prediction measureText_width toFixed lineWidth predict = None <->
  (length (keypoints predict) < 17)%nat.
Proof.
  rewrite <- connections_None. unfold draw_prediction.
  destruct (bbox predict) as [[[x1 y1] width] height].
  change (parseInt10 "16px Arial") with (Some 16%Z).
  cbn [fmap option_fmap option_map mbind option_bind].
  destruct (js_lt _ _);
    destruct (for_each (draw_connection (keypoints predict)) SKELETON);
    cbn [mbind option_bind]; split; congruence.
Qed.

End drawing_facts.

Section drawing_throws.

Variable Math_sqrt : Q -> Q.
Variable measureText_width : string -> string -> Q.
Variable toFixed : Q -> nat -> string.

Lemma draw_bounding_boxes_unfold (predictions : list Detection)
    (overlay_width overlay_height : Q) :
  exists lineWidth,
    draw_bounding_boxes Math_sqrt measureText_width toFixed
      predictions overlay_width overlay_height =
    (calls ← for_each (draw_prediction measureText_width toFixed lineWidth)
               predictions;
     Some (Canvas.clearRect 0 0 overlay_width overlay_height :: calls)).
Proof. eexists. reflexivity. Qed.

Lemma draw_complete (predictions : list Detection)
    (overlay_width overlay_height : Q) :
  Forall (fun d => (17 <= length (keypoints d))%nat) predictions ->
  is_Some (draw_bounding_boxes Math_sqrt measureText_width toFixed
             predictions overlay_width overlay_height).
Proof.
  intros Hall.
  destruct (draw_bounding_boxes_unfold predictions overlay_width overlay_height)
    as [lw ->].
  destruct (for_each _ predictions) as [calls |] eqn:E;
    cbn [mbind option_bind]; [eexists; reflexivity |].
  apply for_each_None in E as (p & Hp & Hd).
  apply draw_prediction_None in Hd.
  rewrite Forall_forall in Hall. apply Hall in Hp. lia.
Qed.

End drawing_throws.

(** Drawing throws exactly when some prediction has fewer than 17 keypoints
    (a keypoint that the skeleton names is [undefined] then); otherwise it
    draws, whatever the boxes, the scores and the size of the canvas. *)
Theorem draw_bounding_boxes_throws_iff (Math_sqrt : Q -> Q)
    (measureText_width : string -> string -> Q) (toFixed : Q -> nat -> string)
    (predictions : list Detection) (overlay_width overlay_height : Q) :
  draw_bounding_boxes Math_sqrt measureText_width toFixed
    predictions overlay_width overlay_height = None <->
  exists predict,
    predict ∈ predictions /\ (length (keypoints predict) < 17)%nat.
Proof.
  split.
  - intros H.
    destruct (draw_bounding_boxes_unfold Math_sqrt measureText_width toFixed
                predictions overlay_width overlay_height) as [lw E].
    rewrite E in H. clear E.
    destruct (for_each _ predictions) as [calls |] eqn:E;
      cbn [mbind option_bind] in H; [discriminate |].
    apply for_each_None in E as (p & Hp & Hd).
    exists p. split; [exact Hp |]. apply draw_prediction_None in Hd. exact Hd.
  - intros (p & Hp & Hlen).
    destruct (draw_bounding_boxes _ _ _ predictions _ _) as [calls |] eqn:E;
      [| reflexivity].
    exfalso.
    destruct (draw_bounding_boxes_unfold Math_sqrt measureText_width toFixed
                predictions overlay_width overlay_height) as [lw E'].
    rewrite E' in E. clear E'.
    destruct (for_each _ predictions) as [calls' |] eqn:F;
      cbn [mbind option_bind] in E; [| discriminate].
    assert (Hn : Some calls' = None); [| discriminate Hn].
    rewrite <- F. apply for_each_None. exists p. split; [exact Hp |].
    apply draw_prediction_None. exact Hlen.
Qed.

Section decoded_keypoints.
Local Open Scope nat_scope.

Variable predictions : list Q.
Variable num_predictions : nat.
Variable cfg : config.
Variables xRatio yRatio : Q.

Abbreviation complete := (fun d : Detection => length (keypoints d) = 17).

Lemma decode_step_keypoints results results' i :
  decode_step predictions num_predictions cfg xRatio yRatio results i
    = Some results' ->
  Forall complete results -> Forall complete results'.
Proof.
  unfold decode_step. intros H Hall.
  repeat match type of H with
  | (?m ≫= _) = Some _ =>
      destruct m eqn:?; cbn [mbind option_bind] in H; [| discriminate]
  | (if ?b then _ else _) = Some _ => destruct b
  end; injection H as <-; [exact Hall |].
  apply Forall_app. split; [exact Hall |]. constructor; [| constructor].
  cbn [keypoints].
  match goal with
  | E : mapM _ _ = Some _ |- _ => apply length_mapM in E; rewrite <- E
  end.
  apply length_seq.
Qed.

Lemma decode_loop_keypoints l results results' :
  decode_loop predictions num_predictions cfg xRatio yRatio l results
    = Some results' ->
  Forall complete results -> Forall complete results'.
Proof.
  revert results. induction l as [| i l IH]; simpl; intros results H Hall.
  - injection H as <-. exact Hall.
  - destruct (decode_step _ _ _ _ _ results i) as [r |] eqn:E;
      cbn [mbind option_bind] in H; [| discriminate].
    eapply IH; [exact H |]. eapply decode_step_keypoints; eassumption.
Qed.

Lemma postprocess_keypoints filtered :
  postprocess predictions num_predictions cfg xRatio yRatio = Some filtered ->
  Forall complete filtered.
Proof.
  unfold postprocess. intros H.
  destruct (decode _ _ _ _ _) as [results |] eqn:Hd;
    cbn [mbind option_bind] in H; [| discriminate].
  destruct (suppress _ _) as [picked |]; cbn [mbind option_bind] in H;
    [| discriminate].
  pose proof (decode_loop_keypoints _ [] results Hd (Forall_nil_2 _)) as Hall.
  unfold select in H. apply mapM_Some_1 in H.
  rewrite Forall_forall in Hall. apply Forall_forall. intros d Hin.
  apply list_elem_of_lookup in Hin as [a Ha].
  destruct (Forall2_lookup_r _ _ _ _ _ H Ha) as (p & _ & Hp).
  apply Hall. eapply list_elem_of_lookup_2. exact Hp.
Qed.

End decoded_keypoints.

Lemma pipeline_ratios_Some (cols rows : Z) :
  (16 <= cols)%Z -> (16 <= rows)%Z -> is_Some (pipeline_ratios cols rows).
Proof.
  intros Hc Hr.
  destruct (ratio_of_dimension cols ltac:(lia)) as [_ Hcs].
  destruct (ratio_of_dimension rows ltac:(lia)) as [_ Hrs].
  cbv zeta in Hcs, Hrs.
  destruct (Hcs Hc) as (xRatio & Ex & _). destruct (Hrs Hr) as (yRatio & Ey & _).
  change (fst (divStride 32 cols cols)) with (fst (divStride 32 cols rows)) in Ex.
  change (fst (divStride 32 rows rows)) with (snd (divStride 32 cols rows)) in Ey.
  unfold pipeline_ratios, preProcess_dynamic.
  destruct (divStride 32 cols rows) as [div_width div_height].
  cbn [fst snd] in *. rewrite Ex, Ey. eexists. reflexivity.
Qed.

Lemma postprocess_Some (predictions : list Q) (num_predictions : nat)
    (cfg : config) (xRatio yRatio : Q) :
  (NUM_CHANNELS * num_predictions <= length predictions)%nat ->
  is_Some (postprocess predictions num_predictions cfg xRatio yRatio).
Proof.
  intros shape.
  destruct (suppress_rounds
              (detection_of predictions num_predictions xRatio yRatio <$>
               filter (kept predictions num_predictions cfg) (seq 0 num_predictions))
              (iou_threshold cfg)) as (picked & Hr & Hs).
  destruct (postprocess_through predictions num_predictions cfg xRatio yRatio
              shape picked Hr Hs) as (anchors & filtered & Hpost & _).
  exists filtered. exact Hpost.
Qed.

(** From the model's output to the canvas.  When the source image is at
    least 16 by 16 pixels and the buffer holds the whole tensor,
    [inference_pipeline] returns a list of detections, each with exactly 17
    keypoints, and [draw_bounding_boxes] draws this list without throwing:
    it finds every keypoint that the skeleton names. *)
Theorem inference_pipeline_drawable (Math_sqrt : Q -> Q)
    (measureText_width : string -> string -> Q) (toFixed : Q -> nat -> string)
    (cols rows : Z) (output0_data : list Q) (num_predictions : nat)
    (cfg : config) (overlay_width overlay_height : Q) :
  (16 <= cols)%Z -> (16 <= rows)%Z ->
  (NUM_CHANNELS * num_predictions <= length output0_data)%nat ->
  exists filtered_results,
    inference_pipeline cols rows output0_data num_predictions cfg
      = Some filtered_results /\
    Forall (fun d => length (keypoints d) = 17%nat) filtered_results /\
    exists calls,
      draw_bounding_boxes Math_sqrt measureText_width toFixed
        filtered_results overlay_width overlay_height = Some calls.
Proof.
  intros Hc Hr shape. unfold inference_pipeline.
  destruct (pipeline_ratios_Some cols rows Hc Hr) as [ratios ->].
  cbn [mbind option_bind].
  destruct (postprocess_Some output0_data num_predictions cfg ratios.1 ratios.2
              shape) as [filtered H].
  exists filtered. split; [exact H |].
  apply postprocess_keypoints in H. split; [exact H |].
  apply draw_complete. eapply Forall_impl; [exact H |].
  intros d Hd. simpl in Hd. lia.
Qed.

Lemma inference_pipeline_drawable_witness :
  exists filtered_results,
    inference_pipeline 100 70
      ([35; 40; 35; 210; 50; 50; 50; 50; 0.8; 0.9] ++ replicate 102 1)%Q 2
      (mkConfig 0.5 0.5) = Some filtered_results /\
    Forall (fun d => length (keypoints d) = 17%nat) filtered_results /\
    exists calls,
      draw_bounding_boxes (fun q => q) (fun _ _ => 60%Q) (fun _ _ => "0.90")
        filtered_results 640 480 = Some calls.
Proof.
  apply (inference_pipeline_drawable (fun q => q) (fun _ _ => 60%Q)
           (fun _ _ => "0.90") 100 70
           ([35; 40; 35; 210; 50; 50; 50; 50; 0.8; 0.9] ++ replicate 102 1)%Q 2
           (mkConfig 0.5 0.5) 640 480); vm_compute; (discriminate || lia).
Defined.

(** ** Drawing: the skeleton and the dots *)

Section skeleton_facts.

Lemma js_gt_true (a b : Q) : js_gt a b = true <-> (b < a)%Q.
Proof. unfold js_gt. rewrite negb_true_iff. apply Qle_bool_false. Qed.

Lemma js_lt_false (a b : Q) : js_lt a b = false <-> (b <= a)%Q.
Proof. unfold js_lt. rewrite negb_false_iff. apply Qle_bool_iff. Qed.

Lemma js_lt_true (a b : Q) : js_lt a b = true <-> (a < b)%Q.
Proof. unfold js_lt. rewrite negb_true_iff. apply Qle_bool_false. Qed.

Lemma segments_skip (h rest : list Canvas.call) :
  Forall (fun c => match c with Canvas.moveTo _ _ => False | _ => True end) h ->
  segments (h ++ rest) = segments rest.
Proof.
  induction 1 as [| c h Hc _ IH]; [reflexivity |].
  destruct c; try contradiction; simpl; exact IH.
Qed.

Lemma omap_nothing {B} (g : Canvas.call -> option B) (l : list Canvas.call) :
  Forall (fun c => g c = None) l -> omap g l = [].
Proof.
  induction 1 as [| c l Hc _ IH]; [reflexivity |].
  simpl. rewrite Hc. exact IH.
Qed.

(** A connection is four path calls or nothing. *)
Lemma draw_connection_Some (keypoints : list Keypoint) (edge : nat * nat)
    (calls : list Canvas.call) :
  draw_connection keypoints edge = Some calls ->
  match segment_of keypoints edge with
  | Some (x1, y1, x2, y2) =>
      calls = [Canvas.beginPath; Canvas.moveTo x1 y1; Canvas.lineTo x2 y2;
               Canvas.stroke]
  | None => calls = []
  end.
Proof.
  destruct edge as [i j]. unfold draw_connection, segment_of. cbn [fst snd].
  destruct (keypoints !! i) as [kp1 |]; cbn [mbind option_bind]; [| discriminate].
  destruct (js_gt (kp_score kp1) 0.5); cbn [andb].
  - destruct (keypoints !! j) as [kp2 |]; cbn [mbind option_bind]; [| discriminate].
    destruct (js_gt (kp_score kp2) 0.5); intros H; injection H as <-; reflexivity.
  - intros H. injection H as <-.
    destruct (keypoints !! j); reflexivity.
Qed.

Lemma connections_segments (keypoints : list Keypoint) (edges : list (nat * nat))
    (calls rest : list Canvas.call) :
  for_each (draw_connection keypoints) edges = Some calls ->
  segments (calls ++ rest) = omap (segment_of keypoints) edges ++ segments rest /\
  Forall (fun c => dot_of c = None /\ filled_rect_of c = None /\
                   text_of c = None /\ stroked_rect_of c = None) calls.
Proof.
  revert calls. induction edges as [| edge edges IH]; simpl; intros calls H.
  - injection H as <-. split; [reflexivity | constructor].
  - destruct (draw_connection keypoints edge) as [b |] eqn:Hb;
      cbn [mbind option_bind] in H; [| discriminate].
    destruct (for_each _ edges) as [calls' |];
      cbn [mbind option_bind] in H; [| discriminate].
    injection H as <-. destruct (IH calls' eq_refl) as [IHs IHf].
    apply draw_connection_Some in Hb.
    destruct (segment_of keypoints edge) as [[[[x1 y1] x2] y2] |]; subst b.
    + split; [simpl; rewrite IHs; reflexivity |].
      repeat (constructor; [repeat split |]). exact IHf.
    + split; [exact IHs | exact IHf].
Qed.

Lemma keypoints_calls (keypoints : list Keypoint) :
  dots (concat (draw_keypoint <$> keypoints)) = omap dot_at keypoints /\
  Forall (fun c => match c with Canvas.moveTo _ _ => False | _ => True end /\
                   filled_rect_of c = None /\ text_of c = None /\
                   stroked_rect_of c = None)
         (concat (draw_keypoint <$> keypoints)).
Proof.
  induction keypoints as [| kp kps [IHd IHf]]; [split; [reflexivity | constructor] |].
  rewrite fmap_cons. cbn [concat]. unfold dots in *. rewrite omap_app, IHd.
  cbn [omap list_omap]. unfold draw_keypoint, dot_at.
  destruct (js_lt (kp_score kp) 0.5).
  - split; [reflexivity | exact IHf].
  - split; [reflexivity |]. cbn [app].
    repeat (constructor; [repeat split |]). exact IHf.
Qed.

End skeleton_facts.

Section prediction_facts.

Variable measureText_width : string -> string -> Q.
Variable toFixed : Q -> nat -> string.
Variable lineWidth : Q.

(** The text of the label of a prediction and the place of its label:
    the top of the background and the baseline of the text. *)
Abbreviation label_text predict := ("score " +:+ toFixed (score predict) 2).

Lemma draw_prediction_Some (predict : Detection) (calls : list Canvas.call) :
  draw_prediction measureText_width toFixed lineWidth predict = Some calls ->
  exists (textY rectY : Q) (connections : list Canvas.call),
    let '(x1, y1, width, height) := bbox predict in
    ((y1 - 16 - 4 < 0 /\ textY = y1 + 16 + 5 /\ rectY = y1 + 1) \/
     (0 <= y1 - 16 - 4 /\ textY = y1 - 5 /\ rectY = y1 - 16 - 4))%Q /\
    for_each (draw_connection (keypoints predict)) SKELETON = Some connections /\
    calls =
      [Canvas.set_lineWidth lineWidth;
       Canvas.set_strokeStyle "green";
       Canvas.strokeRect x1 y1 width height;
       Canvas.set_fillStyle "green";
       Canvas.set_font "16px Arial";
       Canvas.fillRect (x1 - 1) rectY
         (measureText_width "16px Arial" (label_text predict) + 4) (16 + 4);
       Canvas.set_fillStyle "white";
       Canvas.fillText (label_text predict) x1 textY;
       Canvas.set_strokeStyle "rgb(255, 165, 0)";
       Canvas.set_lineWidth 2]
      ++ connections ++ concat (draw_keypoint <$> keypoints predict).
Proof.
  unfold draw_prediction.
  destruct (bbox predict) as [[[x1 y1] width] height].
  change (parseInt10 "16px Arial") with (Some 16%Z).
  cbn [fmap option_fmap option_map mbind option_bind].
  change (inject_Z 16) with 16%Q.
  destruct (js_lt (y1 - 16 - 4) 0) eqn:Hlt;
    destruct (for_each (draw_connection (keypoints predict)) SKELETON)
      as [connections |]; cbn [mbind option_bind]; intros H;
    try discriminate; injection H as <-.
  - exists (y1 + 16 + 5)%Q, (y1 + 1)%Q, connections.
    apply js_lt_true in Hlt. split; [left; repeat split; exact Hlt |].
    split; reflexivity.
  - exists (y1 - 5)%Q, (y1 - 16 - 4)%Q, connections.
    apply js_lt_false in Hlt. split; [right; repeat split; exact Hlt |].
    split; reflexivity.
Qed.

Lemma draw_prediction_shapes (predict : Detection) (calls : list Canvas.call) :
  draw_prediction measureText_width toFixed lineWidth predict = Some calls ->
  (forall rest,
     segments (calls ++ rest) =
     omap (segment_of (keypoints predict)) SKELETON ++ segments rest) /\
  dots calls = omap dot_at (keypoints predict) /\
  exists textY rectY : Q,
    let '(x1, y1, width, height) := bbox predict in
    ((y1 - 16 - 4 < 0 /\ textY = y1 + 16 + 5 /\ rectY = y1 + 1) \/
     (0 <= y1 - 16 - 4 /\ textY = y1 - 5 /\ rectY = y1 - 16 - 4))%Q /\
    omap filled_rect_of calls =
      [((x1 - 1)%Q, rectY,
        (measureText_width "16px Arial" (label_text predict) + 4)%Q,
        (16 + 4)%Q)] /\
    omap text_of calls = [(label_text predict, x1, textY)] /\
    omap stroked_rect_of calls = [bbox predict].
Proof.
  intros H. apply draw_prediction_Some in H as (textY & rectY & conns & H).
  destruct (bbox predict) as [[[x1 y1] width] height] eqn:Hbox.
  destruct H as (Hplace & Hconns & ->).
  destruct (keypoints_calls (keypoints predict)) as [Hdots Hkps].
  pose proof (fun rest => connections_segments _ _ _ rest Hconns) as Hc.
  split; [| split].
  - intros rest. cbn [app segments]. rewrite <- app_assoc.
    rewrite (proj1 (Hc _)). f_equal. apply segments_skip.
    eapply Forall_impl; [exact Hkps |]. intros c [Hm _]. exact Hm.
  - unfold dots in *. rewrite !omap_app, Hdots.
    rewrite (omap_nothing dot_of conns).
    + reflexivity.
    + eapply Forall_impl; [exact (proj2 (Hc [])) |]. intros c [Hd _]. exact Hd.
  - exists textY, rectY. split; [exact Hplace |].
    rewrite !omap_app.
    rewrite (omap_nothing filled_rect_of conns), (omap_nothing text_of conns),
      (omap_nothing stroked_rect_of conns),
      (omap_nothing filled_rect_of (concat _)), (omap_nothing text_of (concat _)),
      (omap_nothing stroked_rect_of (concat _)).
    + repeat split; reflexivity.
    + eapply Forall_impl; [exact Hkps |]. intros c (_ & _ & _ & Ht). exact Ht.
    + eapply Forall_impl; [exact Hkps |]. intros c (_ & _ & Ht & _). exact Ht.
    + eapply Forall_impl; [exact Hkps |]. intros c (_ & Hr & _). exact Hr.
    + eapply Forall_impl; [exact (proj2 (Hc [])) |]. intros c (_ & _ & _ & Ht). exact Ht.
    + eapply Forall_impl; [exact (proj2 (Hc [])) |]. intros c (_ & _ & Ht & _). exact Ht.
    + eapply Forall_impl; [exact (proj2 (Hc [])) |]. intros c (_ & Hr & _). exact Hr.
Qed.

(** The segments and the dots of the predictions, one prediction after the
    other. *)
Lemma predictions_shapes (predictions : list Detection)
    (calls : list Canvas.call) :
  for_each (draw_prediction measureText_width toFixed lineWidth) predictions
    = Some calls ->
  segments calls =
    predictions ≫= (fun p => omap (segment_of (keypoints p)) SKELETON) /\
  dots calls = predictions ≫= (fun p => omap dot_at (keypoints p)).
Proof.
  revert calls. induction predictions as [| p ps IH]; cbn [for_each];
    intros calls H.
  - injection H as <-. split; reflexivity.
  - destruct (draw_prediction _ _ _ p) as [b |] eqn:Hb;
      cbn [mbind option_bind] in H; [| discriminate].
    destruct (for_each _ ps) as [calls' |];
      cbn [mbind option_bind] in H; [| discriminate].
    injection H as <-. destruct (IH calls' eq_refl) as [IHs IHd].
    apply draw_prediction_shapes in Hb as (Hs & Hd & _).
    split.
    + rewrite Hs, IHs, bind_cons. reflexivity.
    + unfold dots in *. rewrite omap_app, Hd, IHd, bind_cons. reflexivity.
Qed.

(** The outlines and the labels of the predictions, one prediction after
    the other. *)
Lemma predictions_labels (predictions : list Detection)
    (calls : list Canvas.call) :
  for_each (draw_prediction measureText_width toFixed lineWidth) predictions
    = Some calls ->
  omap stroked_rect_of calls = bbox <$> predictions /\
  Forall3 (fun predict rect text =>
     exists textY rectY : Q,
       let '(x1, y1, width, height) := bbox predict in
       ((y1 - 16 - 4 < 0 /\ textY = y1 + 16 + 5 /\ rectY = y1 + 1) \/
        (0 <= y1 - 16 - 4 /\ textY = y1 - 5 /\ rectY = y1 - 16 - 4))%Q /\
       rect = ((x1 - 1)%Q, rectY,
               (measureText_width "16px Arial" (label_text predict) + 4)%Q,
               (16 + 4)%Q) /\
       text = (label_text predict, x1, textY))
    predictions (omap filled_rect_of calls) (omap text_of calls).
Proof.
  revert calls. induction predictions as [| p ps IH]; cbn [for_each];
    intros calls H.
  - injection H as <-. split; [reflexivity | constructor].
  - destruct (draw_prediction _ _ _ p) as [b |] eqn:Hb;
      cbn [mbind option_bind] in H; [| discriminate].
    destruct (for_each _ ps) as [calls' |];
      cbn [mbind option_bind] in H; [| discriminate].
    injection H as <-. destruct (IH calls' eq_refl) as [IHs IHl].
    apply draw_prediction_shapes in Hb as (_ & _ & textY & rectY & Hb).
    rewrite !omap_app.
    destruct (bbox p) as [[[x1 y1] width] height] eqn:Hbox.
    destruct Hb as (Hplace & -> & -> & ->). split.
    + rewrite IHs, fmap_cons, Hbox. reflexivity.
    + cbn [app]. constructor; [| exact IHl].
      exists textY, rectY. rewrite Hbox. repeat split. exact Hplace.
Qed.

End prediction_facts.

(** The skeleton on the canvas.  A line is drawn exactly for the edges of
    [SKELETON] whose two keypoints both have a score above 0.5, from the
    first keypoint to the second; a dot exactly for the keypoints with a
    score of 0.5 or more.  So both ends of every line carry a dot, while a
    keypoint with a score of exactly 0.5 has a dot and no line. *)
Theorem draw_skeleton (Math_sqrt : Q -> Q)
    (measureText_width : string -> string -> Q) (toFixed : Q -> nat -> string)
    (predictions : list Detection) (overlay_width overlay_height : Q)
    (calls : list Canvas.call) :
  draw_bounding_boxes Math_sqrt measureText_width toFixed
    predictions overlay_width overlay_height = Some calls ->
  (forall x1 y1 x2 y2,
     (x1, y1, x2, y2) ∈ segments calls <->
     exists predict i j kp1 kp2,
       predict ∈ predictions /\ (i, j) ∈ SKELETON /\
       keypoints predict !! i = Some kp1 /\
       keypoints predict !! j = Some kp2 /\
       (0.5 < kp_score kp1)%Q /\ (0.5 < kp_score kp2)%Q /\
       (x1, y1, x2, y2) = (kp_x kp1, kp_y kp1, kp_x kp2, kp_y kp2)) /\
  (forall x y,
     (x, y) ∈ dots calls <->
     exists predict kp,
       predict ∈ predictions /\ kp ∈ keypoints predict /\
       (0.5 <= kp_score kp)%Q /\ (x, y) = (kp_x kp, kp_y kp)) /\
  (forall x1 y1 x2 y2,
     (x1, y1, x2, y2) ∈ segments calls ->
     (x1, y1) ∈ dots calls /\ (x2, y2) ∈ dots calls).
Proof.
  intros H.
  destruct (draw_bounding_boxes_unfold Math_sqrt measureText_width toFixed
              predictions overlay_width overlay_height) as [lw E].
  rewrite E in H. clear E.
  destruct (for_each _ predictions) as [calls' |] eqn:F;
    cbn [mbind option_bind] in H; [| discriminate].
  injection H as <-.
  apply predictions_shapes in F as [Hs Hd].
  change (segments (Canvas.clearRect 0 0 overlay_width overlay_height :: calls'))
    with (segments calls').
  change (dots (Canvas.clearRect 0 0 overlay_width overlay_height :: calls'))
    with (dots calls').
  rewrite Hs, Hd. clear Hs Hd calls' lw.
  assert (Hseg : forall x1 y1 x2 y2,
     (x1, y1, x2, y2) ∈
       predictions ≫= (fun p => omap (segment_of (keypoints p)) SKELETON) <->
     exists predict i j kp1 kp2,
       predict ∈ predictions /\ (i, j) ∈ SKELETON /\
       keypoints predict !! i = Some kp1 /\
       keypoints predict !! j = Some kp2 /\
       (0.5 < kp_score kp1)%Q /\ (0.5 < kp_score kp2)%Q /\
       (x1, y1, x2, y2) = (kp_x kp1, kp_y kp1, kp_x kp2, kp_y kp2)).
  { intros x1 y1 x2 y2. rewrite list_elem_of_bind. split.
    - intros (p & Hin & Hp). apply list_elem_of_omap in Hin as ([i j] & Hedge & Hseg).
      unfold segment_of in Hseg. cbn [fst snd] in Hseg.
      destruct (keypoints p !! i) as [kp1 |] eqn:E1;
        cbn [mbind option_bind] in Hseg; [| discriminate].
      destruct (keypoints p !! j) as [kp2 |] eqn:E2;
        cbn [mbind option_bind] in Hseg; [| discriminate].
      destruct (js_gt (kp_score kp1) 0.5) eqn:G1; [| discriminate].
      destruct (js_gt (kp_score kp2) 0.5) eqn:G2; [| discriminate].
      cbn [andb] in Hseg. injection Hseg as <- <- <- <-.
      apply js_gt_true in G1, G2.
      exists p, i, j, kp1, kp2. repeat split; assumption.
    - intros (p & i & j & kp1 & kp2 & Hp & Hedge & E1 & E2 & G1 & G2 & Heq).
      exists p. split; [| exact Hp].
      apply list_elem_of_omap. exists (i, j). split; [exact Hedge |].
      unfold segment_of. cbn [fst snd]. rewrite E1, E2. cbn [mbind option_bind].
      apply js_gt_true in G1, G2. rewrite G1, G2. cbn [andb].
      rewrite Heq. reflexivity. }
  assert (Hdot : forall x y,
     (x, y) ∈ predictions ≫= (fun p => omap dot_at (keypoints p)) <->
     exists predict kp,
       predict ∈ predictions /\ kp ∈ keypoints predict /\
       (0.5 <= kp_score kp)%Q /\ (x, y) = (kp_x kp, kp_y kp)).
  { intros x y. rewrite list_elem_of_bind. split.
    - intros (p & Hin & Hp). apply list_elem_of_omap in Hin as (kp & Hkp & Hdot).
      unfold dot_at in Hdot.
      destruct (js_lt (kp_score kp) 0.5) eqn:L; [discriminate |].
      injection Hdot as <- <-. apply js_lt_false in L.
      exists p, kp. repeat split; assumption.
    - intros (p & kp & Hp & Hkp & L & Heq).
      exists p. split; [| exact Hp].
      apply list_elem_of_omap. exists kp. split; [exact Hkp |].
      unfold dot_at. apply js_lt_false in L. rewrite L, Heq. reflexivity. }
  split; [exact Hseg |]. split; [exact Hdot |].
  intros x1 y1 x2 y2 Hin.
  apply Hseg in Hin as (p & i & j & kp1 & kp2 & Hp & _ & E1 & E2 & G1 & G2 & Heq).
  injection Heq as -> -> -> ->.
  split; apply Hdot.
  - exists p, kp1. split; [exact Hp |].
    split; [eapply list_elem_of_lookup_2; exact E1 |].
    split; [apply Qlt_le_weak; exact G1 | reflexivity].
  - exists p, kp2. split; [exact Hp |].
    split; [eapply list_elem_of_lookup_2; exact E2 |].
    split; [apply Qlt_le_weak; exact G2 | reflexivity].
Qed.

Lemma draw_skeleton_witness :
  exists calls,
    draw_bounding_boxes (fun q => q) (fun _ _ => 60%Q) (fun _ _ => "0.90")
      [mkDetection (10, 10, 50, 50)%Q 0.9
         (replicate 16 (mkKeypoint 20 30 0.9) ++ [mkKeypoint 40 50 0.5])]
      640 480 = Some calls /\
    (forall x1 y1 x2 y2,
       (x1, y1, x2, y2) ∈ segments calls ->
       (x1, y1) ∈ dots calls /\ (x2, y2) ∈ dots calls).
Proof.
  eexists. split; [vm_compute; reflexivity |].
  apply (draw_skeleton (fun q => q) (fun _ _ => 60%Q) (fun _ _ => "0.90")
           [mkDetection (10, 10, 50, 50)%Q 0.9
              (replicate 16 (mkKeypoint 20 30 0.9) ++ [mkKeypoint 40 50 0.5])]
           640 480).
  vm_compute. reflexivity.
Defined.

(** The boxes and their labels on the canvas.  Each prediction gets, in
    order, one outline, which is its box, and one label: the text
    [score ...] at the left edge of the box on a background that starts one
    pixel further left, is 4 wider than the text and 20 high.  The label
    sits on top of the box when the box starts at least 20 below the top of
    the canvas, and otherwise inside the box, one pixel below its top edge;
    the baseline of the text is within the background; and the background
    starts above the canvas only when the box starts above [-1]. *)
Theorem draw_boxes_and_labels (Math_sqrt : Q -> Q)
    (measureText_width : string -> string -> Q) (toFixed : Q -> nat -> string)
    (predictions : list Detection) (overlay_width overlay_height : Q)
    (calls : list Canvas.call) :
  draw_bounding_boxes Math_sqrt measureText_width toFixed
    predictions overlay_width overlay_height = Some calls ->
  omap stroked_rect_of calls = bbox <$> predictions /\
  Forall3 (fun (predict : Detection) (rect : Box) (text : string * Q * Q) =>
     let '(x1, y1, _, _) := bbox predict in
     let '(rx, ry, rw, rh) := rect in
     let '(s, tx, ty) := text in
     s = "score " +:+ toFixed (score predict) 2%nat /\ tx = x1 /\
     (rx == x1 - 1 /\ rw == measureText_width "16px Arial" s + 4 /\ rh == 20 /\
      (20 <= y1 -> ry == y1 - 20 /\ ty == y1 - 5) /\
      (y1 < 20 -> ry == y1 + 1 /\ ty == y1 + 21) /\
      ry <= ty <= ry + rh /\
      (0 <= ry <-> -1 <= y1))%Q)
    predictions (omap filled_rect_of calls) (omap text_of calls).
Proof.
  intros H.
  destruct (draw_bounding_boxes_unfold Math_sqrt measureText_width toFixed
              predictions overlay_width overlay_height) as [lw E].
  rewrite E in H. clear E.
  destruct (for_each _ predictions) as [calls' |] eqn:F;
    cbn [mbind option_bind] in H; [| discriminate].
  injection H as <-.
  apply predictions_labels in F as [Hs Hl].
  split; [exact Hs |].
  cbn [omap list_omap filled_rect_of text_of].
  eapply Forall3_impl; [exact Hl |].
  intros p rect text (textY & rectY & Hp).
  destruct (bbox p) as [[[x1 y1] width] height].
  destruct Hp as (Hplace & -> & ->).
  split; [reflexivity |]. split; [reflexivity |].
  destruct Hplace as [(Hlt & -> & ->) | (Hge & -> & ->)];
    repeat split; try intros; try lra.
Qed.

Lemma draw_boxes_and_labels_witness :
  exists calls,
    draw_bounding_boxes (fun q => q) (fun _ _ => 60%Q) (fun _ _ => "0.90")
      [mkDetection (10, 10, 50, 50)%Q 0.9
         (replicate 16 (mkKeypoint 20 30 0.9) ++ [mkKeypoint 40 50 0.5])]
      640 480 = Some calls /\
    omap stroked_rect_of calls =
      bbox <$> [mkDetection (10, 10, 50, 50)%Q 0.9
                  (replicate 16 (mkKeypoint 20 30 0.9) ++ [mkKeypoint 40 50 0.5])] /\
    Forall3 (fun (predict : Detection) (rect : Box) (text : string * Q * Q) =>
       let '(x1, y1, _, _) := bbox predict in
       let '(rx, ry, rw, rh) := rect in
       let '(s, tx, ty) := text in
       s = "score " +:+ "0.90" /\ tx = x1 /\
       (rx == x1 - 1 /\ rw == 60 + 4 /\ rh == 20 /\
        (20 <= y1 -> ry == y1 - 20 /\ ty == y1 - 5) /\
        (y1 < 20 -> ry == y1 + 1 /\ ty == y1 + 21) /\
        ry <= ty <= ry + rh /\
        (0 <= ry <-> -1 <= y1))%Q)
      [mkDetection (10, 10, 50, 50)%Q 0.9
         (replicate 16 (mkKeypoint 20 30 0.9) ++ [mkKeypoint 40 50 0.5])]
      (omap filled_rect_of calls) (omap text_of calls).
Proof.
  eexists. split; [vm_compute; reflexivity |].
  apply (draw_boxes_and_labels (fun q => q) (fun _ _ => 60%Q)
           (fun _ _ => "0.90")
           [mkDetection (10, 10, 50, 50)%Q 0.9
              (replicate 16 (mkKeypoint 20 30 0.9) ++ [mkKeypoint 40 50 0.5])]
           640 480).
  vm_compute. reflexivity.
Defined.
